(** * Catalog engine of the DDLC translations site (script.js)

    A shallow embedding of the data normalisation, statistics, filter/sort,
    truncation, URL-state and cache code of [src/script.js], and the
    properties the specification states about them.

    JavaScript strings are sequences of UTF-16 code units, numbers are
    doubles with NaN and the two infinities, and a call may raise: the
    embedding keeps all three visible.  Host functions whose behaviour rests
    on large locale or Unicode tables ([toLowerCase], [localeCompare],
    [Date] parsing, [Number] on strings, [encodeURIComponent], [JSON], the
    URL parser behind the history) are section variables; the small string
    and array primitives ([trim], [includes], [lastIndexOf], [slice],
    spread, [join], [filter], [sort], [URLSearchParams], [parseInt],
    [String] on integers) and the members every object inherits from
    [Object.prototype] are defined.

    The functions around the engine follow: the pacing of events, the
    filters kept in the storage area, the controls, the loading of the data
    file, the cards and the results; and, after the properties of the
    specification, further properties of the code. *)

From Stdlib Require Import ZArith QArith List Bool Lia String Ascii.
From Stdlib Require Import DecimalZ DecimalPos Permutation Sorted.
From stdpp Require Import gmap list.

Set Warnings "-register-all".
Open Scope Z_scope.

(** ** Strings: UTF-16 code units *)

Definition jsstring := list Z.

(** An ASCII literal as a JavaScript string. *)
Definition str (s : string) : jsstring :=
  map (fun a => Z.of_N (N_of_ascii a)) (list_ascii_of_string s).

Definition is_high (u : Z) : bool := (0xD800 <=? u) && (u <=? 0xDBFF).
Definition is_low (u : Z) : bool := (0xDC00 <=? u) && (u <=? 0xDFFF).

(** [WhiteSpace] and [LineTerminator] of ECMA-262, the code units
    [String.prototype.trim] removes. *)
Definition is_trim_space (u : Z) : bool :=
  ((9 <=? u) && (u <=? 13)) || (u =? 0x20) || (u =? 0xA0) || (u =? 0x1680)
  || ((0x2000 <=? u) && (u <=? 0x200A)) || (u =? 0x2028) || (u =? 0x2029)
  || (u =? 0x202F) || (u =? 0x205F) || (u =? 0x3000) || (u =? 0xFEFF).

Fixpoint trimStart (s : jsstring) : jsstring :=
  match s with
  | [] => []
  | u :: r => if is_trim_space u then trimStart r else s
  end.

Definition trimEnd (s : jsstring) : jsstring := rev (trimStart (rev s)).

Definition trim (s : jsstring) : jsstring := trimEnd (trimStart s).

(** The first unit of a string is not white space. *)
Definition head_kept (s : jsstring) : Prop :=
  match s with
  | [] => True
  | u :: _ => is_trim_space u = false
  end.

(** [a === b] on strings. *)
Fixpoint streq (a b : jsstring) : bool :=
  match a, b with
  | [], [] => true
  | x :: a', y :: b' => (x =? y) && streq a' b'
  | _, _ => false
  end.

(** A string is truthy when it is not empty. *)
Definition nonempty (s : jsstring) : bool :=
  match s with [] => false | _ => true end.

Fixpoint startsWith (s p : jsstring) {struct p} : bool :=
  match p, s with
  | [], _ => true
  | a :: p', b :: s' => (a =? b) && startsWith s' p'
  | _ :: _, [] => false
  end.

(** [s.includes(q)] *)
Fixpoint includes (s q : jsstring) : bool :=
  startsWith s q ||
  match s with
  | [] => false
  | _ :: r => includes r q
  end.

Fixpoint lastIndexOf_from (s : jsstring) (c : Z) (i found : Z) : Z :=
  match s with
  | [] => found
  | u :: r => lastIndexOf_from r c (i + 1) (if u =? c then i else found)
  end.

(** [s.lastIndexOf(c)] for a one-unit needle: the index in code units of its
    last occurrence, or -1. *)
Definition lastIndexOf (s : jsstring) (c : Z) : Z := lastIndexOf_from s c 0 (-1).

(** [x.slice(0, n)] on a string or an array, for [n >= 0]. *)
Definition slice0 {A} (x : list A) (n : nat) : list A := take n x.

(** [[...s]]: the string split into its code points, each one a string of
    one unit, or of two for a surrogate pair. *)
Fixpoint spread (s : jsstring) : list jsstring :=
  match s with
  | [] => []
  | u :: r =>
      if is_high u then
        match r with
        | l :: r' => if is_low l then [u; l] :: spread r' else [u] :: spread r
        | [] => [[u]]
        end
      else [u] :: spread r
  end.

(** [parts.join(sep)] *)
Fixpoint join (sep : jsstring) (parts : list jsstring) : jsstring :=
  match parts with
  | [] => []
  | [p] => p
  | p :: rest => p ++ sep ++ join sep rest
  end.

(** ** The host's string codecs

    [URLSearchParams] serialises to and parses from the
    application/x-www-form-urlencoded format of the URL Standard: UTF-8,
    then percent-encoding.  [String(n)] and [parseInt(s, 10)] are given on
    integers. *)

(** A string with no lone surrogate, every unit below 2^16
    ([String.prototype.isWellFormed]). *)
Fixpoint isWellFormed (s : jsstring) : bool :=
  match s with
  | [] => true
  | u :: r =>
      if is_high u then
        match r with
        | l :: r' => is_low l && isWellFormed r'
        | [] => false
        end
      else (0 <=? u) && (u <=? 0xFFFF) && negb (is_low u) && isWellFormed r
  end.

(** The scalar values of a string; a lone surrogate reads as U+FFFD. *)
Fixpoint scalar_values (s : jsstring) : list Z :=
  match s with
  | [] => []
  | u :: r =>
      if is_high u then
        match r with
        | l :: r' =>
            if is_low l
            then (0x10000 + (u - 0xD800) * 0x400 + (l - 0xDC00)) :: scalar_values r'
            else 0xFFFD :: scalar_values r
        | [] => [0xFFFD]
        end
      else if is_low u then 0xFFFD :: scalar_values r
      else u :: scalar_values r
  end.

(** [String.prototype.toWellFormed]: every lone surrogate becomes U+FFFD. *)
Fixpoint toWellFormed (s : jsstring) : jsstring :=
  match s with
  | [] => []
  | u :: r =>
      if is_high u then
        match r with
        | l :: r' =>
            if is_low l then u :: l :: toWellFormed r'
            else 0xFFFD :: toWellFormed r
        | [] => [0xFFFD]
        end
      else if is_low u then 0xFFFD :: toWellFormed r
      else u :: toWellFormed r
  end.

Definition utf16_of_scalar (c : Z) : jsstring :=
  if c <? 0x10000 then [c]
  else [0xD800 + (c - 0x10000) / 0x400; 0xDC00 + (c - 0x10000) mod 0x400].

Definition string_of_scalars (cs : list Z) : jsstring :=
  concat (map utf16_of_scalar cs).

Definition utf8_of_scalar (c : Z) : list Z :=
  if c <? 0x80 then [c]
  else if c <? 0x800 then [0xC0 + c / 64; 0x80 + c mod 64]
  else if c <? 0x10000 then
    [0xE0 + c / 4096; 0x80 + (c / 64) mod 64; 0x80 + c mod 64]
  else
    [0xF0 + c / 262144; 0x80 + (c / 4096) mod 64; 0x80 + (c / 64) mod 64;
     0x80 + c mod 64].

Definition utf8_encode (s : jsstring) : list Z :=
  concat (map utf8_of_scalar (scalar_values s)).

Definition is_cont (b : Z) : bool := (0x80 <=? b) && (b <=? 0xBF).

(** The code point a UTF-8 sequence starting with byte [b0] and going on
    with [r] stands for, and the number of bytes of [r] it takes.  An
    ill-formed sequence gives U+FFFD once and takes the bytes that were
    in range before the one that is not, which is read again as a start:
    the decoder of the Encoding Standard. *)
Definition utf8_head (b0 : Z) (r : list Z) : Z * nat :=
  if b0 <=? 0x7F then (b0, 0%nat)
  else if (0xC2 <=? b0) && (b0 <=? 0xDF) then
    match r with
    | b1 :: _ =>
        if is_cont b1 then ((b0 - 0xC0) * 64 + (b1 - 0x80), 1%nat)
        else (0xFFFD, 0%nat)
    | [] => (0xFFFD, 0%nat)
    end
  else if (0xE0 <=? b0) && (b0 <=? 0xEF) then
    match r with
    | b1 :: r1 =>
        if ((if b0 =? 0xE0 then 0xA0 else 0x80) <=? b1)
           && (b1 <=? (if b0 =? 0xED then 0x9F else 0xBF))
        then
          match r1 with
          | b2 :: _ =>
              if is_cont b2
              then ((b0 - 0xE0) * 4096 + (b1 - 0x80) * 64 + (b2 - 0x80), 2%nat)
              else (0xFFFD, 1%nat)
          | [] => (0xFFFD, 1%nat)
          end
        else (0xFFFD, 0%nat)
    | [] => (0xFFFD, 0%nat)
    end
  else if (0xF0 <=? b0) && (b0 <=? 0xF4) then
    match r with
    | b1 :: r1 =>
        if ((if b0 =? 0xF0 then 0x90 else 0x80) <=? b1)
           && (b1 <=? (if b0 =? 0xF4 then 0x8F else 0xBF))
        then
          match r1 with
          | b2 :: r2 =>
              if is_cont b2 then
                match r2 with
                | b3 :: _ =>
                    if is_cont b3
                    then ((b0 - 0xF0) * 262144 + (b1 - 0x80) * 4096
                          + (b2 - 0x80) * 64 + (b3 - 0x80), 3%nat)
                    else (0xFFFD, 2%nat)
                | [] => (0xFFFD, 2%nat)
                end
              else (0xFFFD, 1%nat)
          | [] => (0xFFFD, 1%nat)
          end
        else (0xFFFD, 0%nat)
    | [] => (0xFFFD, 0%nat)
    end
  else (0xFFFD, 0%nat).

(** The code points of the bytes [bs] after the first [skip] of them, which
    belong to a sequence already read. *)
Fixpoint utf8_decode_from (bs : list Z) (skip : nat) : list Z :=
  match bs with
  | [] => []
  | b :: r =>
      match skip with
      | S k => utf8_decode_from r k
      | O => let '(c, n) := utf8_head b r in c :: utf8_decode_from r n
      end
  end.

(** UTF-8 decode without BOM. *)
Definition utf8_decode (bs : list Z) : list Z := utf8_decode_from bs 0.

Definition hexdigit (n : Z) : Z := if n <? 10 then 0x30 + n else 0x41 + (n - 10).

Definition hexval (c : Z) : option Z :=
  if (0x30 <=? c) && (c <=? 0x39) then Some (c - 0x30)
  else if (0x41 <=? c) && (c <=? 0x46) then Some (c - 0x41 + 10)
  else if (0x61 <=? c) && (c <=? 0x66) then Some (c - 0x61 + 10)
  else None.

(** Bytes the urlencoded serialiser leaves as they are: ASCII letters and
    digits and [* - . _]. *)
Definition url_plain (b : Z) : bool :=
  ((0x30 <=? b) && (b <=? 0x39)) || ((0x41 <=? b) && (b <=? 0x5A))
  || ((0x61 <=? b) && (b <=? 0x7A))
  || (b =? 0x2A) || (b =? 0x2D) || (b =? 0x2E) || (b =? 0x5F).

Definition urlencode_byte (b : Z) : list Z :=
  if url_plain b then [b]
  else if b =? 0x20 then [0x2B]
  else [0x25; hexdigit (b / 16); hexdigit (b mod 16)].

Definition urlencode (s : jsstring) : jsstring :=
  concat (map urlencode_byte (utf8_encode s)).

Fixpoint percent_decode (bs : list Z) : list Z :=
  match bs with
  | [] => []
  | b :: r =>
      if b =? 0x25 then
        match r with
        | h :: l :: r' =>
            match hexval h, hexval l with
            | Some x, Some y => (16 * x + y) :: percent_decode r'
            | _, _ => b :: percent_decode r
            end
        | _ => b :: percent_decode r
        end
      else b :: percent_decode r
  end.

Definition plus_to_space (bs : list Z) : list Z :=
  map (fun b => if b =? 0x2B then 0x20 else b) bs.

Definition urldecode (bs : list Z) : jsstring :=
  string_of_scalars (utf8_decode (percent_decode (plus_to_space bs))).

(** [s.split(sep)] on bytes. *)
Fixpoint split_on (sep : Z) (s : list Z) : list (list Z) :=
  match s with
  | [] => [[]]
  | c :: r =>
      if c =? sep then [] :: split_on sep r
      else match split_on sep r with
           | h :: t => (c :: h) :: t
           | [] => [[c]]
           end
  end.

(** Name and value of one sequence: split at the first [=]. *)
Fixpoint break_eq (s : list Z) : list Z * list Z :=
  match s with
  | [] => ([], [])
  | c :: r =>
      if c =? 0x3D then ([], r)
      else let '(n, v) := break_eq r in (c :: n, v)
  end.

(** An [URLSearchParams] object: its list of name-value pairs. *)
Definition URLSearchParams := list (jsstring * jsstring).

Definition urlencoded_parse (input : jsstring) : URLSearchParams :=
  map (fun sq => let '(n, v) := break_eq sq in (urldecode n, urldecode v))
      (List.filter nonempty (split_on 0x26 (utf8_encode input))).

(** [new URLSearchParams(init)] for a string. *)
Definition URLSearchParams_new (init : jsstring) : URLSearchParams :=
  urlencoded_parse (match init with
                    | 0x3F :: r => r
                    | _ => init
                    end).

(** [params.toString()] *)
Definition URLSearchParams_toString (ps : URLSearchParams) : jsstring :=
  join [0x26] (map (fun '(n, v) => urlencode n ++ [0x3D] ++ urlencode v) ps).

(** [params.get(name)]: the first value, [None] for null. *)
Fixpoint params_get (ps : URLSearchParams) (name : jsstring) : option jsstring :=
  match ps with
  | [] => None
  | (n, v) :: rest => if streq n name then Some v else params_get rest name
  end.

Definition params_has (ps : URLSearchParams) (name : jsstring) : bool :=
  match params_get ps name with Some _ => true | None => false end.

Fixpoint params_replace (ps : URLSearchParams) (name value : jsstring) (seen : bool)
  : URLSearchParams :=
  match ps with
  | [] => []
  | (n, v) :: rest =>
      if streq n name
      then if seen then params_replace rest name value true
           else (n, value) :: params_replace rest name value true
      else (n, v) :: params_replace rest name value seen
  end.

(** [params.set(name, value)]: the first pair of that name takes the value
    and the others go; a new name is appended. *)
Definition params_set (ps : URLSearchParams) (name value : jsstring) : URLSearchParams :=
  if params_has ps name then params_replace ps name value false
  else ps ++ [(name, value)].

(** The decimal digits of a non-negative integer, as code units. *)
Fixpoint digits_of_uint (d : Decimal.uint) : jsstring :=
  match d with
  | Decimal.Nil => []
  | Decimal.D0 r => 0x30 :: digits_of_uint r
  | Decimal.D1 r => 0x31 :: digits_of_uint r
  | Decimal.D2 r => 0x32 :: digits_of_uint r
  | Decimal.D3 r => 0x33 :: digits_of_uint r
  | Decimal.D4 r => 0x34 :: digits_of_uint r
  | Decimal.D5 r => 0x35 :: digits_of_uint r
  | Decimal.D6 r => 0x36 :: digits_of_uint r
  | Decimal.D7 r => 0x37 :: digits_of_uint r
  | Decimal.D8 r => 0x38 :: digits_of_uint r
  | Decimal.D9 r => 0x39 :: digits_of_uint r
  end.

(** [String(n)] for an integer below 10^21 in magnitude: its decimal
    digits, with a minus sign when negative. *)
Definition String_of_Z (n : Z) : jsstring :=
  match Z.to_int n with
  | Decimal.Pos d => digits_of_uint d
  | Decimal.Neg d => 0x2D :: digits_of_uint d
  end.

Definition is_digit (c : Z) : bool := (0x30 <=? c) && (c <=? 0x39).

(** The longest prefix of digits, read in base ten onto [acc]. *)
Fixpoint parse_digits (s : jsstring) (acc : Z) : Z :=
  match s with
  | [] => acc
  | c :: r => if is_digit c then parse_digits r (10 * acc + (c - 0x30)) else acc
  end.

(** [parseInt(s, 10)]: leading white space, a sign, then digits up to the
    first other unit; [None] is NaN. *)
Definition parseInt (s : jsstring) : option Z :=
  match trimStart s with
  | [] => None
  | c :: r =>
      let '(neg, ds) :=
        if c =? 0x2D then (true, r)
        else if c =? 0x2B then (false, r)
        else (false, c :: r) in
      match ds with
      | d :: _ =>
          if is_digit d
          then Some (if neg then - parse_digits ds 0 else parse_digits ds 0)
          else None
      | [] => None
      end
  end.

(** What a string holds for [Number(s)], the [StringNumericLiteral] of
    ECMA-262: white space only, which counts as zero; [Infinity] with or
    without a sign; or a numeral, with its mathematical value. *)
Inductive numeral : Type :=
| Blank
| Infinite (negative : bool)
| Real (mv : Q).

(** The longest prefix of decimal digits, and what follows it. *)
Fixpoint span_digits (s : jsstring) : jsstring * jsstring :=
  match s with
  | c :: r =>
      if is_digit c then let '(ds, rest) := span_digits r in (c :: ds, rest)
      else ([], s)
  | [] => ([], [])
  end.

(** The value of a unit as a digit below [base], for the bases 2, 8 and
    16. *)
Definition digit_below (base c : Z) : option Z :=
  let v :=
    if is_digit c then c - 0x30
    else if (0x61 <=? c) && (c <=? 0x66) then c - 0x61 + 10
    else if (0x41 <=? c) && (c <=? 0x46) then c - 0x41 + 10
    else base in
  if v <? base then Some v else None.

Fixpoint digits_below (base : Z) (s : jsstring) (acc : Z) : option Z :=
  match s with
  | [] => Some acc
  | c :: r =>
      match digit_below base c with
      | Some v => digits_below base r (base * acc + v)
      | None => None
      end
  end.

(** [0b], [0o] or [0x], in either case, and at least one digit of the base;
    such a literal takes no sign. *)
Definition NonDecimalIntegerLiteral (t : jsstring) : option Z :=
  match t with
  | 0x30 :: x :: d :: ds =>
      if (x =? 0x62) || (x =? 0x42) then digits_below 2 (d :: ds) 0
      else if (x =? 0x6F) || (x =? 0x4F) then digits_below 8 (d :: ds) 0
      else if (x =? 0x78) || (x =? 0x58) then digits_below 16 (d :: ds) 0
      else None
  | _ => None
  end.

(** What follows the digits of a decimal literal: nothing, or [e] or [E], a
    sign or none, and at least one digit.  The result is the exponent. *)
Definition ExponentPart (s : jsstring) : option Z :=
  match s with
  | [] => Some 0
  | c :: r =>
      if (c =? 0x65) || (c =? 0x45) then
        let '(neg, ds) :=
          match r with
          | 0x2D :: ds => (true, ds)
          | 0x2B :: ds => (false, ds)
          | _ => (false, r)
          end in
        if nonempty ds && forallb is_digit ds
        then Some (if neg then - parse_digits ds 0 else parse_digits ds 0)
        else None
      else None
  end.

(** Digits, a point and digits, of which one run may be missing, then an
    exponent or none. *)
Definition StrUnsignedDecimalLiteral (u : jsstring) : option Q :=
  let '(ip, r1) := span_digits u in
  let '(fp, r2) :=
    match r1 with
    | 0x2E :: r => span_digits r
    | _ => ([], r1)
    end in
  if nonempty ip || nonempty fp then
    match ExponentPart r2 with
    | Some e =>
        let m := parse_digits (ip ++ fp) 0 in
        let e := e - Z.of_nat (length fp) in
        Some (if 0 <=? e then inject_Z (m * 10 ^ e)
              else Qred (Qmake m (Z.to_pos (10 ^ (- e)))))
    | None => None
    end
  else None.

(** The literal in [s] between the white space around it; [None] when
    there is text that is no literal. *)
Definition StringNumericLiteral (s : jsstring) : option numeral :=
  match trim s with
  | [] => Some Blank
  | t =>
      match NonDecimalIntegerLiteral t with
      | Some n => Some (Real (inject_Z n))
      | None =>
          let '(neg, u) :=
            match t with
            | 0x2D :: u => (true, u)
            | 0x2B :: u => (false, u)
            | _ => (false, t)
            end in
          if streq u (str "Infinity") then Some (Infinite neg)
          else
            match StrUnsignedDecimalLiteral u with
            | Some q => Some (Real (if neg then Qopp q else q))
            | None => None
            end
      end
  end.

(** ** Numbers and values *)

(** A double: not-a-number, an infinity, or a finite value (a rational). *)
Inductive number : Type :=
| NaN
| PosInf
| NegInf
| Fin (x : Q).

Definition isNaN (n : number) : bool :=
  match n with NaN => true | _ => false end.

Definition isFinite (n : number) : bool :=
  match n with Fin _ => true | _ => false end.

Definition of_Z (z : Z) : number := Fin (inject_Z z).

(** [a - b].  On finite values the exact difference stands for the rounded
    one: rounding keeps the sign, and only the sign is used. *)
Definition nsub (a b : number) : number :=
  match a, b with
  | NaN, _ | _, NaN => NaN
  | PosInf, PosInf | NegInf, NegInf => NaN
  | PosInf, _ => PosInf
  | NegInf, _ => NegInf
  | Fin _, PosInf => NegInf
  | Fin _, NegInf => PosInf
  | Fin x, Fin y => Fin (x - y)
  end.

(** The untyped tree the YAML parser produces. *)
Inductive value : Type :=
| VUndefined
| VNull
| VBool (b : bool)
| VNum (n : number)
| VStr (s : jsstring)
| VArr (items : list value)
| VObj (props : list (jsstring * value)).

Inductive jstype := TUndefined | TObject | TBoolean | TNumber | TString.

#[global] Instance jstype_eq_dec : EqDecision jstype.
Proof. solve_decision. Defined.

Definition typeof (v : value) : jstype :=
  match v with
  | VUndefined => TUndefined
  | VNull | VArr _ | VObj _ => TObject
  | VBool _ => TBoolean
  | VNum _ => TNumber
  | VStr _ => TString
  end.

(** ToBoolean *)
Definition truthy (v : value) : bool :=
  match v with
  | VUndefined | VNull => false
  | VBool b => b
  | VNum (Fin x) => negb (Qeq_bool x 0)
  | VNum NaN => false
  | VNum _ => true
  | VStr s => nonempty s
  | VArr _ | VObj _ => true
  end.

(** Reading a property of null or undefined raises. *)
Definition is_nullish (v : value) : bool :=
  match v with VUndefined | VNull => true | _ => false end.

Definition isArray (v : value) : bool :=
  match v with VArr _ => true | _ => false end.

Fixpoint lookup_prop (props : list (jsstring * value)) (k : jsstring) : value :=
  match props with
  | [] => VUndefined
  | (k', v) :: rest => if streq k' k then v else lookup_prop rest k
  end.

(** [v.k] for one of the data field names, on a value that is neither null
    nor undefined: an own property of an object, [undefined] otherwise. *)
Definition get (v : value) (k : jsstring) : value :=
  match v with
  | VObj props => lookup_prop props k
  | _ => VUndefined
  end.

(** ** Exceptions *)

Inductive error :=
  TypeError | URIError | SyntaxError | QuotaExceededError | SecurityError.

Inductive outcome (A : Type) : Type :=
| Return (a : A)
| Throw (e : error).
Arguments Return {A} a.
Arguments Throw {A} e.

#[global] Instance outcome_ret : MRet outcome := fun A a => Return a.
#[global] Instance outcome_bind : MBind outcome := fun A B f m =>
  match m with
  | Return a => f a
  | Throw e => Throw e
  end.

(** [arr.map(f)]: the callback receives the element and its index. *)
Fixpoint array_map_from {A B} (f : A -> value -> outcome B) (i : Z) (l : list A)
  : outcome (list B) :=
  match l with
  | [] => Return []
  | x :: r =>
      y ← f x (VNum (of_Z i));
      ys ← array_map_from f (i + 1) r;
      Return (y :: ys)
  end.

Definition array_map {A B} (f : A -> value -> outcome B) (l : list A)
  : outcome (list B) := array_map_from f 0 l.

(** ** The catalog engine *)

Section Catalog.

(** Host functions. *)
Variable toLowerCase : jsstring -> jsstring.
(** [new Date(str).getTime()]: an integral time value, or [None] for NaN. *)
Variable Date_getTime : jsstring -> option Z.
(** [Number(str)]; the host reads the empty string and blank strings as 0. *)
Variable Number_of_string : jsstring -> number.
(** Raises [URIError] on a lone surrogate. *)
Variable encodeURIComponent : jsstring -> outcome jsstring.
(** [a.localeCompare(b, 'ru', { sensitivity: 'base' })] *)
Variable localeCompare : jsstring -> jsstring -> Z.

(** *** Constants *)

Definition CACHE_KEY : jsstring := str "ddlc_mods_cache".
Definition CACHE_EXPIRY_KEY : jsstring := str "ddlc_cache_expiry".
Definition CACHE_DURATION : Z := 1000 * 60 * 60.

(** 'Завершен' *)
Definition STATUS_COMPLETED : jsstring :=
  [0x417; 0x430; 0x432; 0x435; 0x440; 0x448; 0x435; 0x43D].
(** 'В процессе' *)
Definition STATUS_IN_PROGRESS : jsstring :=
  [0x412; 0x20; 0x43F; 0x440; 0x43E; 0x446; 0x435; 0x441; 0x441; 0x435].

Definition DEFAULTS_query : jsstring := [].
Definition DEFAULTS_status : jsstring := str "all".
Definition DEFAULTS_sort : jsstring := str "date_desc".

Definition titleChars : nat := 64.
Definition descChars : nat := 220.
(** '…' *)
Definition ellipsis : jsstring := [0x2026].

(** *** Utilities *)

(** [safeToString(v, fallback)].  Anything may arrive as [fallback]: through
    [arr.map(safeToString)] it is the element's index. *)
Definition safeToString (v fallback : value) : outcome jsstring :=
  match (match typeof v with TString => v | _ => fallback end) with
  | VStr s => Return (trim s)
  | _ => Throw TypeError
  end.

(** [safeToString(v)] and [safeToString(v, '...')]: the call with a string
    as fallback, which cannot raise. *)
Definition safeToStr (v : value) (fallback : jsstring) : jsstring :=
  trim (match v with VStr s => s | _ => fallback end).

Definition toArray (val : value) : list value :=
  if negb (truthy val) then []
  else match val with
       | VArr items => items
       | _ => [val]
       end.

Definition parseDateISO (s : jsstring) : option Z :=
  match Date_getTime s with
  | None => None
  | Some ms => Some ms
  end.

Definition getDriveViewUrl (imageId : jsstring) : outcome jsstring :=
  e ← encodeURIComponent imageId;
  Return (str "https://drive.google.com/uc?export=view&id=" ++ e).

Definition getDriveDownloadUrl (fileId : jsstring) : outcome jsstring :=
  e ← encodeURIComponent fileId;
  Return (str "https://drive.google.com/uc?export=download&id=" ++ e).

Definition isCompletedStatus (status : value) : bool :=
  streq (toLowerCase (safeToStr status [])) (toLowerCase STATUS_COMPLETED).

(** The normalised record. *)
Record Mod : Type := mkMod {
  m_id : jsstring;
  m_name : jsstring;
  m_description : jsstring;
  m_status : jsstring;
  m_release_date : jsstring;
  m_releaseDateMs : option Z;
  m_original_author : jsstring;
  m_imageUrl : jsstring;
  m_downloadUrl : jsstring;
  m_source_url : jsstring;
  m_mirrors : list jsstring;
  m_tags : list jsstring;
  m_warnings : list jsstring;
  m_size_mb : option number;
  m_haystack : jsstring
}.

Definition set_haystack (m : Mod) (h : jsstring) : Mod :=
  mkMod (m_id m) (m_name m) (m_description m) (m_status m) (m_release_date m)
    (m_releaseDateMs m) (m_original_author m) (m_imageUrl m) (m_downloadUrl m)
    (m_source_url m) (m_mirrors m) (m_tags m) (m_warnings m) (m_size_mb m) h.

Definition buildSearchHaystack (m : Mod) : outcome jsstring :=
  let f1 := safeToStr (VStr (m_name m)) [] in
  let f2 := safeToStr (VStr (m_description m)) [] in
  let f3 := safeToStr (VStr (m_original_author m)) [] in
  ts ← array_map safeToString (toArray (VArr (map VStr (m_tags m))));
  let fields := List.filter nonempty [f1; f2; f3; join (str " ") ts] in
  Return (toLowerCase (join (str " | ") fields)).

(** *** Data normalisation *)

(** [toArray(x).map(safeToString).filter(Boolean)] *)
Definition string_list (x : value) : outcome (list jsstring) :=
  l ← array_map safeToString (toArray x);
  Return (List.filter nonempty l).

(** The [size_mb] coercion of [normalizeMod]. *)
Definition coerce_size_mb (v : value) : option number :=
  match v with
  | VNum n => if isFinite n then Some n else None
  | VStr s =>
      let n := Number_of_string s in
      if negb (isNaN n) && isFinite n then Some n else None
  | _ => None
  end.

Definition normalizeMod (mod_ : value) : outcome (option Mod) :=
  if is_nullish mod_ then Throw TypeError else
  let id := safeToStr (get mod_ (str "id")) [] in
  let name := safeToStr (get mod_ (str "name")) [] in
  let description := safeToStr (get mod_ (str "description")) [] in
  let status := safeToStr (get mod_ (str "status")) [] in
  let release_date := safeToStr (get mod_ (str "release_date")) [] in
  let original_author := safeToStr (get mod_ (str "original_author")) [] in
  if negb (nonempty id) || negb (nonempty name) || negb (nonempty description)
     || negb (nonempty status) || negb (nonempty release_date)
     || negb (nonempty original_author)
  then Return None
  else
    let image := safeToStr (get mod_ (str "image")) [] in
    let image_id := safeToStr (get mod_ (str "image_id")) [] in
    let file_id := safeToStr (get mod_ (str "file_id")) [] in
    let drive_url := safeToStr (get mod_ (str "drive_url")) [] in
    let source_url := safeToStr (get mod_ (str "source_url")) [] in
    mirrors ← string_list (get mod_ (str "mirrors"));
    imageUrl ← (if nonempty image then Return image
                else if nonempty image_id then getDriveViewUrl image_id
                else Return []);
    downloadUrl ← (if nonempty drive_url then Return drive_url
                   else if nonempty file_id then getDriveDownloadUrl file_id
                   else Return []);
    tags ← string_list (get mod_ (str "tags"));
    warnings ← string_list (get mod_ (str "warnings"));
    let size_mb := coerce_size_mb (get mod_ (str "size_mb")) in
    let releaseDateMs := parseDateISO release_date in
    let normalized :=
      mkMod id name description status release_date releaseDateMs
        original_author imageUrl downloadUrl source_url mirrors tags warnings
        size_mb [] in
    h ← buildSearchHaystack normalized;
    Return (Some (set_haystack normalized h)).

(** The body of the [for (const item of list)] loop, with [out] and
    [seenIds] threaded through. *)
Fixpoint validate_loop (items : list value) (out : list Mod)
    (seenIds : gset jsstring) : outcome (list Mod) :=
  match items with
  | [] => Return out
  | item :: rest =>
      if negb (truthy item) || negb (bool_decide (typeof item = TObject))
      then validate_loop rest out seenIds
      else
        nm ← normalizeMod item;
        match nm with
        | None => validate_loop rest out seenIds
        | Some nm =>
            if bool_decide (m_id nm ∈ seenIds)
            then validate_loop rest out seenIds
            else validate_loop rest (out ++ [nm]) ({[m_id nm]} ∪ seenIds)
        end
  end.

Definition validateAndNormalizeData (data : value) : outcome (list Mod) :=
  match data with
  | VArr items => validate_loop items [] ∅
  | _ =>
      if truthy data && isArray (get data (str "mods"))
      then match get data (str "mods") with
           | VArr items => validate_loop items [] ∅
           | _ => Return []
           end
      else Return []
  end.

(** A record of a catalog: what [normalizeMod] returns for some raw record. *)
Definition catalog_item (m : Mod) : Prop :=
  exists raw, normalizeMod raw = Return (Some m).

(** The normalised records of a list of candidates, in input order, without
    the entries that are no objects and without the rejected records. *)
Fixpoint normalized_records (items : list value) : outcome (list Mod) :=
  match items with
  | [] => Return []
  | item :: rest =>
      if truthy item && bool_decide (typeof item = TObject) then
        nm ← normalizeMod item;
        recs ← normalized_records rest;
        Return (match nm with
                | Some m => m :: recs
                | None => recs
                end)
      else normalized_records rest
  end.

(** *** Statistics *)

Record Stats : Type := mkStats {
  total : nat;
  completed : nat;
  inProgress : nat
}.

(** The [for (const mod of mods)] loop of [calculateStats]. *)
Fixpoint stats_loop (mods : list Mod) (stats : Stats) : Stats :=
  match mods with
  | [] => stats
  | m :: rest =>
      stats_loop rest
        (if isCompletedStatus (VStr (m_status m))
         then mkStats (total stats) (S (completed stats)) (inProgress stats)
         else mkStats (total stats) (completed stats) (S (inProgress stats)))
  end.

Definition calculateStats (mods : list Mod) : Stats :=
  stats_loop mods (mkStats (length mods) 0 0).

(** *** Global state *)

Record State : Type := mkState {
  s_mods : list Mod;
  s_query : jsstring;
  s_status : jsstring;
  s_sort : jsstring;
  s_stats : Stats
}.

(** *** Sorting *)

(** [x ?? d] *)
Definition nullish (x : option Z) (d : number) : number :=
  match x with
  | Some t => of_Z t
  | None => d
  end.

Definition date_desc (a b : Mod) : number :=
  let ams := nullish (m_releaseDateMs a) NegInf in
  let bms := nullish (m_releaseDateMs b) NegInf in
  nsub bms ams.

Definition date_asc (a b : Mod) : number :=
  let ams := nullish (m_releaseDateMs a) PosInf in
  let bms := nullish (m_releaseDateMs b) PosInf in
  nsub ams bms.

Definition name_asc (a b : Mod) : number :=
  of_Z (localeCompare (m_name a) (m_name b)).

Definition name_desc (a b : Mod) : number :=
  of_Z (localeCompare (m_name b) (m_name a)).

(** What [sort] is handed as its comparator: a function, which it calls
    with [this] undefined and which may raise, or a value that is no
    function. *)
Inductive comparefn (A : Type) : Type :=
| Function (call : A -> A -> outcome number)
| NotCallable.
Arguments Function {A} call.
Arguments NotCallable {A}.

(** A comparator that returns on every pair, as the four of the script
    do. *)
Definition returning {A} (cmp : A -> A -> number) : comparefn A :=
  Function (fun a b => Return (cmp a b)).

(** The member [key] of [Object.prototype], which the object literal
    [sorters] inherits, as [sort] meets it on two records and [this]
    undefined.  [toString] gives "[object Undefined]" and [constructor]
    gives its first argument, a record: neither is a number.  [__proto__] is
    the prototype object, no function.  The nine others start by turning
    [this] into an object and raise. *)
Definition Object_prototype (key : jsstring) : option (comparefn Mod) :=
  if streq key (str "toString") || streq key (str "constructor")
  then Some (Function (fun _ _ => Return NaN))
  else if streq key (str "__proto__") then Some NotCallable
  else if existsb (streq key)
            [str "valueOf"; str "hasOwnProperty"; str "isPrototypeOf";
             str "propertyIsEnumerable"; str "toLocaleString";
             str "__defineGetter__"; str "__defineSetter__";
             str "__lookupGetter__"; str "__lookupSetter__"]
  then Some (Function (fun _ _ => Throw TypeError))
  else None.

(** [sorters[key]]: an own member, an inherited one, or undefined. *)
Definition sorters (key : jsstring) : option (comparefn Mod) :=
  if streq key (str "date_desc") then Some (returning date_desc)
  else if streq key (str "date_asc") then Some (returning date_asc)
  else if streq key (str "name_asc") then Some (returning name_asc)
  else if streq key (str "name_desc") then Some (returning name_desc)
  else Object_prototype key.

(** A comparator result above zero: the first argument goes after the
    second.  NaN counts as zero. *)
Definition positive_result (v : number) : bool :=
  match v with
  | PosInf => true
  | Fin x => 0 <? Qnum x
  | NaN | NegInf => false
  end.

Fixpoint sort_insert {A} (cmp : A -> A -> number) (x : A) (l : list A) : list A :=
  match l with
  | [] => [x]
  | y :: r => if positive_result (cmp x y) then y :: sort_insert cmp x r else x :: l
  end.

(** The sort with a comparator that returns, which ECMA-262 requires to be
    stable: each element, from the last to the first, is put before the
    first element of the sorted rest that it does not go after. *)
Fixpoint array_sort {A} (cmp : A -> A -> number) (l : list A) : list A :=
  match l with
  | [] => []
  | x :: r => sort_insert cmp x (array_sort cmp r)
  end.

(** The same with a comparator that may raise: the first call that raises
    ends the sort. *)
Fixpoint insert_calling {A} (call : A -> A -> outcome number) (x : A) (l : list A)
  : outcome (list A) :=
  match l with
  | [] => Return [x]
  | y :: r =>
      v ← call x y;
      if positive_result v
      then r' ← insert_calling call x r; Return (y :: r')
      else Return (x :: l)
  end.

Fixpoint sort_calling {A} (call : A -> A -> outcome number) (l : list A)
  : outcome (list A) :=
  match l with
  | [] => Return []
  | x :: r => sorted ← sort_calling call r; insert_calling call x sorted
  end.

(** [arr.sort(comparefn)] on an array of records: a comparator that is no
    function is refused before anything is compared. *)
Definition Array_sort {A} (f : comparefn A) (l : list A) : outcome (list A) :=
  match f with
  | NotCallable => Throw TypeError
  | Function call => sort_calling call l
  end.

(** The order a comparator sorts into: [x] does not go after [y]. *)
Definition not_after {A} (cmp : A -> A -> number) (x y : A) : Prop :=
  positive_result (cmp x y) = false.

(** The comparator [applyFiltersAndSort] picks,
    [sorters[state.sort] || sorters.date_desc]: every member there is, a
    function or an object, is truthy. *)
Definition sorter_of (sort : jsstring) : comparefn Mod :=
  match sorters sort with
  | Some f => f
  | None => returning date_desc
  end.

(** What [applyFiltersAndSort] has in [result] before it sorts. *)
Definition filtered_mods (state : State) : list Mod :=
  let q := toLowerCase (s_query state) in
  let statusFilter := s_status state in
  let result := s_mods state in
  let result :=
    if nonempty q
    then List.filter (fun m => includes (m_haystack m) q) result
    else result in
  if negb (streq statusFilter (str "all"))
  then List.filter (fun m => streq (safeToStr (VStr (m_status m)) []) statusFilter)
         result
  else result.

Definition applyFiltersAndSort (state : State) : outcome (list Mod) :=
  let q := toLowerCase (s_query state) in
  let statusFilter := s_status state in
  let sorter :=
    match sorters (s_sort state) with
    | Some f => f
    | None => returning date_desc
    end in
  let result := s_mods state in
  let result :=
    if nonempty q
    then List.filter (fun m => includes (m_haystack m) q) result
    else result in
  let result :=
    if negb (streq statusFilter (str "all"))
    then List.filter (fun m => streq (safeToStr (VStr (m_status m)) []) statusFilter)
           result
    else result in
  Array_sort sorter result.

(** *** Truncation *)

Record Truncation : Type := mkTruncation {
  text : jsstring;
  truncated : bool
}.

(** [truncateUnicode(str, maxChars, preserveWords, ellipsis)] for a whole
    [maxChars >= 0].  [lastSpace > maxChars * 0.6] is written on integers:
    the double product is exact on the multiples of 5 and elsewhere lies
    at least 0.2 from every integer. *)
Definition truncateUnicode (s : value) (maxChars : nat) (preserveWords : bool)
    (ell : jsstring) : Truncation :=
  let input := safeToStr s [] in
  if negb (nonempty input) then mkTruncation [] false
  else
    let codepoints := spread input in
    if (length codepoints <=? maxChars)%nat then mkTruncation input false
    else
      let sliced := join [] (slice0 codepoints maxChars) in
      let sliced :=
        if preserveWords then
          let lastSpace := lastIndexOf sliced 0x20 in
          if 3 * Z.of_nat maxChars <? 5 * lastSpace
          then slice0 sliced (Z.to_nat lastSpace)
          else sliced
        else sliced in
      mkTruncation (sliced ++ ell) true.

Definition truncateTitle (name : value) : Truncation :=
  truncateUnicode (VStr (safeToStr name [])) titleChars true ellipsis.

Definition truncateDescription (desc : value) : Truncation :=
  truncateUnicode (VStr (safeToStr desc [])) descChars true ellipsis.

(** *** State and URL *)

(** The window's location and the session history behind it. *)
Record Browser : Type := mkBrowser {
  pathname : jsstring;
  search : jsstring;
  hash : jsstring;
  history : list jsstring
}.

Definition readStateFromURL (w : Browser) (state : State) : State :=
  let params := URLSearchParams_new (search w) in
  let query := params_get params (str "q") in
  let status := params_get params (str "status") in
  let sort := params_get params (str "sort") in
  mkState (s_mods state)
    (match query with Some v => v | None => DEFAULTS_query end)
    (match status with Some v => v | None => DEFAULTS_status end)
    (match sort with Some v => v | None => DEFAULTS_sort end)
    (s_stats state).

(** The URL parser behind [history.replaceState] and [history.pushState]:
    the URL is resolved against the page's, and [History_url w url] is the
    path, the query string and the fragment the location then has, or
    [None] when the URL does not parse or is of another origin than the
    page, as a URL that begins with two slashes is when the text after them
    names another host. *)
Variable History_url : Browser -> jsstring -> option (jsstring * jsstring * jsstring).

(** [writeStateToURL(replace)].  A URL the history does not take raises
    [SecurityError] and leaves location and history as they are; one it
    takes becomes the location, and the entry replaces the current one or
    is pushed over it. *)
Definition writeStateToURL (replace : bool) (state : State) (w : Browser)
  : outcome Browser :=
  let params := [] in
  let params := params_set params (str "q") (s_query state) in
  let params := params_set params (str "status") (s_status state) in
  let params := params_set params (str "sort") (s_sort state) in
  let newUrl := pathname w ++ [0x3F] ++ URLSearchParams_toString params ++ hash w in
  match History_url w newUrl with
  | None => Throw SecurityError
  | Some (path, query, fragment) =>
      Return (mkBrowser path query fragment
                (if replace then newUrl :: tail (history w) else newUrl :: history w))
  end.

(** *** Caching *)

Variable JSON_stringify : list Mod -> jsstring.
(** Raises [SyntaxError] on a text that is not JSON. *)
Variable JSON_parse : jsstring -> outcome (list Mod).
(** Whether the storage area takes a write; a refusal is the quota error. *)
Variable storage_accepts : gmap jsstring jsstring -> jsstring -> jsstring -> bool.

Definition setItem (ls : gmap jsstring jsstring) (k v : jsstring)
  : outcome (gmap jsstring jsstring) :=
  if storage_accepts ls k v then Return (<[k := v]> ls)
  else Throw QuotaExceededError.

(** [getCachedData()] at time [now]: the value returned ([None] for null)
    and the storage left behind. *)
Definition getCachedData (now : Z) (ls : gmap jsstring jsstring)
  : option (list Mod) * gmap jsstring jsstring :=
  let cached := ls !! CACHE_KEY in
  let expiry := ls !! CACHE_EXPIRY_KEY in
  match cached, expiry with
  | Some cached, Some expiry =>
      if negb (nonempty cached) || negb (nonempty expiry) then (None, ls)
      else
        let expiryTime := parseInt expiry in
        if match expiryTime with
           | Some t => t <? now
           | None => false
           end
        then (None, delete CACHE_EXPIRY_KEY (delete CACHE_KEY ls))
        else match JSON_parse cached with
             | Return data => (Some data, ls)
             | Throw _ => (None, ls)
             end
  | _, _ => (None, ls)
  end.

(** [setCachedData(data)] at time [now]: the storage left behind. *)
Definition setCachedData (now : Z) (data : list Mod) (ls : gmap jsstring jsstring)
  : gmap jsstring jsstring :=
  match setItem ls CACHE_KEY (JSON_stringify data) with
  | Throw _ => ls
  | Return ls1 =>
      match setItem ls1 CACHE_EXPIRY_KEY (String_of_Z (now + CACHE_DURATION)) with
      | Throw _ => ls1
      | Return ls2 => ls2
      end
  end.

End Catalog.

(** ** The page around the catalog engine

    The functions of [src/script.js] that pace events, keep the filters in
    the storage area, read the controls and load the data file. *)

(** *** Pacing *)

Section Pacing.

Context {A : Type}.

(** One call, at clock reading [now], of the closure [throttle(fn, delay)]
    returns: whether [fn] runs, and the [lastCall] the closure keeps. *)
Definition throttled (delay lastCall now : Z) : bool * Z :=
  if delay <=? now - lastCall then (true, now) else (false, lastCall).

(** The calls of one throttled closure, each with its clock reading and its
    arguments: the calls on which [fn] runs. *)
Fixpoint throttle_from (delay lastCall : Z) (calls : list (Z * A)) : list (Z * A) :=
  match calls with
  | [] => []
  | (now, args) :: rest =>
      let '(runs, lastCall') := throttled delay lastCall now in
      (if runs then [(now, args)] else []) ++ throttle_from delay lastCall' rest
  end.

(** [throttle(fn, delay)], [lastCall] being 0 at first. *)
Definition throttle (delay : Z) (calls : list (Z * A)) : list (Z * A) :=
  throttle_from delay 0 calls.

(** The host's timers: the identifier the next one gets, and the pending
    ones, each with its identifier, the time it is due and what its callback
    holds. *)
Record Timers : Type := mkTimers {
  next_timer : Z;
  pending : list (Z * (Z * A))
}.

(** [setTimeout(callback, delay)] at time [now]; a negative delay counts
    as 0. *)
Definition setTimeout (ts : Timers) (now delay : Z) (held : A) : Z * Timers :=
  (next_timer ts,
   mkTimers (next_timer ts + 1)
     (pending ts ++ [(next_timer ts, (now + Z.max delay 0, held))])).

(** [clearTimeout(id)]; [None] is undefined, and an identifier that is not
    pending does nothing. *)
Definition clearTimeout (ts : Timers) (id : option Z) : Timers :=
  match id with
  | None => ts
  | Some i =>
      mkTimers (next_timer ts) (List.filter (fun p => negb (fst p =? i)) (pending ts))
  end.

(** What happens to a debounced closure: it is called, or the host runs the
    timers that are due. *)
Inductive event : Type :=
| Call (now : Z) (args : A)
| Tick (now : Z).

(** The closure [debounce(fn, delay)] returns keeps [timeoutId]; a call
    clears that timer and sets a new one, whose callback holds the call's
    arguments. *)
Definition debounced (delay : Z) (timeoutId : option Z) (ts : Timers) (now : Z)
    (args : A) : option Z * Timers :=
  let ts := clearTimeout ts timeoutId in
  let '(id, ts) := setTimeout ts now delay args in
  (Some id, ts).

(** The runs of [fn], each with the time and the arguments, over a sequence
    of events. *)
Fixpoint debounce_from (delay : Z) (timeoutId : option Z) (ts : Timers)
    (events : list event) : list (Z * A) :=
  match events with
  | [] => []
  | Call now args :: rest =>
      let '(timeoutId', ts') := debounced delay timeoutId ts now args in
      debounce_from delay timeoutId' ts' rest
  | Tick now :: rest =>
      let due := List.filter (fun p => fst (snd p) <=? now) (pending ts) in
      let left := List.filter (fun p => negb (fst (snd p) <=? now)) (pending ts) in
      map (fun p => (now, snd (snd p))) due
      ++ debounce_from delay timeoutId (mkTimers (next_timer ts) left) rest
  end.

(** [debounce(fn, delay)] on a host with no timer pending. *)
Definition debounce (delay : Z) (first_id : Z) (events : list event) : list (Z * A) :=
  debounce_from delay None (mkTimers first_id []) events.

(** A single slot holding the latest call: what a debounced function is
    meant to be. *)
Fixpoint latest_call_only (delay : Z) (armed : option (Z * A)) (events : list event)
  : list (Z * A) :=
  match events with
  | [] => []
  | Call now args :: rest => latest_call_only delay (Some (now, args)) rest
  | Tick now :: rest =>
      match armed with
      | Some (t, args) =>
          if t + Z.max delay 0 <=? now
          then (now, args) :: latest_call_only delay None rest
          else latest_call_only delay armed rest
      | None => latest_call_only delay None rest
      end
  end.

End Pacing.

Arguments Timers A : clear implicits.
Arguments event A : clear implicits.

Section Page.

Context (toLowerCase : jsstring -> jsstring) (Date_getTime : jsstring -> option Z)
  (Number_of_string : jsstring -> number)
  (encodeURIComponent : jsstring -> outcome jsstring)
  (localeCompare : jsstring -> jsstring -> Z)
  (JSON_stringify : list Mod -> jsstring)
  (JSON_parse : jsstring -> outcome (list Mod))
  (storage_accepts : gmap jsstring jsstring -> jsstring -> jsstring -> bool).

(** *** Dates on a card *)

(** [new Intl.DateTimeFormat('ru-RU', ...).format(new Date(ms))] *)
Context (Intl_format : Z -> outcome jsstring).

(** '—' *)
Definition dash : jsstring := [0x2014].

(** [formatDateRu(str)] on a string, as its caller passes the record's
    [release_date]. *)
Definition formatDateRu (s : jsstring) : jsstring :=
  let ms := parseDateISO Date_getTime s in
  match ms with
  | None => safeToStr (VStr s) dash
  | Some ms =>
      match Intl_format ms with
      | Return t => t
      | Throw _ => safeToStr (VStr s) dash
      end
  end.

(** *** Filters in the storage area *)

Definition FILTERS_STORAGE_KEY : jsstring := str "ddlc_filters".

(** [JSON.stringify] and [JSON.parse] on data values. *)
Context (JSON_stringify_value : value -> jsstring)
  (JSON_parse_value : jsstring -> outcome value).

(** [{ query: state.query, status: state.status, sort: state.sort }] *)
Definition filters_of (state : State) : value :=
  VObj [(str "query", VStr (s_query state)); (str "status", VStr (s_status state));
        (str "sort", VStr (s_sort state))].

Definition saveFiltersToStorage (state : State) (ls : gmap jsstring jsstring)
  : gmap jsstring jsstring :=
  match setItem storage_accepts ls FILTERS_STORAGE_KEY
          (JSON_stringify_value (filters_of state)) with
  | Return ls' => ls'
  | Throw _ => ls
  end.

(** What reading [query], [status] or [sort] off a parsed JSON value gives:
    a data value, or, for [sort] on an array, the array's method of that
    name. *)
Inductive member : Type :=
| Data (v : value)
| ArraySort.

(** The object [loadFiltersFromStorage] returns. *)
Record Filters : Type := mkFilters {
  f_query : value;
  f_status : value;
  f_sort : member
}.

(** [v || d] *)
Definition or_default (v : value) (d : jsstring) : value :=
  if truthy v then v else VStr d.

(** [loadFiltersFromStorage()]; [None] is null.  Parsing may raise, and so
    does reading a property of null: both are caught. *)
Definition loadFiltersFromStorage (ls : gmap jsstring jsstring) : option Filters :=
  match ls !! FILTERS_STORAGE_KEY with
  | Some stored =>
      if nonempty stored then
        match JSON_parse_value stored with
        | Return filters =>
            if is_nullish filters then None
            else
              Some (mkFilters
                      (or_default (get filters (str "query")) DEFAULTS_query)
                      (or_default (get filters (str "status")) DEFAULTS_status)
                      (match filters with
                       | VArr _ => ArraySort
                       | _ => Data (or_default (get filters (str "sort")) DEFAULTS_sort)
                       end))
        | Throw _ => None
        end
      else None
  | None => None
  end.

(** *** Controls *)

(** The search box and the two select boxes: [None] when the element is
    missing from the page, else the [value] it has. *)
Record Controls : Type := mkControls {
  c_search : option value;
  c_statusFilter : option value;
  c_sortBy : option value
}.

Definition syncStateFromControls (els : Controls) (state : State) : State :=
  mkState (s_mods state)
    (match c_search els with
     | Some v => safeToStr v []
     | None => DEFAULTS_query
     end)
    (match c_statusFilter els with
     | Some v =>
         if nonempty (safeToStr v []) then safeToStr v [] else DEFAULTS_status
     | None => DEFAULTS_status
     end)
    (match c_sortBy els with
     | Some v =>
         if nonempty (safeToStr v []) then safeToStr v [] else DEFAULTS_sort
     | None => DEFAULTS_sort
     end)
    (s_stats state).

(** *** Loading the data file *)

(** What [fetch(DATA_URL)] comes to: a rejection, or a response with its
    [ok] flag and what [res.text()] comes to. *)
Inductive fetched : Type :=
| Rejected
| Response (ok : bool) (body : outcome jsstring).

(** What [loadData] raises. *)
Inductive load_error : Type :=
| JsYamlMissing
| FetchRejected
| FetchNotOk
| BodyRejected
| YamlParseError
| Raised (e : error).

(** The [try] block of [loadData] up to the validated catalog. *)
Definition fetch_catalog (load : jsstring -> outcome value) (res : fetched)
  : load_error + list Mod :=
  match res with
  | Rejected => inl FetchRejected
  | Response ok body =>
      if negb ok then inl FetchNotOk
      else match body with
           | Throw _ => inl BodyRejected
           | Return text =>
               match load text with
               | Throw _ => inl YamlParseError
               | Return parsed =>
                   match validateAndNormalizeData toLowerCase Date_getTime
                           Number_of_string encodeURIComponent parsed with
                   | Throw e => inl (Raised e)
                   | Return mods => inr mods
                   end
               end
           end
  end.

(** [loadData()] at time [now]: [jsyaml] is [window.jsyaml.load], [None]
    when the library is missing.  The result is the catalog or the error,
    and the storage left behind. *)
Definition loadData (jsyaml : option (jsstring -> outcome value)) (res : fetched)
    (now : Z) (ls : gmap jsstring jsstring)
  : (load_error + list Mod) * gmap jsstring jsstring :=
  match jsyaml with
  | None => (inl JsYamlMissing, ls)
  | Some load =>
      match fetch_catalog load res with
      | inr mods =>
          (inr mods, setCachedData JSON_stringify storage_accepts now mods ls)
      | inl e =>
          let '(cached, ls') := getCachedData JSON_parse now ls in
          match cached with
          | Some data => (inr data, ls')
          | None => (inl e, ls')
          end
      end
  end.

End Page.

(** *** Cards and results

    The elements the script builds are trees of elements and text nodes; an
    element carries its tag and its attributes in the order they are set.
    Event listeners are registered with the host and are no part of the
    tree. *)

Inductive node : Type :=
| Text (data : jsstring)
| Element (tag : jsstring) (attrs : list (jsstring * jsstring)) (children : list node).

(** The elements of the page the results are shown in: the children of
    [els.modsContainer], the [hidden] flag of [els.emptyState] and the text
    of [els.statusRegion], each [None] when the element is missing. *)
Record Dom : Type := mkDom {
  modsContainer : option (list node);
  emptyState : option bool;
  statusRegion : option jsstring
}.

Definition PLACEHOLDER_IMG : jsstring := str "./assets/placeholder.png".

(** 'Изображение мода' *)
Definition ALT_DEFAULT : jsstring :=
  [0x418; 0x437; 0x43E; 0x431; 0x440; 0x430; 0x436; 0x435; 0x43D; 0x438;
   0x435; 0x20; 0x43C; 0x43E; 0x434; 0x430].

(** 'Без названия' *)
Definition TITLE_DEFAULT : jsstring :=
  [0x411; 0x435; 0x437; 0x20; 0x43D; 0x430; 0x437; 0x432; 0x430; 0x43D;
   0x438; 0x44F].

(** 'Статус неизвестен' *)
Definition STATUS_UNKNOWN : jsstring :=
  [0x421; 0x442; 0x430; 0x442; 0x443; 0x441; 0x20; 0x43D; 0x435; 0x438;
   0x437; 0x432; 0x435; 0x441; 0x442; 0x435; 0x43D].

(** 'Автор' *)
Definition LABEL_AUTHOR : jsstring :=
  [0x410; 0x432; 0x442; 0x43E; 0x440].

(** 'Дата' *)
Definition LABEL_DATE : jsstring :=
  [0x414; 0x430; 0x442; 0x430].

(** 'Размер' *)
Definition LABEL_SIZE : jsstring :=
  [0x420; 0x430; 0x437; 0x43C; 0x435; 0x440].

(** ' МБ' *)
Definition UNIT_MB : jsstring :=
  [0x20; 0x41C; 0x411].

(** 'Исходник' *)
Definition LABEL_SOURCE : jsstring :=
  [0x418; 0x441; 0x445; 0x43E; 0x434; 0x43D; 0x438; 0x43A].

(** 'Скачать' *)
Definition LABEL_DOWNLOAD : jsstring :=
  [0x421; 0x43A; 0x430; 0x447; 0x430; 0x442; 0x44C].

(** 'Ссылка для скачивания недоступна' *)
Definition NO_DOWNLOAD : jsstring :=
  [0x421; 0x441; 0x44B; 0x43B; 0x43A; 0x430; 0x20; 0x434; 0x43B; 0x44F; 0x20;
   0x441; 0x43A; 0x430; 0x447; 0x438; 0x432; 0x430; 0x43D; 0x438; 0x44F;
   0x20; 0x43D; 0x435; 0x434; 0x43E; 0x441; 0x442; 0x443; 0x43F; 0x43D;
   0x430].

(** 'Показать ещё ' *)
Definition SHOW_MORE : jsstring :=
  [0x41F; 0x43E; 0x43A; 0x430; 0x437; 0x430; 0x442; 0x44C; 0x20; 0x435;
   0x449; 0x451; 0x20].

(** ' тегов' *)
Definition TAGS_WORD : jsstring :=
  [0x20; 0x442; 0x435; 0x433; 0x43E; 0x432].

(** 'Найдено ' *)
Definition FOUND : jsstring :=
  [0x41D; 0x430; 0x439; 0x434; 0x435; 0x43D; 0x43E; 0x20].

(** ' мод(ов)' *)
Definition MODS_WORD : jsstring :=
  [0x20; 0x43C; 0x43E; 0x434; 0x28; 0x43E; 0x432; 0x29].

(** ' по запросу ' and the opening quotation mark *)
Definition BY_QUERY : jsstring :=
  [0x20; 0x43F; 0x43E; 0x20; 0x437; 0x430; 0x43F; 0x440; 0x43E; 0x441; 0x443;
   0x20; 0x22].

(** ' (статус: ' *)
Definition STATUS_SUFFIX : jsstring :=
  [0x20; 0x28; 0x441; 0x442; 0x430; 0x442; 0x443; 0x441; 0x3A; 0x20].

(** [el.textContent = s]: the children become one text node, or none when
    [s] is empty. *)
Definition text_of (s : jsstring) : list node :=
  if nonempty s then [Text s] else [].

(** [s || d] on strings. *)
Definition or_text (s d : jsstring) : jsstring :=
  if nonempty s then s else d.

(** [setHidden(el, hidden)] *)
Definition setHidden (el : option bool) (hidden : bool) : option bool :=
  match el with
  | None => None
  | Some _ => Some hidden
  end.

(** [setStatusMessage(text)] *)
Definition setStatusMessage (text : jsstring) (page : Dom) : Dom :=
  match statusRegion page with
  | Some _ => mkDom (modsContainer page) (emptyState page) (Some (or_text text []))
  | None => page
  end.

Definition createMetaRow (label value : jsstring) : node :=
  Element (str "div") [] (text_of (label ++ str ": " ++ value)).

(** [clearContainer(container)] on the children of the container: the
    first child is removed as long as there is one. *)
Fixpoint clearContainer (children : list node) : list node :=
  match children with
  | [] => []
  | _ :: rest => clearContainer rest
  end.

Section Render.

Context (toLowerCase : jsstring -> jsstring) (Date_getTime : jsstring -> option Z)
  (localeCompare : jsstring -> jsstring -> Z)
  (History_url : Browser -> jsstring -> option (jsstring * jsstring * jsstring))
  (Intl_format : Z -> outcome jsstring)
  (JSON_stringify_value : value -> jsstring)
  (storage_accepts : gmap jsstring jsstring -> jsstring -> jsstring -> bool).

(** [String(n)] on a number, and [window.innerWidth]. *)
Context (Number_toString : number -> jsstring) (innerWidth : Z).

Definition createTags (tags : list jsstring) : node :=
  let isMobile := innerWidth <=? 768 in
  let maxVisibleTags := if isMobile then 3 else Z.of_nat (length tags) in
  let spans :=
    map (fun tag =>
           Element (str "span") [(str "class", str "tag"); (str "role", str "listitem")]
             (text_of tag))
        tags in
  if isMobile && (maxVisibleTags <? Z.of_nat (length tags)) then
    let more := String_of_Z (Z.of_nat (length tags) - maxVisibleTags) in
    let moreBtn :=
      Element (str "button")
        [(str "class", str "tag-more"); (str "type", str "button");
         (str "aria-label", SHOW_MORE ++ more ++ TAGS_WORD)]
        (text_of (str "+" ++ more)) in
    Element (str "div")
      [(str "class", str "tags tags--collapsed"); (str "role", str "list")]
      (spans ++ [moreBtn])
  else
    Element (str "div") [(str "class", str "tags"); (str "role", str "list")] spans.

Definition createModCard (m : Mod) : node :=
  let img :=
    Element (str "img")
      [(str "loading", str "lazy"); (str "alt", or_text (m_name m) ALT_DEFAULT);
       (str "src", or_text (m_imageUrl m) PLACEHOLDER_IMG)]
      [] in
  let titleTrunc := truncateTitle (VStr (or_text (m_name m) TITLE_DEFAULT)) in
  let h3 :=
    Element (str "h3")
      (if truncated titleTrunc then [(str "title", m_name m)] else [])
      (text_of (text titleTrunc)) in
  let completed := isCompletedStatus toLowerCase (VStr (m_status m)) in
  let badge :=
    Element (str "span")
      [(str "class",
        str "status-badge "
        ++ (if completed then str "status-completed" else str "status-in-progress"))]
      (text_of (or_text (m_status m) STATUS_UNKNOWN)) in
  let author := createMetaRow LABEL_AUTHOR (or_text (m_original_author m) dash) in
  let dateRow :=
    createMetaRow LABEL_DATE (formatDateRu Date_getTime Intl_format (m_release_date m)) in
  let meta := Element (str "div") [(str "class", str "meta")] [badge; author; dateRow] in
  let descTrunc := truncateDescription (VStr (or_text (m_description m) [])) in
  let p :=
    Element (str "p")
      ((str "class", str "description")
       :: (if truncated descTrunc then [(str "title", m_description m)] else []))
      (text_of (text descTrunc)) in
  let tags :=
    match m_tags m with
    | [] => []
    | _ => [createTags (m_tags m)]
    end in
  let size :=
    match m_size_mb m with
    | Some n => if isFinite n then [createMetaRow LABEL_SIZE (Number_toString n ++ UNIT_MB)] else []
    | None => []
    end in
  let source :=
    if nonempty (m_source_url m) then
      [Element (str "div") []
         [Element (str "a")
            [(str "href", m_source_url m); (str "target", str "_blank");
             (str "rel", str "noopener noreferrer")]
            (text_of LABEL_SOURCE)]]
    else [] in
  let extra :=
    match size ++ source with
    | [] => []
    | rows => [Element (str "div") [(str "class", str "meta")] rows]
    end in
  let a :=
    Element (str "a")
      ([(str "class", str "download-btn"); (str "target", str "_blank");
        (str "rel", str "noopener noreferrer")]
       ++ (if nonempty (m_downloadUrl m) then [(str "href", m_downloadUrl m)]
           else [(str "href", str "#"); (str "aria-disabled", str "true");
                 (str "title", NO_DOWNLOAD)]))
      (text_of LABEL_DOWNLOAD) in
  Element (str "article") [(str "class", str "mod-card"); (str "tabindex", str "-1")]
    ([img; h3; meta; p] ++ tags ++ extra ++ [a]).

(** [renderMods(mods)]: reading [firstChild] of a missing container
    raises. *)
Definition renderMods (mods : list Mod) (page : Dom) : outcome Dom :=
  match modsContainer page with
  | None => Throw TypeError
  | Some children =>
      let cleared := clearContainer children in
      match mods with
      | [] =>
          Return (mkDom (Some cleared) (setHidden (emptyState page) false)
                    (statusRegion page))
      | _ =>
          Return (mkDom (Some (cleared ++ map createModCard mods))
                    (setHidden (emptyState page) true) (statusRegion page))
      end
  end.

(** [updateResults()]: the page and the storage left behind.  When it
    raises, in the sort or on a missing container, nothing has been shown,
    announced or saved. *)
Definition updateResults (state : State) (page : Dom) (ls : gmap jsstring jsstring)
  : outcome (Dom * gmap jsstring jsstring) :=
  filtered ← applyFiltersAndSort toLowerCase localeCompare state;
  page ← renderMods filtered page;
  let suffix :=
    if nonempty (s_query state) then BY_QUERY ++ s_query state ++ [0x22] else [] in
  let statusSuffix :=
    if negb (streq (s_status state) (str "all"))
    then STATUS_SUFFIX ++ s_status state ++ str ")"
    else [] in
  let page :=
    setStatusMessage
      (FOUND ++ String_of_Z (Z.of_nat (length filtered)) ++ MODS_WORD ++ suffix
       ++ statusSuffix ++ str ".")
      page in
  Return (page, saveFiltersToStorage storage_accepts JSON_stringify_value state ls).

(** [onStatusChange()] and [onSortChange()], also what the debounced
    [onSearchInput] runs: the state and the location left behind, and what
    the rest of the handler comes to.  When [writeStateToURL] raises the
    handler ends there, with the state already changed. *)
Definition onStatusChange (els : Controls) (state : State) (w : Browser) (page : Dom)
    (ls : gmap jsstring jsstring)
  : State * Browser * outcome (Dom * gmap jsstring jsstring) :=
  let state := syncStateFromControls els state in
  match writeStateToURL History_url true state w with
  | Throw e => (state, w, Throw e)
  | Return w' => (state, w', updateResults state page ls)
  end.

Definition onSortChange := onStatusChange.

End Render.




(** ** The specification's wording, to compare the code with *)

(** A record with another [size_mb]. *)
Definition with_size_mb (m : Mod) (size : option number) : Mod :=
  mkMod (m_id m) (m_name m) (m_description m) (m_status m) (m_release_date m)
    (m_releaseDateMs m) (m_original_author m) (m_imageUrl m) (m_downloadUrl m)
    (m_source_url m) (m_mirrors m) (m_tags m) (m_warnings m) size (m_haystack m).

(** The six mandatory fields. *)
Definition mandatory_fields : list jsstring :=
  [str "id"; str "name"; str "description"; str "status"; str "release_date";
   str "original_author"].

(** The candidate list of a parsed tree: the tree itself when it is a
    sequence, else its [mods] field when that is a sequence, else nothing. *)
Definition candidates (data : value) : list value :=
  match data with
  | VArr items => items
  | _ => match get data (str "mods") with
         | VArr items => if truthy data then items else []
         | _ => []
         end
  end.

(** Of a list of records, those whose [id] no earlier record has, neither
    in [earlier] nor in the list itself: the first record of each [id]. *)
Fixpoint first_of_each_id (earlier : list Mod) (l : list Mod) : list Mod :=
  match l with
  | [] => []
  | m :: rest =>
      (if bool_decide (m_id m ∈ map m_id earlier) then [] else [m])
      ++ first_of_each_id (earlier ++ [m]) rest
  end.

(** The comparator the specification gives a sort key: one of the four, and
    the default, [date_desc], when the key is not recognised. *)
Definition specified_sorter (localeCompare : jsstring -> jsstring -> Z)
    (sort : jsstring) : Mod -> Mod -> number :=
  if streq sort (str "date_asc") then date_asc
  else if streq sort (str "name_asc") then name_asc localeCompare
  else if streq sort (str "name_desc") then name_desc localeCompare
  else date_desc.

(** The names of the members every object inherits from
    [Object.prototype]. *)
Definition object_prototype_keys : list jsstring :=
  [str "constructor"; str "__proto__"; str "hasOwnProperty"; str "isPrototypeOf";
   str "propertyIsEnumerable"; str "toLocaleString"; str "toString"; str "valueOf";
   str "__defineGetter__"; str "__defineSetter__"; str "__lookupGetter__";
   str "__lookupSetter__"].

(** A numeric string, as the specification has it: one that holds a
    numeral. *)
Definition numeric_string (s : jsstring) : bool :=
  match StringNumericLiteral s with
  | Some (Real _) | Some (Infinite _) => true
  | Some Blank | None => false
  end.

(** The [size_mb] coercion as the specification words it: a finite number
    as it is, a numeric string parsed, anything else null. *)
Definition size_mb_as_specified (Number_of_string : jsstring -> number) (v : value)
  : option number :=
  match v with
  | VNum n => if isFinite n then Some n else None
  | VStr s =>
      if numeric_string s && isFinite (Number_of_string s)
      then Some (Number_of_string s)
      else None
  | _ => None
  end.

(** Whether two records have the same sort key under the sort named
    [sort]: the same name for the two name sorts, the same release
    timestamp for the date sorts and for an unknown key. *)
Definition same_sort_key (sort : jsstring) (a b : Mod) : bool :=
  if streq sort (str "name_asc") || streq sort (str "name_desc")
  then streq (m_name a) (m_name b)
  else bool_decide (m_releaseDateMs a = m_releaseDateMs b).

(** Whether neither of two elements goes after the other under [cmp]: the
    comparator finds them equal. *)
Definition sort_tie {A} (cmp : A -> A -> number) (a b : A) : bool :=
  negb (positive_result (cmp a b)) && negb (positive_result (cmp b a)).

(** Whether the sort named [sort] is by date. *)
Definition sorts_by_date (sort : jsstring) : bool :=
  negb (streq sort (str "name_asc") || streq sort (str "name_desc")).

(** The query text the filter uses: lower-cased, not trimmed. *)
Definition view_selects (toLowerCase : jsstring -> jsstring) (state : State) (m : Mod)
  : Prop :=
  (toLowerCase (s_query state) = [] \/
   includes (m_haystack m) (toLowerCase (s_query state)) = true) /\
  (s_status state = str "all" \/ m_status m = s_status state).

(** The selection as the specification words it: the query lower-cased and
    trimmed. *)
Definition view_selects_trimmed (toLowerCase : jsstring -> jsstring) (state : State)
    (m : Mod) : Prop :=
  (trim (toLowerCase (s_query state)) = [] \/
   includes (m_haystack m) (trim (toLowerCase (s_query state))) = true) /\
  (s_status state = str "all" \/ m_status m = s_status state).

Definition with_sort (state : State) (sort : jsstring) : State :=
  mkState (s_mods state) (s_query state) (s_status state) sort (s_stats state).

Fixpoint last_space_from (cps : list jsstring) (i : nat) (found : option nat)
  : option nat :=
  match cps with
  | [] => found
  | c :: r => last_space_from r (S i) (if streq c [0x20] then Some i else found)
  end.

(** Truncation as the specification words the back-off: among the first
    [maxChars] code points, to the last space when it stands no earlier than
    60% into the budget, positions counted in code points. *)
Definition truncate_as_specified (s : value) (maxChars : nat) (preserveWords : bool)
  : Truncation :=
  let input := safeToStr s [] in
  let codepoints := spread input in
  if (length codepoints <=? maxChars)%nat then mkTruncation input false
  else
    let first := take maxChars codepoints in
    let kept :=
      if preserveWords then
        match last_space_from first 0 None with
        | Some i => if 3 * Z.of_nat maxChars <=? 5 * Z.of_nat i then take i first else first
        | None => first
        end
      else first in
    mkTruncation (concat kept ++ ellipsis) true.

(** A UTF-16 code unit, which every element of a string is. *)
Definition is_unit (u : Z) : Prop := 0 <= u <= 0xFFFF.

(** A state with every lone surrogate of its query, status and sort
    replaced by U+FFFD. *)
Definition well_formed_state (state : State) : State :=
  mkState (s_mods state) (toWellFormed (s_query state))
    (toWellFormed (s_status state)) (toWellFormed (s_sort state)) (s_stats state).

(** The query string [writeStateToURL] makes of a state. *)
Definition query_string (state : State) : jsstring :=
  URLSearchParams_toString
    [(str "q", s_query state); (str "status", s_status state);
     (str "sort", s_sort state)].

(** The history takes the URL [writeStateToURL] makes of [state] on the
    page [w] as the page's own path with that query string and the page's
    fragment. *)
Definition takes_url
    (History_url : Browser -> jsstring -> option (jsstring * jsstring * jsstring))
    (w : Browser) (state : State) : Prop :=
  History_url w (pathname w ++ [0x3F] ++ query_string state ++ hash w) =
  Some (pathname w, [0x3F] ++ query_string state, hash w).

(** A Unicode scalar value: a code point that is no surrogate. *)
Definition is_scalar (c : Z) : Prop :=
  0 <= c < 0x110000 /\ ~ (0xD800 <= c <= 0xDFFF).

Definition is_byte (b : Z) : Prop := 0 <= b < 256.

(** The characters the urlencoded serialiser writes for a name or a value:
    ASCII, and neither [&] nor [=]. *)
Definition url_char (c : Z) : Prop := 0 <= c < 128 /\ c <> 0x26 /\ c <> 0x3D.

(** ** Vocabulary of the further properties *)

Definition is_string (v : value) : bool :=
  match v with VStr _ => true | _ => false end.

(** A string that is not empty and has no white space at either end. *)
Definition trimmed_text (s : jsstring) : Prop := s <> [] /\ trim s = s.

Definition DRIVE_VIEW : jsstring := str "https://drive.google.com/uc?export=view&id=".
Definition DRIVE_DOWNLOAD : jsstring :=
  str "https://drive.google.com/uc?export=download&id=".

(** [direct || (id ? drive(id) : '')], the way [normalizeMod] picks
    [imageUrl] and [downloadUrl]. *)
Definition url_or_drive (direct id : jsstring) (drive : jsstring -> outcome jsstring)
  : outcome jsstring :=
  if nonempty direct then Return direct
  else if nonempty id then drive id
  else Return [].

(** A candidate on which [normalizeMod], if it is called on it at all, does
    not raise. *)
Definition passes (normalize : value -> outcome (option Mod)) (item : value) : Prop :=
  truthy item = true -> typeof item = TObject -> exists o, normalize item = Return o.

(** A key of the storage area that is none of the cache's. *)
Definition foreign_key (k : jsstring) : Prop :=
  k <> CACHE_KEY /\ k <> CACHE_EXPIRY_KEY.

(** The clock reading of the last run, [lastCall] when there is none. *)
Definition last_run {A} (lastCall : Z) (runs : list (Z * A)) : Z :=
  match last runs with
  | Some (t, _) => t
  | None => lastCall
  end.

(** The timers of a debounced closure with [armed] as its latest call not
    yet run: that call's timer alone is pending, under [timeoutId]. *)
Definition holds_latest {A} (delay : Z) (timeoutId : option Z) (ts : Timers A)
    (armed : option (Z * A)) : Prop :=
  match armed with
  | None => pending ts = []
  | Some (t, args) =>
      exists id, timeoutId = Some id /\
                 pending ts = [(id, (t + Z.max delay 0, args))]
  end.

(** The text of a tree: the data of its text nodes, in document order. *)
Fixpoint texts (n : node) : list jsstring :=
  match n with
  | Text s => [s]
  | Element _ _ children => concat (map texts children)
  end.

(** The children of an element. *)
Definition children_of (n : node) : list node :=
  match n with
  | Text _ => []
  | Element _ _ children => children
  end.

(** The message [updateResults] announces for [n] results. *)
Definition found_message (state : State) (n : nat) : jsstring :=
  FOUND ++ String_of_Z (Z.of_nat n) ++ MODS_WORD
  ++ (if nonempty (s_query state) then BY_QUERY ++ s_query state ++ [0x22] else [])
  ++ (if negb (streq (s_status state) (str "all"))
      then STATUS_SUFFIX ++ s_status state ++ str ")" else [])
  ++ str ".".

(** ** A sample host

    Stand-ins for the host functions, enough for the worked examples:
    lower-casing of ASCII and Cyrillic letters, ISO calendar dates, numerals
    read exactly, percent-encoding, comparison by lower-cased code units, a
    JSON that knows one text, and the history of a page served over
    http. *)

Module Sample.

Definition lower_unit (u : Z) : Z :=
  if (0x41 <=? u) && (u <=? 0x5A) then u + 32
  else if (0x410 <=? u) && (u <=? 0x42F) then u + 32
  else if (0x400 <=? u) && (u <=? 0x40F) then u + 80
  else u.

Definition toLowerCase (s : jsstring) : jsstring := map lower_unit s.

(** Days from 1970-01-01 to a date of the proleptic Gregorian calendar. *)
Definition days_from_civil (y m d : Z) : Z :=
  let y' := if m <=? 2 then y - 1 else y in
  let era := y' / 400 in
  let yoe := y' - era * 400 in
  let doy := (153 * (if 2 <? m then m - 3 else m + 9) + 2) / 5 + d - 1 in
  let doe := yoe * 365 + yoe / 4 - yoe / 100 + doy in
  era * 146097 + doe - 719468.

(** The time value of a date written YYYY-MM-DD. *)
Definition Date_getTime (s : jsstring) : option Z :=
  match s with
  | [y1; y2; y3; y4; 0x2D; m1; m2; 0x2D; d1; d2] =>
      if forallb is_digit [y1; y2; y3; y4; m1; m2; d1; d2] then
        let y := parse_digits [y1; y2; y3; y4] 0 in
        let m := parse_digits [m1; m2] 0 in
        let d := parse_digits [d1; d2] 0 in
        if (1 <=? m) && (m <=? 12) && (1 <=? d) && (d <=? 31)
        then Some (days_from_civil y m d * 86400000)
        else None
      else None
  | _ => None
  end.

(** The number a literal stands for, taken exactly: enough where the
    numeral is a double. *)
Definition Number_of_string (s : jsstring) : number :=
  match StringNumericLiteral s with
  | None => NaN
  | Some Blank => of_Z 0
  | Some (Infinite negative) => if negative then NegInf else PosInf
  | Some (Real mv) => Fin mv
  end.

(** Bytes [encodeURIComponent] leaves as they are. *)
Definition uri_plain (b : Z) : bool :=
  ((0x30 <=? b) && (b <=? 0x39)) || ((0x41 <=? b) && (b <=? 0x5A))
  || ((0x61 <=? b) && (b <=? 0x7A))
  || existsb (Z.eqb b) [0x2D; 0x5F; 0x2E; 0x21; 0x7E; 0x2A; 0x27; 0x28; 0x29].

Definition encodeURIComponent (s : jsstring) : outcome jsstring :=
  if isWellFormed s then
    Return (concat (map (fun b => if uri_plain b then [b]
                                  else [0x25; hexdigit (b / 16); hexdigit (b mod 16)])
                      (utf8_encode s)))
  else Throw URIError.

Fixpoint compare_units (a b : jsstring) : Z :=
  match a, b with
  | [], [] => 0
  | [], _ :: _ => -1
  | _ :: _, [] => 1
  | x :: a', y :: b' =>
      if x <? y then -1 else if y <? x then 1 else compare_units a' b'
  end.

Definition localeCompare (a b : jsstring) : Z :=
  compare_units (toLowerCase a) (toLowerCase b).

(** The [id]s as a JSON array of strings. *)
Definition JSON_stringify (data : list Mod) : jsstring :=
  str "[" ++ join (str ",") (map (fun m => [0x22] ++ m_id m ++ [0x22]) data)
  ++ str "]".

(** A parser that knows the text of the catalog [known]. *)
Definition JSON_parse (known : list Mod) (txt : jsstring) : outcome (list Mod) :=
  if streq txt (JSON_stringify known) then Return known else Throw SyntaxError.

(** A storage area that takes values up to five million units. *)
Definition storage_accepts (ls : gmap jsstring jsstring) (k v : jsstring) : bool :=
  Z.of_nat (length v) <=? 5000000.

(** [s] up to its first [c], and from that [c] on. *)
Fixpoint cut_at (c : Z) (s : jsstring) : jsstring * jsstring :=
  match s with
  | [] => ([], [])
  | x :: r => if x =? c then ([], s) else let '(a, b) := cut_at c r in (x :: a, b)
  end.

(** The history of a page served over http whose host no path names: a URL
    that begins with two slashes is of another origin; any other is a path
    of the page's origin, cut at its first [?] and its first [#]. *)
Definition History_url (w : Browser) (url : jsstring)
  : option (jsstring * jsstring * jsstring) :=
  if startsWith url (str "//") then None
  else
    let '(before, fragment) := cut_at 0x23 url in
    let '(path, query) := cut_at 0x3F before in
    Some (path, query, fragment).

End Sample.

(** ** Worked data *)

Definition raw_record (id name description status release_date author : jsstring)
    (more : list (jsstring * value)) : value :=
  VObj ([(str "id", VStr id); (str "name", VStr name);
         (str "description", VStr description); (str "status", VStr status);
         (str "release_date", VStr release_date);
         (str "original_author", VStr author)] ++ more).

Definition sample_raw : value :=
  raw_record (str "a") (str "Mod A") (str "d") STATUS_COMPLETED
    (str "2024-01-01") (str "X") [(str "size_mb", VNum (Fin (25 # 2)))].

(** A record whose name is white space. *)
Definition blank_name_raw : value :=
  raw_record (str "c") (str "   ") (str "d3") STATUS_COMPLETED
    (str "2024-03-01") (str "Z") [].

(** A data file: two records of the same [id], a third one with an
    unparseable date, a string, a null, and a record whose name is blank. *)
Definition sample_tree : value :=
  VObj [(str "mods", VArr [
    sample_raw;
    raw_record (str "a") (str "Mod A2") (str "d") STATUS_COMPLETED
      (str "2024-02-01") (str "X") [];
    raw_record (str "b") (str " beta ") (str "d2") STATUS_IN_PROGRESS
      (str "soon") (str "Y") [(str "tags", VArr [VStr (str "t1"); VStr []]);
                              (str "size_mb", VStr (str "7"))];
    VStr (str "junk");
    VNull;
    blank_name_raw])].

(** One well-formed record whose tag list holds a number, as the YAML
    [tags: [2024]] gives. *)
Definition numeric_tag_tree : value :=
  VArr [raw_record (str "a") (str "Mod A") (str "d") STATUS_COMPLETED
          (str "2024-01-01") (str "X") [(str "tags", VArr [VNum (of_Z 2024)])]].

Definition sample_validate : value -> outcome (list Mod) :=
  validateAndNormalizeData Sample.toLowerCase Sample.Date_getTime
    Sample.Number_of_string Sample.encodeURIComponent.

Definition sample_catalog : list Mod :=
  Eval vm_compute in
    match sample_validate sample_tree with
    | Return l => l
    | Throw _ => []
    end.

Definition blank_mod : Mod := mkMod [] [] [] [] [] None [] [] [] [] [] [] [] None [].

(** The first record of the sample catalog. *)
Definition sample_mod : Mod := hd blank_mod sample_catalog.

Definition sample_stats : Stats := calculateStats Sample.toLowerCase sample_catalog.

(** The state after loading the sample catalog at the URL [?q=+mod], the
    query being " mod". *)
Definition spaced_query_state : State :=
  readStateFromURL (mkBrowser (str "/") (str "?q=+mod") [] [])
    (mkState sample_catalog [] [] [] sample_stats).

(** A state whose status and sort are empty and whose query is Cyrillic. *)
Definition cyrillic_state : State :=
  mkState sample_catalog [0x41F; 0x440; 0x438; 0x432; 0x435; 0x442] [] []
    sample_stats.

Definition sample_browser : Browser := mkBrowser (str "/") [] (str "#top") [str "/"].

(** A storage holding a payload and the expiry time 5. *)
Definition stale_storage : gmap jsstring jsstring :=
  <[CACHE_EXPIRY_KEY := String_of_Z 5]> (<[CACHE_KEY := str "[]"]> ∅).

(** A state sorted by name. *)
Definition by_name_state : State :=
  mkState sample_catalog [] (str "all") (str "name_asc") sample_stats.

(** A record whose size is the string " 12.5 ", one whose size is the
    empty string, as the YAML [size_mb: ""] gives, and one whose size is the
    string "12 MB". *)
Definition sunrise1_raw : value :=
  raw_record (str "s1") (str "Sunrise") (str "d2") STATUS_COMPLETED
    (str "2024-01-01") (str "B") [(str "size_mb", VStr (str " 12.5 "))].

Definition sunrise2_raw : value :=
  raw_record (str "s2") (str "sunrise") (str "d3") STATUS_COMPLETED
    (str "2024-01-01") (str "C") [(str "size_mb", VStr [])].

Definition dawn_raw : value :=
  raw_record (str "w") (str "Dawn") (str "d4") STATUS_COMPLETED
    (str "2023-06-01") (str "D") [(str "size_mb", VStr (str "12 MB"))].

(** A data file of five records: the first and the last without a date
    that parses, the second and the third of one date and of one name up to
    case. *)
Definition dated_tree : value :=
  VArr [
    raw_record (str "n") (str "Nightfall") (str "d1") STATUS_IN_PROGRESS
      (str "soon") (str "A") [];
    sunrise1_raw;
    sunrise2_raw;
    dawn_raw;
    raw_record (str "e") (str "Sunset") (str "d5") STATUS_IN_PROGRESS
      (str "later") (str "E") []].

Definition dated_catalog : list Mod :=
  Eval vm_compute in
    match sample_validate dated_tree with
    | Return l => l
    | Throw _ => []
    end.

(** The records of [dated_catalog], by their [id]. *)
Definition nightfall : Mod := nth 0 dated_catalog blank_mod.
Definition sunrise1 : Mod := nth 1 dated_catalog blank_mod.
Definition sunrise2 : Mod := nth 2 dated_catalog blank_mod.
Definition dawn : Mod := nth 3 dated_catalog blank_mod.
Definition sunset : Mod := nth 4 dated_catalog blank_mod.

(** The whole of [dated_catalog] under the sort key [sort], as the URL
    [?sort=...] gives it. *)
Definition dated_state (sort : jsstring) : State :=
  mkState dated_catalog [] (str "all") sort
    (calculateStats Sample.toLowerCase dated_catalog).

(** [dated_catalog] searched for "Sun" among the completed, by name
    downwards. *)
Definition sun_state : State :=
  mkState dated_catalog (str "Sun") STATUS_COMPLETED (str "name_desc")
    (calculateStats Sample.toLowerCase dated_catalog).

(** A query that is one high surrogate. *)
Definition lone_surrogate_state : State :=
  mkState sample_catalog [0xD83D] (str "all") (str "date_desc") sample_stats.

(** A page whose path begins with two slashes, as [http://host//mods/]
    has. *)
Definition double_slash_browser : Browser :=
  mkBrowser (str "//mods/") [] [] [str "//mods/"].

(** "😀😀 abcdef": two code points of two units each, then a space. *)
Definition astral_text : jsstring :=
  [0xD83D; 0xDE00; 0xD83D; 0xDE00] ++ str " abcdef".

(** 'Привет мир' *)
Definition privet_mir : jsstring :=
  [0x41F; 0x440; 0x438; 0x432; 0x435; 0x442; 0x20; 0x43C; 0x438; 0x440].

(** A record with its cover and its file on Google Drive, a blank direct
    link, padded tags and a lone mirror. *)
Definition drive_raw : value :=
  raw_record (str "d") (str " Drive Mod ") (str "On Drive") STATUS_IN_PROGRESS
    (str "2023-05-06") (str "W")
    [(str "image_id", VStr (str " img 1 ")); (str "file_id", VStr (str "f/1"));
     (str "drive_url", VStr (str "  "));
     (str "tags", VArr [VStr (str " vn "); VStr (str "short")]);
     (str "mirrors", VStr (str "https://m.example/x"))].

Definition drive_mod : Mod :=
  Eval vm_compute in
    match normalizeMod Sample.toLowerCase Sample.Date_getTime Sample.Number_of_string
            Sample.encodeURIComponent drive_raw with
    | Return (Some m) => m
    | _ => blank_mod
    end.

(** A record whose image identifier is a lone surrogate and whose tag list
    holds a number. *)
Definition surrogate_image_raw : value :=
  raw_record (str "x") (str "Broken") (str "d") STATUS_COMPLETED
    (str "2024-01-01") (str "X")
    [(str "image_id", VStr [0xD800]); (str "tags", VArr [VNum (of_Z 1)])].

(** Stand-ins for the host functions of the page. *)
Module SamplePage.

(** The day number of a time value. *)
Definition Intl_format (ms : Z) : outcome jsstring :=
  Return (str "day " ++ String_of_Z (ms / 86400000)).

Definition quoted (s : jsstring) : jsstring := [0x22] ++ s ++ [0x22].

(** The JSON text of an object of three strings, written without escapes. *)
Definition JSON_stringify_value (v : value) : jsstring :=
  match v with
  | VObj [(k1, VStr a); (k2, VStr b); (k3, VStr c)] =>
      str "{" ++ quoted k1 ++ str ":" ++ quoted a ++ str "," ++ quoted k2 ++ str ":"
      ++ quoted b ++ str "," ++ quoted k3 ++ str ":" ++ quoted c ++ str "}"
  | _ => str "null"
  end.

(** A parser that knows the text of the value [known]. *)
Definition JSON_parse_value (known : value) (txt : jsstring) : outcome value :=
  if streq txt (JSON_stringify_value known) then Return known else Throw SyntaxError.

(** A YAML loader that knows one file, the sample data. *)
Definition jsyaml_load (text : jsstring) : outcome value :=
  if streq text (str "mods: sample") then Return sample_tree else Throw SyntaxError.

(** The whole part of a number, in digits. *)
Definition Number_toString (n : number) : jsstring :=
  match n with
  | Fin x => String_of_Z (Qnum x / Z.pos (Qden x))
  | NaN => str "NaN"
  | PosInf => str "Infinity"
  | NegInf => str "-Infinity"
  end.

End SamplePage.

(** The controls with a padded query, a blank status and no sort box. *)
Definition sample_controls : Controls :=
  mkControls (Some (VStr (str "  Mod "))) (Some (VStr (str " "))) None.

(** A page with an empty container, the empty-state element shown and an
    empty status region. *)
Definition sample_page : Dom := mkDom (Some []) (Some false) (Some []).

(** A storage whose cache entry has an expiry that is no number. *)
Definition undated_storage : gmap jsstring jsstring :=
  <[CACHE_EXPIRY_KEY := str "soon"]>
    (<[CACHE_KEY := Sample.JSON_stringify sample_catalog]> ∅).

(** * Properties *)

(** ** Strings *)

Lemma bind_Return_inv {A B} (m : outcome A) (f : A -> outcome B) (b : B) :
  m ≫= f = Return b -> exists a, m = Return a /\ f a = Return b.
Proof. destruct m as [a|e]; simpl; [eauto | discriminate]. Qed.

Lemma streq_spec (a b : jsstring) : streq a b = true <-> a = b.
Proof.
  revert b. induction a as [|x a IH]; intros [|y b]; simpl; try easy.
  rewrite andb_true_iff, Z.eqb_eq, IH. split.
  - intros [-> ->]. reflexivity.
  - intros H. injection H as -> ->. split; reflexivity.
Qed.

Lemma streq_refl (a : jsstring) : streq a a = true.
Proof. apply streq_spec. reflexivity. Qed.

Lemma streq_false (a b : jsstring) : streq a b = false <-> a <> b.
Proof.
  rewrite <- streq_spec. destruct (streq a b); split; congruence.
Qed.

Lemma nonempty_false (s : jsstring) : nonempty s = false <-> s = [].
Proof. destruct s; simpl; split; congruence. Qed.

Lemma trimStart_head (s : jsstring) : head_kept (trimStart s).
Proof.
  induction s as [|u r IH]; simpl; [exact I|].
  destruct (is_trim_space u) eqn:E; [exact IH | exact E].
Qed.

Lemma trimStart_kept (s : jsstring) : head_kept s -> trimStart s = s.
Proof. destruct s as [|u r]; simpl; [reflexivity|]. intros ->. reflexivity. Qed.

Lemma trimStart_suffix (s : jsstring) : exists p, s = p ++ trimStart s.
Proof.
  induction s as [|u r [p Hp]]; simpl.
  - exists []. reflexivity.
  - destruct (is_trim_space u).
    + exists (u :: p). simpl. rewrite <- Hp. reflexivity.
    + exists []. reflexivity.
Qed.

Lemma trimEnd_prefix (s : jsstring) : exists q, s = trimEnd s ++ q.
Proof.
  unfold trimEnd. destruct (trimStart_suffix (rev s)) as [p Hp].
  exists (rev p). rewrite <- rev_app_distr, <- Hp, rev_involutive. reflexivity.
Qed.

Lemma head_kept_prefix (a b : jsstring) : head_kept (a ++ b) -> head_kept a.
Proof. destruct a; simpl; auto. Qed.

Lemma trim_head (s : jsstring) : head_kept (trim s).
Proof.
  unfold trim. destruct (trimEnd_prefix (trimStart s)) as [q Hq].
  apply head_kept_prefix with q. rewrite <- Hq. apply trimStart_head.
Qed.

Lemma trim_last (s : jsstring) : head_kept (rev (trim s)).
Proof.
  unfold trim, trimEnd. rewrite rev_involutive. apply trimStart_head.
Qed.

(** Trimming a trimmed string changes nothing. *)
Lemma trim_idemp (s : jsstring) : trim (trim s) = trim s.
Proof.
  unfold trim at 1. rewrite (trimStart_kept _ (trim_head s)).
  unfold trimEnd. rewrite (trimStart_kept _ (trim_last s)).
  apply rev_involutive.
Qed.

Lemma trimStart_blank (s : jsstring) :
  forallb is_trim_space s = true -> trimStart s = [].
Proof.
  induction s as [|u r IH]; simpl; [reflexivity|].
  rewrite andb_true_iff. intros [-> H]. auto.
Qed.

(** A string of white space only trims to the empty string. *)
Lemma trim_blank (s : jsstring) : forallb is_trim_space s = true -> trim s = [].
Proof. intros H. unfold trim. rewrite (trimStart_blank _ H). reflexivity. Qed.

Lemma startsWith_spec (s p : jsstring) :
  startsWith s p = true <-> exists r, s = p ++ r.
Proof.
  revert s. induction p as [|a p IH]; intros s; simpl.
  - split; [intros _; exists s; reflexivity | reflexivity].
  - destruct s as [|b s].
    + split; [discriminate | intros [r Hr]; discriminate].
    + rewrite andb_true_iff, Z.eqb_eq, IH. split.
      * intros [-> [r ->]]. exists r. reflexivity.
      * intros [r Hr]. injection Hr as -> ->. split; [reflexivity | exists r; reflexivity].
Qed.

(** [includes] is the substring test. *)
Lemma includes_spec (s q : jsstring) :
  includes s q = true <-> exists l r, s = l ++ q ++ r.
Proof.
  induction s as [|b s IH].
  - simpl. rewrite orb_false_r, startsWith_spec. split.
    + intros [r Hr]. exists [], r. exact Hr.
    + intros [l [r Hr]]. destruct l; [exists r; exact Hr | discriminate].
  - cbn [includes]. rewrite orb_true_iff, startsWith_spec, IH. split.
    + intros [[r Hr] | [l [r Hr]]].
      * exists [], r. exact Hr.
      * exists (b :: l), r. rewrite Hr. reflexivity.
    + intros [[|c l] [r Hr]].
      * left. exists r. exact Hr.
      * right. injection Hr as -> ->. exists l, r. reflexivity.
Qed.

(** ** Normalisation *)

Section NormalizeProperties.

Context (toLowerCase : jsstring -> jsstring) (Date_getTime : jsstring -> option Z)
  (Number_of_string : jsstring -> number)
  (encodeURIComponent : jsstring -> outcome jsstring).

Local Abbreviation normalize :=
  (normalizeMod toLowerCase Date_getTime Number_of_string encodeURIComponent).
Local Abbreviation validate :=
  (validateAndNormalizeData toLowerCase Date_getTime Number_of_string
     encodeURIComponent).
Local Abbreviation loop :=
  (validate_loop toLowerCase Date_getTime Number_of_string encodeURIComponent).

Lemma safeToString_string (v : value) (fallback : jsstring) :
  safeToString v (VStr fallback) = Return (safeToStr v fallback).
Proof. destruct v; reflexivity. Qed.

Lemma array_map_from_strings (i : Z) (l : list jsstring) :
  array_map_from safeToString i (map VStr l) = Return (map trim l).
Proof.
  revert i. induction l as [|x l IH]; intros i; simpl; [reflexivity|].
  rewrite IH. reflexivity.
Qed.

(** On a normalised record the haystack is always built. *)
Lemma buildSearchHaystack_returns (m : Mod) :
  buildSearchHaystack toLowerCase m =
  Return (toLowerCase (join (str " | ")
    (List.filter nonempty
       [trim (m_name m); trim (m_description m); trim (m_original_author m);
        join (str " ") (map trim (m_tags m))]))).
Proof.
  unfold buildSearchHaystack, toArray, array_map. simpl truthy. cbv iota beta.
  simpl negb. cbv iota. rewrite array_map_from_strings. reflexivity.
Qed.

(** What a returned record is made of. *)
Lemma normalizeMod_record (raw : value) (r : Mod) :
  normalize raw = Return (Some r) ->
  m_id r = safeToStr (get raw (str "id")) [] /\
  m_name r = safeToStr (get raw (str "name")) [] /\
  m_description r = safeToStr (get raw (str "description")) [] /\
  m_status r = safeToStr (get raw (str "status")) [] /\
  m_release_date r = safeToStr (get raw (str "release_date")) [] /\
  m_original_author r = safeToStr (get raw (str "original_author")) [] /\
  m_releaseDateMs r = parseDateISO Date_getTime (m_release_date r) /\
  m_size_mb r = coerce_size_mb Number_of_string (get raw (str "size_mb")) /\
  buildSearchHaystack toLowerCase r = Return (m_haystack r).
Proof.
  unfold normalizeMod. destruct (is_nullish raw); [discriminate|].
  destruct (negb _ || _ || _ || _ || _ || _); [discriminate|].
  intros H.
  repeat (apply bind_Return_inv in H; destruct H as (? & ? & H)).
  match goal with
  | Hh : buildSearchHaystack _ _ = Return _ |- _ =>
      rewrite buildSearchHaystack_returns in Hh; injection Hh as <-
  end.
  injection H as <-.
  cbn [m_id m_name m_description m_status m_release_date m_original_author
       m_releaseDateMs m_size_mb m_haystack set_haystack m_tags].
  rewrite !buildSearchHaystack_returns.
  repeat split.
Qed.

Lemma coerce_size_mb_cases (v : value) :
  coerce_size_mb Number_of_string v =
  match v with
  | VNum n => if isFinite n then Some n else None
  | VStr s =>
      if isFinite (Number_of_string s) then Some (Number_of_string s) else None
  | _ => None
  end.
Proof.
  destruct v as [| | |n|s| |]; try reflexivity.
  simpl. destruct (Number_of_string s); reflexivity.
Qed.

(** C2.  A raw record is rejected, by the value null and not by an exception,
    exactly when one of the six mandatory fields is empty once coerced to a
    string and trimmed; so a record with a mandatory field made of white
    space only is rejected. *)
Theorem normalizeMod_rejects_iff (props : list (jsstring * value)) :
  (normalize (VObj props) = Return None <->
   Exists (fun k => safeToStr (get (VObj props) k) [] = []) mandatory_fields)
  /\ forall k s, In k mandatory_fields -> get (VObj props) k = VStr s ->
       forallb is_trim_space s = true -> normalize (VObj props) = Return None.
Proof.
  assert (Hiff : normalize (VObj props) = Return None <->
    Exists (fun k => safeToStr (get (VObj props) k) [] = []) mandatory_fields).
  { unfold normalizeMod, mandatory_fields. cbn [is_nullish].
    rewrite !Exists_cons, Exists_nil.
    destruct (negb _ || _ || _ || _ || _ || _) eqn:E.
    - split; [intros _|reflexivity].
      rewrite !orb_true_iff, !negb_true_iff, !nonempty_false in E. tauto.
    - rewrite !orb_false_iff, !negb_false_iff in E.
      split.
      + intros H.
        repeat (apply bind_Return_inv in H; destruct H as (? & ? & H)).
        discriminate.
      + intros H. exfalso.
        destruct E as (((((E1 & E2) & E3) & E4) & E5) & E6).
        destruct H as [H|[H|[H|[H|[H|[H|[]]]]]]]; rewrite H in *; discriminate. }
  split; [exact Hiff|].
  intros k s Hk Hget Hblank. apply Hiff.
  apply Exists_exists. exists k. split; [apply list_elem_of_In; exact Hk|].
  unfold safeToStr. rewrite Hget. apply trim_blank, Hblank.
Qed.

Lemma bind_with_size {A} (x : outcome A) (k : A -> outcome (option Mod))
    (k' : A -> outcome (option Mod)) (size : option number) :
  (forall a, k' a = match k a with
                    | Return (Some r) => Return (Some (with_size_mb r size))
                    | other => other
                    end) ->
  x ≫= k' = match x ≫= k with
            | Return (Some r) => Return (Some (with_size_mb r size))
            | other => other
            end.
Proof. intros H. destruct x as [a|e]; simpl; [apply H | reflexivity]. Qed.

(** Whatever stands in [size_mb], normalisation goes the same way: the
    field decides nothing but the [size_mb] of the record. *)
Lemma normalizeMod_size_mb_only (props : list (jsstring * value)) (v : value) :
  normalize (VObj ((str "size_mb", v) :: props)) =
  match normalize (VObj props) with
  | Return (Some r) =>
      Return (Some (with_size_mb r (coerce_size_mb Number_of_string v)))
  | other => other
  end.
Proof.
  unfold normalizeMod. cbn [is_nullish get lookup_prop].
  repeat match goal with
         | |- context [streq (str "size_mb") ?k] =>
             let b := eval vm_compute in (streq (str "size_mb") k) in
             change (streq (str "size_mb") k) with b
         end.
  cbv iota.
  destruct (negb _ || _ || _ || _ || _ || _); [reflexivity|].
  repeat (apply bind_with_size; intros ?).
  reflexivity.
Qed.

(** C7, as the code has it.  The [size_mb] of a normalised record is the
    input itself when that is a finite number; for a string that holds a
    numeral, the number it reads as when that is finite; for a string of
    white space only, the empty string among them, zero; and null for every
    other input: NaN, an infinity, a boolean, an object, an array, null, an
    absent field, a string that holds text that is no numeric literal, the
    literal [Infinity], a numeral that reads as no finite number.  The
    coercion raises nothing: whatever stands in [size_mb], the record is
    normalised, rejected or in error as without it.  ([Number] is taken to
    read text that is no literal as NaN, white space as zero and [Infinity]
    as an infinity, as ECMA-262 has it.) *)
Theorem size_mb_coercion (raw : value) (r : Mod) :
  (forall s, StringNumericLiteral s = None -> Number_of_string s = NaN) ->
  (forall s, StringNumericLiteral s = Some Blank -> Number_of_string s = of_Z 0) ->
  (forall s negative,
     StringNumericLiteral s = Some (Infinite negative) ->
     Number_of_string s = if negative then NegInf else PosInf) ->
  normalize raw = Return (Some r) ->
  m_size_mb r =
  match get raw (str "size_mb") with
  | VNum (Fin x) => Some (Fin x)
  | VNum _ => None
  | VStr s =>
      match StringNumericLiteral s with
      | None => None
      | Some Blank => Some (of_Z 0)
      | Some (Infinite _) => None
      | Some (Real _) =>
          match Number_of_string s with
          | Fin x => Some (Fin x)
          | _ => None
          end
      end
  | _ => None
  end
  /\ forall props v,
       normalize (VObj ((str "size_mb", v) :: props)) =
       match normalize (VObj props) with
       | Return (Some r') =>
           Return (Some (with_size_mb r' (coerce_size_mb Number_of_string v)))
       | other => other
       end.
Proof.
  intros Hnan Hblank Hinf H. split; [|apply normalizeMod_size_mb_only].
  apply normalizeMod_record in H.
  destruct H as (_ & _ & _ & _ & _ & _ & _ & -> & _).
  rewrite coerce_size_mb_cases.
  destruct (get raw (str "size_mb")) as [| | |n|s| |]; try reflexivity.
  - destruct n; reflexivity.
  - destruct (StringNumericLiteral s) as [[|negative|mv]|] eqn:E.
    + rewrite (Hblank s E). reflexivity.
    + rewrite (Hinf s negative E). destruct negative; reflexivity.
    + destruct (Number_of_string s); reflexivity.
    + rewrite (Hnan s E). reflexivity.
Qed.

(** *** Validation *)

Lemma trim_safeToStr (v : value) (f : jsstring) :
  trim (safeToStr v f) = safeToStr v f.
Proof. apply trim_idemp. Qed.

(** The status of a catalog record is already trimmed. *)
Lemma catalog_item_status (m : Mod) :
  catalog_item toLowerCase Date_getTime Number_of_string encodeURIComponent m ->
  safeToStr (VStr (m_status m)) [] = m_status m.
Proof.
  intros [raw H]. apply normalizeMod_record in H.
  destruct H as (_ & _ & _ & -> & _). apply trim_idemp.
Qed.

Lemma validate_loop_items (items : list value) :
  forall out seen res,
    loop items out seen = Return res ->
    Forall (catalog_item toLowerCase Date_getTime Number_of_string
              encodeURIComponent) out ->
    Forall (catalog_item toLowerCase Date_getTime Number_of_string
              encodeURIComponent) res.
Proof.
  induction items as [|item rest IH]; intros out seen res; simpl.
  - intros H. injection H as <-. auto.
  - destruct (negb (truthy item) || _); [apply IH|].
    destruct (normalize item) as [[nm|]|e] eqn:E; simpl; [| apply IH | discriminate].
    destruct (bool_decide _); [apply IH|].
    intros H Hout. apply (IH _ _ _ H).
    apply Forall_app. split; [exact Hout|].
    constructor; [|constructor]. exists item. exact E.
Qed.

(** Every record of a validated catalog is a normalised record. *)
Lemma validate_items (data : value) (catalog : list Mod) :
  validate data = Return catalog ->
  Forall (catalog_item toLowerCase Date_getTime Number_of_string
            encodeURIComponent) catalog.
Proof.
  unfold validateAndNormalizeData. intros H.
  assert (Hnil : Forall (catalog_item toLowerCase Date_getTime Number_of_string
            encodeURIComponent) []) by constructor.
  destruct data; try (destruct (truthy _ && _);
    [destruct (get _ _); try (injection H as <-; exact Hnil);
     exact (validate_loop_items _ _ _ _ H Hnil)
    | injection H as <-; exact Hnil]).
  exact (validate_loop_items _ _ _ _ H Hnil).
Qed.

Lemma validate_loop_refines (items : list value) :
  forall out seen earlier recs,
    (forall x, x ∈ seen <-> x ∈ map m_id earlier) ->
    normalized_records toLowerCase Date_getTime Number_of_string
      encodeURIComponent items = Return recs ->
    loop items out seen = Return (out ++ first_of_each_id earlier recs).
Proof.
  induction items as [|item rest IH]; intros out seen earlier recs Hseen; simpl.
  - intros H. injection H as <-. simpl. rewrite app_nil_r. reflexivity.
  - destruct (truthy item); simpl; [|apply IH; exact Hseen].
    destruct (bool_decide (typeof item = TObject)); simpl; [|apply IH; exact Hseen].
    destruct (normalize item) as [[nm|]|e]; simpl; [| |discriminate].
    + destruct (normalized_records _ _ _ _ rest) as [recs'|] eqn:E; simpl;
        [|discriminate].
      intros H. injection H as <-. simpl.
      destruct (bool_decide (m_id nm ∈ seen)) eqn:Es.
      * apply bool_decide_eq_true in Es.
        rewrite (bool_decide_eq_true_2 _ (proj1 (Hseen _) Es)). simpl.
        apply IH; [|reflexivity].
        intros x. rewrite map_app, elem_of_app, Hseen. simpl.
        rewrite list_elem_of_singleton. split; [tauto|].
        intros [H| ->]; [exact H | apply Hseen, Es].
      * apply bool_decide_eq_false in Es.
        rewrite bool_decide_eq_false_2 by (rewrite <- Hseen; exact Es). simpl.
        rewrite (IH (out ++ [nm]) _ (earlier ++ [nm]) recs').
        -- rewrite <- app_assoc. reflexivity.
        -- intros x.
           rewrite map_app, elem_of_app, elem_of_union, elem_of_singleton, Hseen.
           simpl. rewrite list_elem_of_singleton. tauto.
        -- reflexivity.
    + destruct (normalized_records _ _ _ _ rest) as [recs'|] eqn:E; simpl;
        [|discriminate].
      intros H. injection H as <-. apply IH; [exact Hseen | reflexivity].
Qed.

Lemma first_of_each_id_NoDup (l : list Mod) :
  forall earlier,
    NoDup (map m_id (first_of_each_id earlier l)) /\
    forall m, m ∈ first_of_each_id earlier l -> m_id m ∉ map m_id earlier.
Proof.
  induction l as [|m rest IH]; intros earlier; simpl.
  - split; [constructor | intros m H; inversion H].
  - destruct (IH (earlier ++ [m])) as [Hnd Hnot].
    assert (Hrest : forall x, x ∈ first_of_each_id (earlier ++ [m]) rest ->
              (m_id x ∉ map m_id earlier) /\ m_id x <> m_id m).
    { intros x Hx. specialize (Hnot x Hx).
      rewrite map_app, elem_of_app in Hnot. simpl in Hnot.
      rewrite list_elem_of_singleton in Hnot. tauto. }
    destruct (bool_decide (m_id m ∈ map m_id earlier)) eqn:E; simpl.
    + split; [exact Hnd|]. intros x Hx. apply (Hrest x Hx).
    + apply bool_decide_eq_false in E. split.
      * constructor; [|exact Hnd].
        rewrite list_elem_of_fmap. intros [x [Hid Hx]].
        destruct (Hrest x Hx) as [_ Hne]. congruence.
      * intros x Hx. apply elem_of_cons in Hx. destruct Hx as [->|Hx];
          [exact E | apply (Hrest x Hx)].
Qed.

(** When no candidate makes [normalizeMod] raise, validation returns the
    first record of each [id] among the normalised records of the
    candidates, in input order, and no [id] twice. *)
Lemma validate_refines (data : value) (recs : list Mod) :
  normalized_records toLowerCase Date_getTime Number_of_string encodeURIComponent
    (candidates data) = Return recs ->
  validate data = Return (first_of_each_id [] recs) /\
  NoDup (map m_id (first_of_each_id [] recs)).
Proof.
  intros H. split; [|apply first_of_each_id_NoDup].
  assert (Hl : forall items, normalized_records toLowerCase Date_getTime
            Number_of_string encodeURIComponent items = Return recs ->
            loop items [] ∅ = Return (first_of_each_id [] recs)).
  { intros items Hi. apply (validate_loop_refines items [] ∅ [] recs); [|exact Hi].
    intros x. simpl. rewrite elem_of_empty, elem_of_nil. tauto. }
  unfold validateAndNormalizeData, candidates in *.
  destruct data;
    try (simpl in H; injection H as <-; simpl; rewrite ?andb_false_r; reflexivity).
  - apply Hl, H.
  - destruct (get (VObj props) (str "mods"));
      try (simpl in H; injection H as <-; reflexivity).
    apply Hl, H.
Qed.

(** *** Statistics *)

Lemma stats_loop_counts (mods : list Mod) :
  forall t c p,
    stats_loop toLowerCase mods (mkStats t c p) =
    mkStats t
      (c + length (List.filter
                     (fun m => isCompletedStatus toLowerCase (VStr (m_status m))) mods))
      (p + length (List.filter
                     (fun m => negb (isCompletedStatus toLowerCase (VStr (m_status m))))
                     mods)).
Proof.
  induction mods as [|m rest IH]; intros t c p; simpl.
  - f_equal; lia.
  - destruct (isCompletedStatus toLowerCase (VStr (m_status m))); simpl;
      rewrite IH; simpl; f_equal; lia.
Qed.

Lemma filter_split_length {A} (f : A -> bool) (l : list A) :
  (length (List.filter f l) + length (List.filter (fun x => negb (f x)) l)
   = length l)%nat.
Proof.
  induction l as [|x l IH]; simpl; [reflexivity|].
  destruct (f x); simpl; lia.
Qed.

Lemma filter_ext_Forall {A} (f g : A -> bool) (l : list A) :
  Forall (fun x => f x = g x) l -> List.filter f l = List.filter g l.
Proof.
  induction 1 as [|x l Hx _ IH]; simpl; [reflexivity|].
  rewrite Hx, IH. reflexivity.
Qed.

(** C9.  On a validated catalog [total] is the number of items, [completed]
    the number of items whose status, lower-cased, is the lower-cased
    'Завершен', and [inProgress] the number of all the others, whatever
    their status: the two add up to [total]. *)
Theorem calculateStats_counts (data : value) (catalog : list Mod) :
  validate data = Return catalog ->
  let same_status (m : Mod) :=
    streq (toLowerCase (m_status m)) (toLowerCase STATUS_COMPLETED) in
  let stats := calculateStats toLowerCase catalog in
  total stats = length catalog /\
  completed stats = length (List.filter same_status catalog) /\
  inProgress stats = length (List.filter (fun m => negb (same_status m)) catalog) /\
  (total stats = completed stats + inProgress stats)%nat.
Proof.
  intros Hv same_status stats. subst stats. unfold calculateStats.
  rewrite stats_loop_counts. cbn [total completed inProgress].
  assert (Hst : Forall (fun m => isCompletedStatus toLowerCase (VStr (m_status m))
                                 = same_status m) catalog).
  { eapply Forall_impl; [apply (validate_items _ _ Hv)|].
    intros m Hm. unfold isCompletedStatus, same_status.
    rewrite (catalog_item_status m Hm). reflexivity. }
  rewrite (filter_ext_Forall _ _ _ Hst).
  rewrite (filter_ext_Forall
             (fun m => negb (isCompletedStatus toLowerCase (VStr (m_status m))))
             (fun m => negb (same_status m)) catalog)
    by (eapply Forall_impl; [exact Hst|]; intros m ->; reflexivity).
  pose proof (filter_split_length same_status catalog).
  repeat split; lia.
Qed.

End NormalizeProperties.

(** ** Sorting *)

Section SortProperties.

Context {A : Type} (cmp : A -> A -> number).

Lemma sort_insert_Permutation (x : A) (l : list A) :
  Permutation (x :: l) (sort_insert cmp x l).
Proof.
  induction l as [|y r IH]; simpl; [reflexivity|].
  destruct (positive_result (cmp x y)); [|reflexivity].
  rewrite perm_swap. constructor. exact IH.
Qed.

(** Sorting rearranges: nothing is lost or added. *)
Lemma array_sort_Permutation (l : list A) : Permutation l (array_sort cmp l).
Proof.
  induction l as [|x r IH]; simpl; [reflexivity|].
  rewrite <- sort_insert_Permutation. constructor. exact IH.
Qed.

Lemma sort_insert_filter_out (p : A -> bool) (x : A) (l : list A) :
  p x = false -> List.filter p (sort_insert cmp x l) = List.filter p l.
Proof.
  intros Hx. induction l as [|y r IH]; simpl; [rewrite Hx; reflexivity|].
  destruct (positive_result (cmp x y)); simpl.
  - rewrite IH. reflexivity.
  - rewrite Hx. reflexivity.
Qed.

Lemma sort_insert_filter_in (p : A -> bool) (x : A) (l : list A) :
  p x = true ->
  (forall y, p y = true -> positive_result (cmp x y) = false) ->
  List.filter p (sort_insert cmp x l) = x :: List.filter p l.
Proof.
  intros Hx Htie. induction l as [|y r IH]; simpl; [rewrite Hx; reflexivity|].
  destruct (positive_result (cmp x y)) eqn:E; simpl.
  - destruct (p y) eqn:Ey; [rewrite (Htie y Ey) in E; discriminate|]. exact IH.
  - rewrite Hx. reflexivity.
Qed.

(** Stability: the elements of one class, of which none goes after
    another, come out in the order they went in. *)
Lemma array_sort_stable (p : A -> bool) (l : list A) :
  (forall x y, p x = true -> p y = true -> positive_result (cmp x y) = false) ->
  List.filter p (array_sort cmp l) = List.filter p l.
Proof.
  intros Htie. induction l as [|x r IH]; simpl; [reflexivity|].
  destruct (p x) eqn:Ex.
  - rewrite sort_insert_filter_in; [rewrite IH; reflexivity | exact Ex |].
    intros y. apply Htie, Ex.
  - rewrite sort_insert_filter_out; [exact IH | exact Ex].
Qed.

Hypothesis not_after_trans :
  forall x y z, not_after cmp x y -> not_after cmp y z -> not_after cmp x z.

(** Stability on the comparator's own classes. *)
Lemma array_sort_stable_ties (a : A) (l : list A) :
  List.filter (sort_tie cmp a) (array_sort cmp l) = List.filter (sort_tie cmp a) l.
Proof.
  apply array_sort_stable. intros x y Hx Hy.
  unfold sort_tie in Hx, Hy.
  rewrite andb_true_iff, !negb_true_iff in Hx, Hy.
  exact (not_after_trans x a y (proj2 Hx) (proj1 Hy)).
Qed.

Hypothesis after_asym :
  forall x y, positive_result (cmp x y) = true -> not_after cmp y x.

Lemma sort_insert_sorted (x : A) (l : list A) :
  StronglySorted (not_after cmp) l -> StronglySorted (not_after cmp) (sort_insert cmp x l).
Proof.
  induction 1 as [|y r Hr IH Hy]; simpl.
  - constructor; constructor.
  - destruct (positive_result (cmp x y)) eqn:E.
    + constructor; [exact IH|].
      rewrite <- (sort_insert_Permutation x r).
      constructor; [apply after_asym, E | exact Hy].
    + constructor; [constructor; assumption|].
      constructor; [exact E|].
      eapply Forall_impl; [exact Hy|].
      intros z Hz. exact (not_after_trans x y z E Hz).
Qed.

(** With a consistent comparator the result is sorted. *)
Lemma array_sort_sorted (l : list A) : StronglySorted (not_after cmp) (array_sort cmp l).
Proof.
  induction l as [|x r IH]; simpl; [constructor|].
  apply sort_insert_sorted, IH.
Qed.

End SortProperties.

(** *** Sorting with a comparator that may raise *)

Lemma insert_calling_returning {A} (cmp : A -> A -> number) (x : A) (l : list A) :
  insert_calling (fun a b => Return (cmp a b)) x l = Return (sort_insert cmp x l).
Proof.
  induction l as [|y r IH]; simpl; [reflexivity|].
  destruct (positive_result (cmp x y)); [|reflexivity].
  rewrite IH. reflexivity.
Qed.

Lemma sort_calling_returning {A} (cmp : A -> A -> number) (l : list A) :
  sort_calling (fun a b => Return (cmp a b)) l = Return (array_sort cmp l).
Proof.
  induction l as [|x r IH]; simpl; [reflexivity|].
  rewrite IH. apply insert_calling_returning.
Qed.

(** With a comparator that returns on every pair the sort returns. *)
Lemma Array_sort_returning {A} (cmp : A -> A -> number) (l : list A) :
  Array_sort (returning cmp) l = Return (array_sort cmp l).
Proof. apply sort_calling_returning. Qed.

(** A comparator whose result is never a number above zero moves
    nothing. *)
Lemma sort_calling_constant {A} (l : list A) :
  sort_calling (fun _ _ => Return NaN) l = Return l.
Proof.
  induction l as [|x r IH]; simpl; [reflexivity|].
  rewrite IH. destruct r; reflexivity.
Qed.

(** A comparator that raises ends the sort at its first call, which comes
    as soon as there are two elements. *)
Lemma sort_calling_raising {A} (e : error) (l : list A) :
  sort_calling (fun _ _ => Throw e) l =
  if (length l <? 2)%nat then Return l else Throw e.
Proof.
  induction l as [|x r IH]; simpl sort_calling; [reflexivity|].
  rewrite IH. destruct r as [|y [|z r]]; reflexivity.
Qed.

Lemma insert_calling_Permutation {A} (call : A -> A -> outcome number) (x : A)
    (l out : list A) :
  insert_calling call x l = Return out -> Permutation (x :: l) out.
Proof.
  revert out. induction l as [|y r IH]; intros out; simpl.
  - intros H. injection H as <-. reflexivity.
  - destruct (call x y) as [v|e]; simpl; [|discriminate].
    destruct (positive_result v).
    + destruct (insert_calling call x r) as [r'|e]; simpl; [|discriminate].
      intros H. injection H as <-.
      rewrite perm_swap. constructor. apply IH. reflexivity.
    + intros H. injection H as <-. reflexivity.
Qed.

(** Whatever the comparator, a sort that returns has rearranged: nothing is
    lost or added. *)
Lemma Array_sort_Permutation {A} (f : comparefn A) (l out : list A) :
  Array_sort f l = Return out -> Permutation l out.
Proof.
  destruct f as [call|]; [|discriminate]. simpl.
  revert out. induction l as [|x r IH]; intros out; simpl.
  - intros H. injection H as <-. reflexivity.
  - destruct (sort_calling call r) as [sorted|e]; simpl; [|discriminate].
    intros H. apply insert_calling_Permutation in H.
    rewrite <- H. constructor. apply IH. reflexivity.
Qed.

(** ** Filter and sort *)

Lemma positive_nsub (x y : Z) :
  positive_result (nsub (of_Z x) (of_Z y)) = (y <? x).
Proof.
  unfold nsub, of_Z, positive_result. simpl.
  destruct (Z.ltb_spec y x), (Z.ltb_spec 0 (x * 1 + - y * 1)); lia || reflexivity.
Qed.

Lemma StronglySorted_lookup {A} (R : A -> A -> Prop) (l : list A) :
  StronglySorted R l ->
  forall i j a b, l !! i = Some a -> l !! j = Some b -> (i < j)%nat -> R a b.
Proof.
  induction 1 as [|x r Hr IH Hx]; intros i j a b Hi Hj Hlt.
  - rewrite lookup_nil in Hi. discriminate.
  - destruct j as [|j]; [lia|]. simpl in Hj.
    destruct i as [|i]; simpl in Hi.
    + injection Hi as <-. rewrite Forall_forall in Hx.
      apply Hx. eapply list_elem_of_lookup_2, Hj.
    + apply (IH i j); [assumption..|lia].
Qed.

Section ViewProperties.

Context (toLowerCase : jsstring -> jsstring) (Date_getTime : jsstring -> option Z)
  (Number_of_string : jsstring -> number)
  (encodeURIComponent : jsstring -> outcome jsstring)
  (localeCompare : jsstring -> jsstring -> Z).

Local Abbreviation view := (applyFiltersAndSort toLowerCase localeCompare).
Local Abbreviation item :=
  (catalog_item toLowerCase Date_getTime Number_of_string encodeURIComponent).
Local Abbreviation specified := (specified_sorter localeCompare).

Lemma view_unfold (state : State) :
  view state =
  Array_sort (sorter_of localeCompare (s_sort state)) (filtered_mods toLowerCase state).
Proof. reflexivity. Qed.

Lemma In_existsb_streq (k : jsstring) (l : list jsstring) :
  In k l <-> existsb (streq k) l = true.
Proof.
  rewrite existsb_exists. split.
  - intros H. exists k. split; [exact H | apply streq_refl].
  - intros (x & Hx & E). apply streq_spec in E. subst x. exact Hx.
Qed.

(** A key that names no member of [Object.prototype] finds none. *)
Lemma Object_prototype_None (key : jsstring) :
  ~ In key object_prototype_keys -> Object_prototype key = None.
Proof.
  intros H.
  assert (Hk : forall k, existsb (streq k) object_prototype_keys = true ->
                         streq key k = false).
  { intros k Hin. apply streq_false. intros ->.
    apply H, In_existsb_streq, Hin. }
  unfold Object_prototype. cbn [existsb].
  rewrite !Hk by reflexivity. reflexivity.
Qed.

(** The names of the four sorters are none of [Object.prototype]'s. *)
Lemma own_sorters_not_inherited (key : jsstring) :
  In key [str "date_desc"; str "date_asc"; str "name_asc"; str "name_desc"] ->
  ~ In key object_prototype_keys.
Proof.
  intros Hown Hin. apply In_existsb_streq in Hin.
  destruct Hown as [<- | [<- | [<- | [<- | []]]]]; discriminate Hin.
Qed.

(** For such a key the comparator picked is the one the specification
    names: one of the four, or the default. *)
Lemma sorter_of_specified (sort : jsstring) :
  ~ In sort object_prototype_keys ->
  sorter_of localeCompare sort = returning (specified sort).
Proof.
  intros H. unfold sorter_of, sorters, specified_sorter.
  destruct (streq sort (str "date_desc")) eqn:E1;
    [apply streq_spec in E1; subst sort; reflexivity|].
  destruct (streq sort (str "date_asc")) eqn:E2; [reflexivity|].
  destruct (streq sort (str "name_asc")) eqn:E3; [reflexivity|].
  destruct (streq sort (str "name_desc")) eqn:E4; [reflexivity|].
  rewrite (Object_prototype_None sort H). reflexivity.
Qed.

(** With such a key the view returns: the records the filters keep, sorted
    by that comparator. *)
Lemma view_returns (state : State) :
  ~ In (s_sort state) object_prototype_keys ->
  view state =
  Return (array_sort (specified (s_sort state)) (filtered_mods toLowerCase state)).
Proof.
  intros H. rewrite view_unfold, (sorter_of_specified _ H).
  apply Array_sort_returning.
Qed.

(** With a key of [Object.prototype] it does not sort: under [toString] and
    [constructor] the records stay as the filters leave them, under
    [__proto__] it raises, and under each of the nine others it raises as
    soon as two records are to be compared. *)
Lemma view_inherited (state : State) :
  In (s_sort state) object_prototype_keys ->
  view state =
  if streq (s_sort state) (str "toString") || streq (s_sort state) (str "constructor")
  then Return (filtered_mods toLowerCase state)
  else if streq (s_sort state) (str "__proto__") then Throw TypeError
  else if (length (filtered_mods toLowerCase state) <? 2)%nat
       then Return (filtered_mods toLowerCase state)
       else Throw TypeError.
Proof.
  intros H. rewrite view_unfold.
  generalize (filtered_mods toLowerCase state). intros l.
  destruct H as
    [<- | [<- | [<- | [<- | [<- | [<- | [<- | [<- | [<- | [<- | [<- | [<- | []]]]]]]]]]]]];
    cbn [sorter_of sorters Object_prototype];
    repeat match goal with
           | |- context [streq (str ?a) (str ?b)] =>
               let v := eval vm_compute in (streq (str a) (str b)) in
               change (streq (str a) (str b)) with v
           end;
    cbn [orb existsb Array_sort];
    first [ reflexivity
          | apply sort_calling_constant
          | apply sort_calling_raising ].
Qed.

Lemma date_desc_after (a b : Mod) :
  positive_result (date_desc a b) =
  match m_releaseDateMs a, m_releaseDateMs b with
  | Some x, Some y => x <? y
  | None, Some _ => true
  | _, None => false
  end.
Proof.
  unfold date_desc, nullish.
  destruct (m_releaseDateMs a), (m_releaseDateMs b); try reflexivity.
  apply positive_nsub.
Qed.

Lemma date_asc_after (a b : Mod) :
  positive_result (date_asc a b) =
  match m_releaseDateMs a, m_releaseDateMs b with
  | Some x, Some y => y <? x
  | None, Some _ => true
  | _, None => false
  end.
Proof.
  unfold date_asc, nullish.
  destruct (m_releaseDateMs a), (m_releaseDateMs b); try reflexivity.
  apply positive_nsub.
Qed.

Ltac by_dates :=
  unfold not_after; intros;
  repeat match goal with
         | H : context [positive_result (date_desc _ _)] |- _ =>
             rewrite date_desc_after in H
         | H : context [positive_result (date_asc _ _)] |- _ =>
             rewrite date_asc_after in H
         | |- context [positive_result (date_desc _ _)] => rewrite date_desc_after
         | |- context [positive_result (date_asc _ _)] => rewrite date_asc_after
         end;
  repeat match goal with
         | |- context [m_releaseDateMs ?m] => destruct (m_releaseDateMs m)
         | H : context [m_releaseDateMs ?m] |- _ => destruct (m_releaseDateMs m)
         end;
  try reflexivity; try discriminate; try lia.

Lemma date_desc_trans (x y z : Mod) :
  not_after date_desc x y -> not_after date_desc y z -> not_after date_desc x z.
Proof. by_dates. Qed.

Lemma date_desc_asym (x y : Mod) :
  positive_result (date_desc x y) = true -> not_after date_desc y x.
Proof. by_dates. Qed.

Lemma date_asc_trans (x y z : Mod) :
  not_after date_asc x y -> not_after date_asc y z -> not_after date_asc x z.
Proof. by_dates. Qed.

Lemma date_asc_asym (x y : Mod) :
  positive_result (date_asc x y) = true -> not_after date_asc y x.
Proof. by_dates. Qed.

Lemma specified_cases (sort : jsstring) :
  (sorts_by_date sort = true /\
   (specified sort = date_desc \/ specified sort = date_asc))
  \/ (sorts_by_date sort = false /\
      (specified sort = name_asc localeCompare \/
       specified sort = name_desc localeCompare)).
Proof.
  unfold specified_sorter, sorts_by_date.
  destruct (streq sort (str "date_asc")) eqn:E2;
    [apply streq_spec in E2; subst sort; left; split; [reflexivity | right; reflexivity]|].
  destruct (streq sort (str "name_asc")) eqn:E3;
    [right; split; [reflexivity | left; reflexivity]|].
  destruct (streq sort (str "name_desc")) eqn:E4;
    [right; split; [reflexivity | right; reflexivity]|].
  left. split; [reflexivity | left; reflexivity].
Qed.

Lemma same_sort_key_tie (sort : jsstring) (a x y : Mod) :
  (forall s, localeCompare s s = 0) ->
  same_sort_key sort a x = true -> same_sort_key sort a y = true ->
  positive_result (specified sort x y) = false.
Proof.
  intros Hrefl. unfold same_sort_key.
  destruct (specified_cases sort) as [[Hd [-> | ->]] | [Hd [-> | ->]]];
    unfold sorts_by_date in Hd;
    destruct (streq sort (str "name_asc") || streq sort (str "name_desc"));
    try discriminate; clear Hd.
  - rewrite !bool_decide_eq_true. intros H1 H2. rewrite date_desc_after.
    rewrite <- H1, <- H2. destruct (m_releaseDateMs a); [apply Z.ltb_irrefl | reflexivity].
  - rewrite !bool_decide_eq_true. intros H1 H2. rewrite date_asc_after.
    rewrite <- H1, <- H2. destruct (m_releaseDateMs a); [apply Z.ltb_irrefl | reflexivity].
  - rewrite !streq_spec. intros H1 H2. unfold name_asc.
    rewrite <- H1, <- H2, Hrefl. reflexivity.
  - rewrite !streq_spec. intros H1 H2. unfold name_desc.
    rewrite <- H1, <- H2, Hrefl. reflexivity.
Qed.

Lemma date_sorter_sorted (sort : jsstring) (l : list Mod) :
  sorts_by_date sort = true ->
  exists cmp, specified sort = cmp /\
    (cmp = date_desc \/ cmp = date_asc) /\
    StronglySorted (not_after cmp) (array_sort cmp l).
Proof.
  intros Hd.
  destruct (specified_cases sort) as [[_ [E | E]] | [Hn _]]; [| |congruence].
  - exists date_desc. repeat split; [exact E | left; reflexivity |].
    apply array_sort_sorted; [exact date_desc_trans | exact date_desc_asym].
  - exists date_asc. repeat split; [exact E | right; reflexivity |].
    apply array_sort_sorted; [exact date_asc_trans | exact date_asc_asym].
Qed.

Lemma filter_sublist {A} (f : A -> bool) (l : list A) : sublist (List.filter f l) l.
Proof.
  induction l as [|x l IH]; simpl; [constructor|].
  destruct (f x); [apply sublist_skip | apply sublist_cons]; exact IH.
Qed.

(** The filters keep catalog order. *)
Lemma filtered_mods_sublist (state : State) :
  sublist (filtered_mods toLowerCase state) (s_mods state).
Proof.
  unfold filtered_mods.
  destruct (nonempty _), (negb _);
    repeat (try reflexivity; try apply filter_sublist;
            try (etransitivity; [apply filter_sublist|])).
Qed.

Lemma positive_of_Z (z : Z) : positive_result (of_Z z) = (0 <? z).
Proof. reflexivity. Qed.

Lemma specified_trans (sort : jsstring) :
  (forall a b c, localeCompare a b <= 0 -> localeCompare b c <= 0 ->
                 localeCompare a c <= 0) ->
  forall x y z,
    not_after (specified sort) x y ->
    not_after (specified sort) y z ->
    not_after (specified sort) x z.
Proof.
  intros Htrans x y z.
  destruct (specified_cases sort) as [[_ [-> | ->]] | [_ [-> | ->]]].
  - apply date_desc_trans.
  - apply date_asc_trans.
  - unfold not_after, name_asc. rewrite !positive_of_Z, !Z.ltb_ge.
    apply Htrans.
  - unfold not_after, name_desc. rewrite !positive_of_Z, !Z.ltb_ge.
    intros H1 H2. exact (Htrans _ _ _ H2 H1).
Qed.

(** What the specification asks of the sort holds under every sort key
    that names no member of [Object.prototype].  The sort of the view is
    stable: the items that pass the filters are a part of the catalog in
    catalog order, and those of any one sort key (the same name, the same
    timestamp), as those the comparator finds equal, come out of the sort in
    that order; and when the sort is by date, in either direction or by
    default, no item without a release timestamp stands before an item with
    one.  ([localeCompare] is taken to find a string equal to itself and to
    order transitively.) *)
Theorem view_sort_stable_nulls_last (state : State) :
  (forall s, localeCompare s s = 0) ->
  (forall a b c, localeCompare a b <= 0 -> localeCompare b c <= 0 ->
                 localeCompare a c <= 0) ->
  ~ In (s_sort state) object_prototype_keys ->
  let kept := filtered_mods toLowerCase state in
  let cmp := specified (s_sort state) in
  exists out,
    view state = Return out /\
    sublist kept (s_mods state) /\
    (forall a,
       List.filter (same_sort_key (s_sort state) a) out =
       List.filter (same_sort_key (s_sort state) a) kept) /\
    (forall a, List.filter (sort_tie cmp a) out = List.filter (sort_tie cmp a) kept) /\
    (sorts_by_date (s_sort state) = true ->
     forall i j a b,
       out !! i = Some a -> out !! j = Some b ->
       m_releaseDateMs a = None -> m_releaseDateMs b <> None -> (j < i)%nat).
Proof.
  intros Hrefl Htrans Hkey kept cmp. subst kept cmp.
  eexists. split; [apply view_returns, Hkey|].
  split; [apply filtered_mods_sublist|]. split; [|split].
  - intros a. apply array_sort_stable.
    intros x y. apply same_sort_key_tie, Hrefl.
  - intros a. apply array_sort_stable_ties, specified_trans, Htrans.
  - intros Hd i j a b Hi Hj Ha Hb.
    destruct (date_sorter_sorted (s_sort state) (filtered_mods toLowerCase state) Hd)
      as (cmp & Ecmp & Hcmp & Hsorted).
    rewrite Ecmp in Hi, Hj.
    destruct (Nat.lt_trichotomy i j) as [Hlt | [-> | Hgt]]; [exfalso | exfalso | exact Hgt].
    + pose proof (StronglySorted_lookup _ _ Hsorted i j a b Hi Hj Hlt) as Hna.
      unfold not_after in Hna.
      destruct Hcmp as [-> | ->];
        [rewrite date_desc_after in Hna | rewrite date_asc_after in Hna];
        rewrite Ha in Hna; destruct (m_releaseDateMs b); congruence.
    + rewrite Hi in Hj. injection Hj as ->. congruence.
Qed.

Lemma filtered_mods_In (state : State) (m : Mod) :
  Forall item (s_mods state) ->
  In m (filtered_mods toLowerCase state) <->
  In m (s_mods state) /\ view_selects toLowerCase state m.
Proof.
  intros Hitems. unfold filtered_mods, view_selects.
  assert (Hst : In m (s_mods state) -> safeToStr (VStr (m_status m)) [] = m_status m).
  { intros Hin. rewrite Forall_forall in Hitems.
    apply (catalog_item_status toLowerCase Date_getTime Number_of_string
             encodeURIComponent).
    apply Hitems, list_elem_of_In, Hin. }
  destruct (streq (s_status state) (str "all")) eqn:Es; simpl negb; cbv iota.
  - apply streq_spec in Es.
    destruct (nonempty (toLowerCase (s_query state))) eqn:Eq.
    + rewrite filter_In. split; [tauto|].
      intros [Hin [[Hq | Hinc] _]]; [rewrite Hq in Eq; discriminate | tauto].
    + apply nonempty_false in Eq. tauto.
  - apply streq_false in Es.
    destruct (nonempty (toLowerCase (s_query state))) eqn:Eq.
    + rewrite !filter_In, streq_spec. split.
      * intros [[Hin Hinc] Heq]. rewrite (Hst Hin) in Heq. tauto.
      * intros [Hin [[Hq | Hinc] [Hall | Heq]]]; try congruence.
        -- rewrite Hq in Eq. discriminate.
        -- rewrite (Hst Hin). tauto.
    + apply nonempty_false in Eq. rewrite filter_In, streq_spec. split.
      * intros [Hin Heq]. rewrite (Hst Hin) in Heq. tauto.
      * intros [Hin [_ [Hall | Heq]]]; [congruence|]. rewrite (Hst Hin). tauto.
Qed.

(** The view, when it returns, holds the records the filters keep. *)
Lemma view_In (state : State) (out : list Mod) (m : Mod) :
  view state = Return out ->
  In m out <-> In m (filtered_mods toLowerCase state).
Proof.
  rewrite view_unfold. intros H.
  rewrite <- !list_elem_of_In.
  rewrite (Array_sort_Permutation _ _ _ H). reflexivity.
Qed.

(** C3, as the code has it.  Under a sort key that names no member of
    [Object.prototype] the view of a catalog of normalised records returns,
    and an item is in it exactly when (1) the query, lower-cased and not
    trimmed, is empty or occurs in the item's haystack, and (2) the status
    filter is "all" or is the item's status; which of those sort keys it is
    plays no part. *)
Theorem view_membership (state : State) :
  Forall item (s_mods state) ->
  ~ In (s_sort state) object_prototype_keys ->
  exists out,
    view state = Return out /\
    (forall m,
       In m out <-> In m (s_mods state) /\ view_selects toLowerCase state m) /\
    forall sort,
      ~ In sort object_prototype_keys ->
      exists out',
        view (with_sort state sort) = Return out' /\
        forall m, In m out' <-> In m out.
Proof.
  intros Hitems Hkey.
  eexists. split; [apply view_returns, Hkey|]. split.
  - intros m. rewrite (view_In state _ m (view_returns state Hkey)).
    apply filtered_mods_In, Hitems.
  - intros sort Hsort.
    eexists. split; [apply (view_returns (with_sort state sort)), Hsort|].
    intros m.
    rewrite (view_In _ _ m (view_returns (with_sort state sort) Hsort)).
    rewrite (view_In state _ m (view_returns state Hkey)). reflexivity.
Qed.

End ViewProperties.

(** ** Truncation *)

Lemma spread_ind (P : jsstring -> Prop) :
  P [] ->
  (forall u r, is_high u = false -> P r -> P (u :: r)) ->
  (forall u, is_high u = true -> P [u]) ->
  (forall u l r, is_high u = true -> is_low l = true -> P r -> P (u :: l :: r)) ->
  (forall u l r, is_high u = true -> is_low l = false -> P (l :: r) -> P (u :: l :: r)) ->
  forall s, P s.
Proof.
  intros Hnil Hone Hlast Hpair Hlone s.
  assert (H : forall n s, (length s <= n)%nat -> P s).
  { clear s. induction n as [|n IH]; intros s Hlen.
    - destruct s; [exact Hnil | simpl in Hlen; lia].
    - destruct s as [|u r]; [exact Hnil|]. simpl in Hlen.
      destruct (is_high u) eqn:Eu; [|apply Hone; [exact Eu | apply IH; lia]].
      destruct r as [|l r]; [apply Hlast, Eu|]. simpl in Hlen.
      destruct (is_low l) eqn:El.
      + apply Hpair; [exact Eu | exact El | apply IH; lia].
      + apply Hlone; [exact Eu | exact El | apply IH; simpl; lia]. }
  apply (H (length s)). lia.
Qed.

Lemma spread_one (u : Z) (r : jsstring) :
  is_high u = false -> spread (u :: r) = [u] :: spread r.
Proof. intros E. simpl. rewrite E. reflexivity. Qed.

Lemma spread_pair (u l : Z) (r : jsstring) :
  is_high u = true -> is_low l = true -> spread (u :: l :: r) = [u; l] :: spread r.
Proof. intros Eu El. simpl. rewrite Eu, El. reflexivity. Qed.

Lemma spread_lone (u l : Z) (r : jsstring) :
  is_high u = true -> is_low l = false -> spread (u :: l :: r) = [u] :: spread (l :: r).
Proof. intros Eu El. cbn [spread]. rewrite Eu, El. reflexivity. Qed.

Lemma spread_last (u : Z) : is_high u = true -> spread [u] = [[u]].
Proof. intros Eu. simpl. rewrite Eu. reflexivity. Qed.

Lemma join_nil_concat (l : list jsstring) : join [] l = concat l.
Proof.
  induction l as [|x [|y l] IH]; [reflexivity | simpl; rewrite app_nil_r; reflexivity |].
  change (join [] (x :: y :: l)) with (x ++ [] ++ join [] (y :: l)).
  rewrite IH. reflexivity.
Qed.

(** The code points of a string make up the string. *)
Lemma concat_spread (s : jsstring) : concat (spread s) = s.
Proof.
  induction s using spread_ind.
  - reflexivity.
  - rewrite spread_one by assumption. cbn [concat app]. congruence.
  - rewrite spread_last by assumption. reflexivity.
  - rewrite spread_pair by assumption. cbn [concat app]. congruence.
  - rewrite spread_lone by assumption. cbn [concat app]. congruence.
Qed.

Lemma spread_head (l : Z) (r : jsstring) :
  exists c rest, spread (l :: r) = (l :: c) :: rest.
Proof.
  destruct (is_high l) eqn:El; [|rewrite spread_one by assumption; eauto].
  destruct r as [|l' r]; [rewrite spread_last by assumption; eauto|].
  destruct (is_low l') eqn:El'.
  - rewrite spread_pair by assumption. eauto.
  - rewrite spread_lone by assumption. eauto.
Qed.

(** The first [n] code points, put together, spread into themselves. *)
Lemma spread_take (s : jsstring) :
  forall n, spread (concat (take n (spread s))) = take n (spread s).
Proof.
  induction s using spread_ind; intros n.
  - destruct n; reflexivity.
  - rewrite spread_one by assumption. destruct n; [reflexivity|].
    cbn [take concat app]. rewrite spread_one by assumption.
    rewrite IHs. reflexivity.
  - rewrite spread_last by assumption. destruct n as [|[|n]]; try reflexivity;
      cbn [take concat app]; rewrite spread_last by assumption; reflexivity.
  - rewrite spread_pair by assumption. destruct n; [reflexivity|].
    cbn [take concat app]. rewrite spread_pair by assumption.
    rewrite IHs. reflexivity.
  - rewrite spread_lone by assumption. destruct n as [|n]; [reflexivity|].
    cbn [take concat app]. specialize (IHs n).
    destruct n as [|n].
    + cbn [take concat]. rewrite spread_last by assumption. reflexivity.
    + destruct (spread_head l r) as (c & rest & E). rewrite E in *.
      cbn [take concat app] in *.
      rewrite spread_lone by assumption. rewrite IHs. reflexivity.
Qed.

(** A unit that is no surrogate is a code point of its own wherever it
    stands. *)
Lemma spread_app_plain (p : jsstring) (c : Z) (t : jsstring) :
  is_high c = false -> is_low c = false ->
  spread (p ++ c :: t) = spread p ++ [c] :: spread t.
Proof.
  intros Hh Hl. induction p using spread_ind; cbn [app] in *.
  - apply spread_one, Hh.
  - rewrite !spread_one by assumption. rewrite IHp. reflexivity.
  - rewrite spread_lone, spread_last, spread_one by assumption. reflexivity.
  - rewrite !spread_pair by assumption. rewrite IHp. reflexivity.
  - rewrite !spread_lone by assumption. rewrite IHp. reflexivity.
Qed.

Lemma lastIndexOf_from_last (s : jsstring) (c : Z) :
  forall i found k,
    s !! k = Some c -> c ∉ drop (S k) s ->
    lastIndexOf_from s c i found = i + Z.of_nat k.
Proof.
  induction s as [|u r IH]; intros i found k Hk Hno; [discriminate|].
  destruct k as [|k]; simpl in *.
  - injection Hk as ->. rewrite Z.eqb_refl.
    assert (Hrest : forall j f, c ∉ r -> lastIndexOf_from r c j f = f).
    { clear. induction r as [|v r IH]; intros j f Hno; [reflexivity|]. simpl.
      rewrite not_elem_of_cons in Hno. destruct Hno as [Hne Hno].
      destruct (Z.eqb_spec v c); [congruence|]. apply IH, Hno. }
    rewrite (Hrest _ _ Hno). lia.
  - rewrite (IH (i + 1) _ k Hk Hno). lia.
Qed.

Lemma lastIndexOf_from_none (s : jsstring) (c : Z) :
  forall i found, c ∉ s -> lastIndexOf_from s c i found = found.
Proof.
  induction s as [|v r IH]; intros j f Hno; [reflexivity|]. simpl.
  rewrite not_elem_of_cons in Hno. destruct Hno as [Hne Hno].
  destruct (Z.eqb_spec v c); [congruence|]. apply IH, Hno.
Qed.

(** [lastIndexOf] is -1 when the unit does not occur, the index of its last
    occurrence otherwise. *)
Lemma lastIndexOf_spec (s : jsstring) (c : Z) :
  ((c ∉ s) /\ lastIndexOf s c = -1) \/
  (exists k, s !! k = Some c /\ (c ∉ drop (S k) s) /\ lastIndexOf s c = Z.of_nat k).
Proof.
  unfold lastIndexOf.
  assert (H : (c ∉ s) \/ exists k, s !! k = Some c /\ (c ∉ drop (S k) s)).
  { induction s as [|u r IH]; [left; apply not_elem_of_nil|].
    destruct IH as [Hno | (k & Hk & Hno)].
    - destruct (decide (u = c)) as [->|Hne].
      + right. exists 0%nat. split; [reflexivity | exact Hno].
      + left. rewrite not_elem_of_cons. split; [congruence | exact Hno].
    - right. exists (S k). split; [exact Hk | exact Hno]. }
  destruct H as [Hno | (k & Hk & Hno)].
  - left. split; [exact Hno | apply lastIndexOf_from_none, Hno].
  - right. exists k. repeat split; try assumption.
    rewrite (lastIndexOf_from_last s c 0 (-1) k Hk Hno). lia.
Qed.

Lemma singletons_lookup (L : list jsstring) :
  Forall (fun c => length c = 1%nat) L ->
  forall i u, concat L !! i = Some u <-> L !! i = Some [u].
Proof.
  induction 1 as [|c L Hc _ IH]; intros i u.
  - simpl. rewrite !lookup_nil. split; discriminate.
  - destruct c as [|v [|]]; try discriminate. cbn [concat app].
    destruct i as [|i]; simpl.
    + split; intros E; injection E as ->; reflexivity.
    + apply IH.
Qed.

Lemma singletons_take (L : list jsstring) :
  Forall (fun c => length c = 1%nat) L ->
  forall i, take i (concat L) = concat (take i L).
Proof.
  induction 1 as [|c L Hc _ IH]; intros i.
  - destruct i; reflexivity.
  - destruct c as [|v [|]]; try discriminate. cbn [concat app].
    destruct i as [|i]; [reflexivity|]. cbn [take concat app]. rewrite IH. reflexivity.
Qed.

Lemma concat_take_prefix (L : list jsstring) (n : nat) :
  concat L = concat (take n L) ++ concat (drop n L).
Proof. rewrite <- concat_app, take_drop. reflexivity. Qed.

Section TruncateProperties.

Context (s : value) (maxChars : nat) (preserveWords : bool).

Local Abbreviation input := (safeToStr s []).
Local Abbreviation cps := (spread (safeToStr s [])).
Local Abbreviation sliced := (concat (take maxChars (spread (safeToStr s [])))).
Local Abbreviation lastSpace :=
  (lastIndexOf (concat (take maxChars (spread (safeToStr s [])))) 0x20).
(** The text kept before the ellipsis when the input is too long. *)
Local Abbreviation kept :=
  (if preserveWords && (3 * Z.of_nat maxChars <? 5 * lastSpace)
   then take (Z.to_nat lastSpace) sliced
   else sliced).

Lemma truncateUnicode_short (ell : jsstring) :
  (length cps <= maxChars)%nat ->
  truncateUnicode s maxChars preserveWords ell = mkTruncation input false.
Proof.
  intros Hlen. unfold truncateUnicode.
  destruct (nonempty input) eqn:Hne; simpl negb; cbv iota.
  - rewrite (proj2 (Nat.leb_le _ _) Hlen). reflexivity.
  - apply nonempty_false in Hne. rewrite Hne. reflexivity.
Qed.

Lemma truncateUnicode_long (ell : jsstring) :
  (maxChars < length cps)%nat ->
  truncateUnicode s maxChars preserveWords ell = mkTruncation (kept ++ ell) true.
Proof.
  intros Hlen. unfold truncateUnicode.
  assert (Hne : nonempty input = true).
  { destruct input eqn:E; [|reflexivity]. simpl in Hlen. lia. }
  rewrite Hne. simpl negb. cbv iota.
  rewrite (proj2 (Nat.leb_gt _ _) Hlen).
  unfold slice0. rewrite join_nil_concat.
  destruct preserveWords; [|reflexivity]. simpl andb.
  destruct (3 * Z.of_nat maxChars <? 5 * lastSpace); reflexivity.
Qed.

Lemma spread_sliced : spread sliced = take maxChars cps.
Proof. apply spread_take. Qed.

Lemma sliced_prefix : input = sliced ++ concat (drop maxChars cps).
Proof. rewrite <- concat_take_prefix. symmetry. apply concat_spread. Qed.

Lemma kept_boundary :
  exists k, (k <= maxChars)%nat /\ spread kept = take k cps /\
            exists rest, input = kept ++ rest.
Proof.
  destruct (preserveWords && (3 * Z.of_nat maxChars <? 5 * lastSpace)) eqn:E.
  - apply andb_true_iff in E. destruct E as [_ E]. apply Z.ltb_lt in E.
    destruct (lastIndexOf_spec sliced 0x20) as [[_ Hm] | (k & Hk & _ & Hl)]; [exfalso; lia|].
    rewrite Hl, Nat2Z.id.
    pose proof (take_drop_middle sliced k 0x20 Hk) as Hsplit.
    pose proof spread_sliced as Hs. rewrite <- Hsplit in Hs.
    rewrite spread_app_plain in Hs by reflexivity.
    exists (length (spread (take k sliced))). repeat split.
    + apply (f_equal length) in Hs. rewrite length_app in Hs.
      rewrite length_take in Hs. lia.
    + pose proof (f_equal (take (length (spread (take k sliced)))) Hs) as Ht.
      rewrite take_app_length in Ht.
      apply (f_equal length) in Hs. rewrite length_app, length_take in Hs.
      set (K := length (spread (take k sliced))) in *.
      rewrite Ht, take_take. f_equal. lia.
    + exists (drop k sliced ++ concat (drop maxChars cps)).
      rewrite app_assoc, take_drop. apply sliced_prefix.
  - exists maxChars. repeat split; [lia | apply spread_sliced |].
    exists (concat (drop maxChars cps)). apply sliced_prefix.
Qed.

Lemma spread_with_ellipsis (t : jsstring) : spread (t ++ ellipsis) = spread t ++ [ellipsis].
Proof. unfold ellipsis. rewrite spread_app_plain by reflexivity. reflexivity. Qed.

(** C10.  When the trimmed input has at most [maxChars] code points it is
    returned as it is, not flagged.  A longer input is flagged, and the text
    is a prefix of the input with one ellipsis after it: as many code points
    as were kept and one more, [maxChars + 1] when no word boundary is
    sought. *)
Theorem truncateUnicode_result :
  let r := truncateUnicode s maxChars preserveWords ellipsis in
  ((length cps <= maxChars)%nat -> r = mkTruncation input false) /\
  ((maxChars < length cps)%nat ->
   truncated r = true /\
   exists kept_text rest,
     input = kept_text ++ rest /\
     text r = kept_text ++ ellipsis /\
     spread (text r) = spread kept_text ++ [ellipsis] /\
     (length (spread kept_text) <= maxChars)%nat /\
     (length (spread (text r)) <= S maxChars)%nat /\
     (preserveWords = false -> length (spread (text r)) = S maxChars)).
Proof.
  intros r. subst r. split.
  - apply truncateUnicode_short.
  - intros Hlen. rewrite (truncateUnicode_long _ Hlen). cbn [truncated text].
    split; [reflexivity|].
    destruct kept_boundary as (k & Hk & Hspread & rest & Hrest).
    assert (Hkept : (length (spread kept) <= maxChars)%nat).
    { rewrite Hspread, length_take. lia. }
    exists kept, rest. rewrite spread_with_ellipsis, length_app. cbn [length].
    split; [exact Hrest|]. split; [reflexivity|]. split; [reflexivity|].
    split; [exact Hkept|]. rewrite Nat.add_1_r.
    split; [apply le_n_S, Hkept|].
    intros ->. simpl andb. cbv iota.
    rewrite spread_sliced, length_take. f_equal. apply Nat.min_l. lia.
Qed.

(** C8, as the code has it.  A too long input is cut between code points:
    the text is some of the first [maxChars] code points and the ellipsis.
    Without word boundaries it is all [maxChars] of them.  With word
    boundaries, on kept code points of one unit each, it is the code points
    before the last space among them when that space stands strictly later
    than 60% of [maxChars], and all [maxChars] of them otherwise. *)
Theorem truncateUnicode_cut :
  (maxChars < length cps)%nat ->
  let r := truncateUnicode s maxChars preserveWords ellipsis in
  (exists k, (k <= maxChars)%nat /\ spread (text r) = take k cps ++ [ellipsis]) /\
  (preserveWords = false -> text r = concat (take maxChars cps) ++ ellipsis) /\
  (preserveWords = true ->
   Forall (fun c => length c = 1%nat) (take maxChars cps) ->
   (forall i, (i < maxChars)%nat -> cps !! i = Some [0x20] ->
      (forall j, (i < j < maxChars)%nat -> cps !! j <> Some [0x20]) ->
      text r =
      (if 3 * Z.of_nat maxChars <? 5 * Z.of_nat i
       then concat (take i cps)
       else concat (take maxChars cps)) ++ ellipsis) /\
   ((forall i, (i < maxChars)%nat -> cps !! i <> Some [0x20]) ->
    text r = concat (take maxChars cps) ++ ellipsis)).
Proof.
  intros Hlen r. subst r. rewrite (truncateUnicode_long _ Hlen). cbn [text].
  split; [|split].
  - destruct kept_boundary as (k & Hk & Hspread & _).
    exists k. rewrite spread_with_ellipsis. split; [exact Hk|].
    f_equal. exact Hspread.
  - intros ->. reflexivity.
  - intros -> Hbmp. simpl andb.
    assert (Hlook : forall j u, sliced !! j = Some u ->
                      (j < maxChars)%nat /\ cps !! j = Some [u]).
    { intros j u Hj. apply (singletons_lookup _ Hbmp) in Hj.
      apply lookup_take_Some in Hj. tauto. }
    split.
    + intros i Hi Hsp Hlast.
      assert (Hat : sliced !! i = Some 0x20).
      { apply (singletons_lookup _ Hbmp). rewrite lookup_take_lt by exact Hi. exact Hsp. }
      assert (Hno : 0x20 ∉ drop (S i) sliced).
      { intros Hin. apply list_elem_of_lookup in Hin. destruct Hin as [j Hj].
        rewrite lookup_drop in Hj. apply Hlook in Hj. destruct Hj as [Hj1 Hj2].
        apply (Hlast (S i + j)%nat); [lia | exact Hj2]. }
      unfold lastIndexOf. rewrite (lastIndexOf_from_last _ _ 0 (-1) i Hat Hno).
      rewrite Z.add_0_l, Nat2Z.id.
      destruct (3 * Z.of_nat maxChars <? 5 * Z.of_nat i); [|reflexivity].
      rewrite (singletons_take _ Hbmp), take_take.
      replace (i `min` maxChars)%nat with i by lia. reflexivity.
    + intros Hnone.
      assert (Hno : 0x20 ∉ sliced).
      { intros Hin. apply list_elem_of_lookup in Hin. destruct Hin as [j Hj].
        apply Hlook in Hj. destruct Hj as [Hj1 Hj2]. exact (Hnone j Hj1 Hj2). }
      unfold lastIndexOf. rewrite (lastIndexOf_from_none _ _ 0 (-1) Hno).
      destruct (3 * Z.of_nat maxChars <? 5 * -1) eqn:E; [|reflexivity].
      apply Z.ltb_lt in E. lia.
Qed.

End TruncateProperties.

(** ** Cache *)

Lemma parse_digits_acc (d : Decimal.uint) :
  forall acc : positive,
    parse_digits (digits_of_uint d) (Z.pos acc) = Z.pos (Pos.of_uint_acc d acc).
Proof.
  induction d; intros acc; cbn [digits_of_uint parse_digits Pos.of_uint_acc];
    [reflexivity | ..];
    change (is_digit _) with true; cbv iota; rewrite <- IHd; f_equal; lia.
Qed.

Lemma parse_digits_uint (d : Decimal.uint) :
  parse_digits (digits_of_uint d) 0 = Z.of_N (Pos.of_uint d).
Proof.
  induction d; cbn [digits_of_uint parse_digits Pos.of_uint];
    [reflexivity | exact IHd | ..];
    change (is_digit _) with true; cbv iota; exact (parse_digits_acc d _).
Qed.

Lemma to_uint_digits (p : positive) :
  parse_digits (digits_of_uint (Pos.to_uint p)) 0 = Z.pos p /\
  Pos.to_uint p <> Decimal.Nil.
Proof.
  pose proof (DecimalPos.Unsigned.of_to p) as H. split.
  - rewrite parse_digits_uint, H. reflexivity.
  - intros E. rewrite E in H. discriminate.
Qed.

Lemma parseInt_digits (d : Decimal.uint) :
  d <> Decimal.Nil ->
  parseInt (digits_of_uint d) = Some (parse_digits (digits_of_uint d) 0) /\
  parseInt (0x2D :: digits_of_uint d) = Some (- parse_digits (digits_of_uint d) 0).
Proof. destruct d; [congruence | split; reflexivity ..]. Qed.

(** [parseInt] reads back what [String] prints. *)
Lemma parseInt_String_of_Z (n : Z) : parseInt (String_of_Z n) = Some n.
Proof.
  unfold String_of_Z. destruct n as [|p|p]; [reflexivity | |]; simpl Z.to_int;
    destruct (to_uint_digits p) as [Hv Hnil];
    destruct (parseInt_digits _ Hnil) as [H1 H2].
  - rewrite H1, Hv. reflexivity.
  - rewrite H2, Hv. reflexivity.
Qed.

Lemma String_of_Z_nonempty (n : Z) : nonempty (String_of_Z n) = true.
Proof.
  pose proof (parseInt_String_of_Z n) as H.
  destruct (String_of_Z n); [discriminate | reflexivity].
Qed.

Lemma cache_keys_differ : CACHE_KEY <> CACHE_EXPIRY_KEY.
Proof. intros H. vm_compute in H. discriminate. Qed.

Section CacheProperties.

Context (JSON_stringify : list Mod -> jsstring)
  (JSON_parse : jsstring -> outcome (list Mod))
  (storage_accepts : gmap jsstring jsstring -> jsstring -> jsstring -> bool).

Local Abbreviation get_cached := (getCachedData JSON_parse).
Local Abbreviation set_cached := (setCachedData JSON_stringify storage_accepts).

(** C6.  A catalog stored at time [now], when the storage takes both writes
    and the catalog survives JSON, is returned by a read at any time up to
    [now + CACHE_DURATION]; and on a stored entry whose expiry lies before
    the time of the read, the read returns null and removes both the
    payload and the expiry entry. *)
Theorem cache_round_trip_and_eviction :
  (forall (data : list Mod) (now later : Z) (ls : gmap jsstring jsstring),
     storage_accepts ls CACHE_KEY (JSON_stringify data) = true ->
     storage_accepts (<[CACHE_KEY := JSON_stringify data]> ls) CACHE_EXPIRY_KEY
       (String_of_Z (now + CACHE_DURATION)) = true ->
     JSON_stringify data <> [] ->
     JSON_parse (JSON_stringify data) = Return data ->
     later <= now + CACHE_DURATION ->
     (get_cached later (set_cached now data ls)).1 = Some data)
  /\
  (forall (now expiresAt : Z) (payload : jsstring) (ls : gmap jsstring jsstring),
     ls !! CACHE_KEY = Some payload ->
     payload <> [] ->
     ls !! CACHE_EXPIRY_KEY = Some (String_of_Z expiresAt) ->
     expiresAt < now ->
     (get_cached now ls).1 = None /\
     (get_cached now ls).2 !! CACHE_KEY = None /\
     (get_cached now ls).2 !! CACHE_EXPIRY_KEY = None /\
     (get_cached now ls).2 = delete CACHE_EXPIRY_KEY (delete CACHE_KEY ls)).
Proof.
  split.
  - intros data now later ls Hw1 Hw2 Hne Hjson Hlater.
    unfold setCachedData, setItem. rewrite Hw1, Hw2.
    unfold getCachedData.
    rewrite lookup_insert_ne by (apply not_eq_sym, cache_keys_differ).
    rewrite !lookup_insert_eq.
    destruct (JSON_stringify data) as [|u r] eqn:E; [congruence|].
    cbn [nonempty negb orb]. rewrite String_of_Z_nonempty. cbn [negb].
    rewrite parseInt_String_of_Z.
    destruct (Z.ltb_spec (now + CACHE_DURATION) later) as [Hlt|_]; [lia|].
    rewrite Hjson. reflexivity.
  - intros now expiresAt payload ls Hp Hne He Hexp.
    unfold getCachedData. rewrite Hp, He.
    destruct payload as [|u r]; [congruence|].
    cbn [nonempty negb orb]. rewrite String_of_Z_nonempty. cbn [negb].
    rewrite parseInt_String_of_Z.
    destruct (Z.ltb_spec expiresAt now) as [_|Hge]; [|lia].
    cbn [fst snd]. repeat split.
    + rewrite lookup_delete_ne by (apply not_eq_sym, cache_keys_differ).
      apply lookup_delete_eq.
    + apply lookup_delete_eq.
Qed.

End CacheProperties.

(** ** URL state *)

(** Settle the test of the [if] at the head of the goal by arithmetic. *)
Ltac head_if :=
  match goal with
  | |- (if ?c then _ else _) = _ =>
      first [ replace c with true by lia | replace c with false by lia ];
      cbv beta iota
  end.

Ltac settle_eqb :=
  repeat match goal with
         | |- context [?a =? ?b] => destruct (Z.eqb_spec a b)
         end.

Ltac split64 x :=
  let q := fresh "q" in
  let r := fresh "r" in
  pose proof (Z.div_mod x 64 ltac:(discriminate));
  pose proof (Z.mod_pos_bound x 64 ltac:(reflexivity));
  remember (x / 64) as q; remember (x mod 64) as r;
  repeat match goal with
         | H : _ = _ / 64 |- _ => clear H
         | H : _ = _ mod 64 |- _ => clear H
         end.

Lemma utf8_head_scalar (c : Z) (rest : list Z) :
  is_scalar c ->
  exists b0 tl, utf8_of_scalar c = b0 :: tl /\
    utf8_head b0 (tl ++ rest) = (c, length tl) /\ Forall is_byte (b0 :: tl).
Proof.
  intros [Hr Hs]. unfold utf8_of_scalar.
  change 4096 with (64 * 64). change 262144 with (64 * 64 * 64).
  rewrite <- !Z.div_div by lia.
  split64 c. split64 q. split64 q0.
  destruct (Z.ltb_spec c 0x80);
    [|destruct (Z.ltb_spec c 0x800); [|destruct (Z.ltb_spec c 0x10000)]];
    eexists _, _; (split; [reflexivity|]);
    (split; [|repeat constructor; unfold is_byte; lia]);
    unfold utf8_head, is_cont; cbn [app length].
  - head_if. reflexivity.
  - do 2 head_if. head_if. f_equal. lia.
  - do 3 head_if. settle_eqb; do 2 head_if; f_equal; lia.
  - do 4 head_if. settle_eqb; do 3 head_if; f_equal; lia.
Qed.

Lemma utf8_decode_from_skip (tl rest : list Z) :
  utf8_decode_from (tl ++ rest) (length tl) = utf8_decode_from rest 0.
Proof. induction tl as [|b tl IH]; [reflexivity | exact IH]. Qed.

(** Decoding undoes encoding, on scalar values. *)
Lemma utf8_decode_encode (cs : list Z) :
  Forall is_scalar cs -> utf8_decode (concat (map utf8_of_scalar cs)) = cs.
Proof.
  induction 1 as [|c cs Hc _ IH]; [reflexivity|].
  cbn [map concat].
  destruct (utf8_head_scalar c (concat (map utf8_of_scalar cs)) Hc)
    as (b0 & tl & -> & Hhead & _).
  unfold utf8_decode. cbn [app utf8_decode_from]. rewrite Hhead.
  rewrite utf8_decode_from_skip. f_equal. exact IH.
Qed.

Lemma utf8_of_scalar_bytes (cs : list Z) :
  Forall is_scalar cs -> Forall is_byte (concat (map utf8_of_scalar cs)).
Proof.
  induction 1 as [|c cs Hc _ IH]; [constructor|].
  cbn [map concat]. apply Forall_app. split; [|exact IH].
  destruct (utf8_head_scalar c [] Hc) as (b0 & tl & -> & _ & Hb). exact Hb.
Qed.

Lemma high_low_range (u l : Z) :
  is_high u = true -> is_low l = true ->
  0xD800 <= u <= 0xDBFF /\ 0xDC00 <= l <= 0xDFFF.
Proof. unfold is_high, is_low. lia. Qed.

Lemma scalar_values_lone (u l : Z) (r : jsstring) :
  is_high u = true -> is_low l = false ->
  scalar_values (u :: l :: r) = 0xFFFD :: scalar_values (l :: r) /\
  toWellFormed (u :: l :: r) = 0xFFFD :: toWellFormed (l :: r).
Proof. intros Hu Hl. simpl. rewrite Hu, Hl. split; reflexivity. Qed.

(** The scalar values of a string are scalar values, and the string they
    make is the string with its lone surrogates replaced. *)
Lemma scalar_values_units (s : jsstring) :
  Forall is_unit s ->
  Forall is_scalar (scalar_values s) /\
  string_of_scalars (scalar_values s) = toWellFormed s.
Proof.
  unfold string_of_scalars.
  induction s using spread_ind; intros Hu.
  - split; [constructor | reflexivity].
  - apply Forall_cons in Hu. destruct Hu as [Hu0 Hu]. destruct (IHs Hu) as [IH1 IH2].
    cbn [scalar_values toWellFormed]. rewrite H.
    destruct (is_low u) eqn:El.
    + split; [constructor; [unfold is_scalar; lia | exact IH1]|].
      cbn [map concat]. rewrite IH2. reflexivity.
    + split.
      * constructor; [|exact IH1]. unfold is_scalar, is_unit, is_high, is_low in *. lia.
      * cbn [map concat]. rewrite IH2. unfold utf16_of_scalar.
        replace (u <? 65536) with true by (unfold is_unit in Hu0; lia). reflexivity.
  - cbn [scalar_values toWellFormed]. rewrite H.
    split; [repeat constructor; unfold is_scalar; lia | reflexivity].
  - apply Forall_cons in Hu. destruct Hu as [_ Hu].
    apply Forall_cons in Hu. destruct Hu as [_ Hu]. destruct (IHs Hu) as [IH1 IH2].
    cbn [scalar_values toWellFormed]. rewrite H, H0.
    destruct (high_low_range u l H H0) as [Hu' Hl].
    split.
    + constructor; [|exact IH1]. unfold is_scalar. lia.
    + cbn [map concat]. rewrite IH2.
      unfold utf16_of_scalar.
      replace (65536 + (u - 55296) * 1024 + (l - 56320) <? 65536) with false by lia.
      replace (65536 + (u - 55296) * 1024 + (l - 56320) - 65536)
        with ((u - 55296) * 1024 + (l - 56320)) by lia.
      assert (Hd : ((u - 55296) * 1024 + (l - 56320)) / 1024 = u - 55296)
        by (rewrite Z.div_add_l by lia; rewrite Z.div_small by lia; lia).
      assert (Hm : ((u - 55296) * 1024 + (l - 56320)) mod 1024 = l - 56320)
        by (rewrite Z.add_comm, Z.mod_add by lia; apply Z.mod_small; lia).
      rewrite Hd, Hm. cbn [app]. f_equal; [lia|]. f_equal. lia.
  - apply Forall_cons in Hu. destruct Hu as [_ Hu]. destruct (IHs Hu) as [IH1 IH2].
    destruct (scalar_values_lone u l r H H0) as [-> ->].
    split; [constructor; [unfold is_scalar; lia | exact IH1]|].
    cbn [map concat]. rewrite IH2. reflexivity.
Qed.

(** A well-formed string is made of code units and has nothing to
    replace. *)
Lemma isWellFormed_units (s : jsstring) :
  isWellFormed s = true -> Forall is_unit s /\ toWellFormed s = s.
Proof.
  induction s using spread_ind; cbn [isWellFormed toWellFormed].
  - intros _. split; [constructor | reflexivity].
  - rewrite H. rewrite !andb_true_iff, negb_true_iff.
    intros [[[H1 H2] H3] H4]. rewrite H3. destruct (IHs H4) as [IH1 IH2].
    split; [constructor; [unfold is_unit; lia | exact IH1] | rewrite IH2; reflexivity].
  - rewrite H. discriminate.
  - rewrite H, H0. cbn [andb]. intros Hwf. destruct (IHs Hwf) as [IH1 IH2].
    destruct (high_low_range u l H H0) as [Hu Hl].
    split; [repeat (constructor; [unfold is_unit; lia|]); exact IH1|].
    rewrite IH2. reflexivity.
  - rewrite H, H0. discriminate.
Qed.

(** Replacing the lone surrogates leaves a string as it is exactly when it
    is well-formed. *)
Lemma toWellFormed_fixed (s : jsstring) :
  Forall is_unit s -> toWellFormed s = s <-> isWellFormed s = true.
Proof.
  intros Hu. split; [|apply isWellFormed_units].
  revert Hu. induction s using spread_ind; intros Hu.
  - reflexivity.
  - apply Forall_cons in Hu. destruct Hu as [Hu0 Hu].
    cbn [isWellFormed toWellFormed]. rewrite H.
    destruct (is_low u) eqn:El.
    + intros E. injection E as E _. unfold is_low in El. lia.
    + intros E. injection E as E. rewrite (IHs Hu E).
      unfold is_unit in Hu0. cbn [negb]. lia.
  - cbn [toWellFormed]. rewrite H. intros E. injection E as E.
    unfold is_high in H. lia.
  - apply Forall_cons in Hu. destruct Hu as [_ Hu].
    apply Forall_cons in Hu. destruct Hu as [_ Hu].
    cbn [isWellFormed toWellFormed]. rewrite H, H0.
    intros E. injection E as E. rewrite (IHs Hu E). reflexivity.
  - destruct (scalar_values_lone u l r H H0) as [_ ->].
    intros E. injection E as E _. unfold is_high in H. lia.
Qed.

Lemma hexval_hexdigit (h : Z) :
  0 <= h < 16 -> hexval (hexdigit h) = Some h /\ url_plain (hexdigit h) = true.
Proof.
  intros Hh. unfold hexval, hexdigit, url_plain.
  destruct (Z.ltb_spec h 10); split.
  - head_if. f_equal. lia.
  - lia.
  - do 2 head_if. f_equal. lia.
  - lia.
Qed.

Lemma url_plain_range (b : Z) :
  url_plain b = true -> 0 <= b < 128 /\ b <> 0x25 /\ b <> 0x2B /\ b <> 0x26 /\ b <> 0x3D.
Proof. unfold url_plain. lia. Qed.

Lemma urlencode_byte_chars (b : Z) : is_byte b -> Forall url_char (urlencode_byte b).
Proof.
  intros Hb. unfold urlencode_byte.
  destruct (url_plain b) eqn:Ep.
  - apply url_plain_range in Ep. repeat constructor; lia.
  - destruct (Z.eqb_spec b 0x20).
    + repeat constructor; lia.
    + assert (H1 : 0 <= b / 16 < 16) by (unfold is_byte in Hb; split;
        [apply Z.div_pos; lia | apply Z.div_lt_upper_bound; lia]).
      assert (H2 : 0 <= b mod 16 < 16) by (apply Z.mod_pos_bound; lia).
      destruct (hexval_hexdigit _ H1) as [_ P1]. apply url_plain_range in P1.
      destruct (hexval_hexdigit _ H2) as [_ P2]. apply url_plain_range in P2.
      repeat constructor; lia.
Qed.

Lemma percent_decode_byte (b : Z) (rest : list Z) :
  is_byte b ->
  percent_decode (plus_to_space (urlencode_byte b ++ rest)) =
  b :: percent_decode (plus_to_space rest).
Proof.
  intros Hb. unfold urlencode_byte.
  destruct (url_plain b) eqn:Ep.
  - apply url_plain_range in Ep. cbn [app plus_to_space map percent_decode].
    replace (b =? 43) with false by lia. replace (b =? 37) with false by lia.
    reflexivity.
  - destruct (Z.eqb_spec b 0x20) as [->|Hne]; [reflexivity|].
    assert (H1 : 0 <= b / 16 < 16) by (unfold is_byte in Hb; split;
      [apply Z.div_pos; lia | apply Z.div_lt_upper_bound; lia]).
    assert (H2 : 0 <= b mod 16 < 16) by (apply Z.mod_pos_bound; lia).
    destruct (hexval_hexdigit _ H1) as [V1 P1]. apply url_plain_range in P1.
    destruct (hexval_hexdigit _ H2) as [V2 P2]. apply url_plain_range in P2.
    cbn [app plus_to_space map percent_decode].
    replace (hexdigit (b / 16) =? 43) with false by lia.
    replace (hexdigit (b mod 16) =? 43) with false by lia.
    cbn [Z.eqb Pos.eqb]. rewrite V1, V2. f_equal.
    rewrite (Z.div_mod b 16) at 3 by lia. reflexivity.
Qed.

Lemma percent_decode_encode (bs : list Z) :
  Forall is_byte bs ->
  percent_decode (plus_to_space (concat (map urlencode_byte bs))) = bs.
Proof.
  induction 1 as [|b bs Hb _ IH]; [reflexivity|].
  cbn [map concat]. rewrite percent_decode_byte by exact Hb. f_equal. exact IH.
Qed.

(** Decoding what [urlencode] wrote gives the string back with its lone
    surrogates replaced, for these are written as U+FFFD. *)
Lemma urldecode_urlencode (s : jsstring) :
  Forall is_unit s -> urldecode (urlencode s) = toWellFormed s.
Proof.
  intros Hwf. destruct (scalar_values_units s Hwf) as [Hsc Hs].
  unfold urldecode, urlencode, utf8_encode.
  rewrite percent_decode_encode by (apply utf8_of_scalar_bytes, Hsc).
  rewrite utf8_decode_encode by exact Hsc. exact Hs.
Qed.

Lemma urlencode_chars (s : jsstring) :
  Forall is_unit s -> Forall url_char (urlencode s).
Proof.
  intros Hwf. destruct (scalar_values_units s Hwf) as [Hsc _].
  unfold urlencode, utf8_encode.
  pose proof (utf8_of_scalar_bytes _ Hsc) as Hb.
  induction Hb as [|b bs Hb _ IH]; [constructor|].
  cbn [map concat]. apply Forall_app. split; [apply urlencode_byte_chars, Hb | exact IH].
Qed.

(** An ASCII string is its own UTF-8 form. *)
Lemma utf8_encode_ascii (t : jsstring) :
  Forall (fun c => 0 <= c < 128) t -> utf8_encode t = t.
Proof.
  unfold utf8_encode. induction 1 as [|c t Hc _ IH]; [reflexivity|].
  cbn [scalar_values]. unfold is_high, is_low.
  replace ((55296 <=? c) && (c <=? 56319)) with false by lia.
  replace ((56320 <=? c) && (c <=? 57343)) with false by lia.
  cbn [map concat]. rewrite IH. unfold utf8_of_scalar.
  replace (c <? 128) with true by lia. reflexivity.
Qed.

Lemma split_on_app (sep : Z) (a rest : list Z) :
  sep ∉ a -> split_on sep (a ++ sep :: rest) = a :: split_on sep rest.
Proof.
  induction a as [|x a IH]; intros Hno; cbn [app split_on].
  - rewrite Z.eqb_refl. reflexivity.
  - rewrite not_elem_of_cons in Hno. destruct Hno as [Hne Hno].
    destruct (Z.eqb_spec x sep); [congruence|]. rewrite (IH Hno). reflexivity.
Qed.

Lemma split_on_none (sep : Z) (a : list Z) :
  sep ∉ a -> split_on sep a = [a].
Proof.
  induction a as [|x a IH]; intros Hno; cbn [split_on]; [reflexivity|].
  rewrite not_elem_of_cons in Hno. destruct Hno as [Hne Hno].
  destruct (Z.eqb_spec x sep); [congruence|]. rewrite (IH Hno). reflexivity.
Qed.

Lemma break_eq_app (n v : list Z) :
  0x3D ∉ n -> break_eq (n ++ 0x3D :: v) = (n, v).
Proof.
  induction n as [|x n IH]; intros Hno; cbn [app break_eq]; [reflexivity|].
  rewrite not_elem_of_cons in Hno. destruct Hno as [Hne Hno].
  destruct (Z.eqb_spec x 0x3D); [congruence|]. rewrite (IH Hno). reflexivity.
Qed.

Lemma url_char_not_in (c : Z) (t : list Z) :
  Forall url_char t -> c = 0x26 \/ c = 0x3D -> c ∉ t.
Proof.
  intros Ht Hc Hin. rewrite Forall_forall in Ht. specialize (Ht c Hin).
  unfold url_char in Ht. lia.
Qed.

Lemma url_name_chars :
  Forall url_char (str "q") /\ Forall url_char (str "status") /\
  Forall url_char (str "sort").
Proof. unfold url_char. repeat split; repeat constructor; vm_compute; congruence. Qed.

(** One serialised pair is read back as the pair. *)
Lemma parse_pair (n v : jsstring) :
  Forall url_char n -> Forall is_unit v ->
  break_eq (n ++ 0x3D :: urlencode v) = (n, urlencode v) /\
  (0x26 ∉ n ++ 0x3D :: urlencode v) /\
  Forall (fun c => 0 <= c < 128) (n ++ 0x3D :: urlencode v).
Proof.
  intros Hn Hv. pose proof (urlencode_chars v Hv) as He.
  split; [|split].
  - apply break_eq_app. apply url_char_not_in with (1 := Hn). right. reflexivity.
  - rewrite elem_of_app, elem_of_cons.
    intros [H | [H | H]]; [|discriminate|].
    + revert H. apply url_char_not_in with (1 := Hn). left. reflexivity.
    + revert H. apply url_char_not_in with (1 := He). left. reflexivity.
  - apply Forall_app. split; [|constructor; [lia|]].
    + eapply Forall_impl; [exact Hn|]. unfold url_char. intros; lia.
    + eapply Forall_impl; [exact He|]. unfold url_char. intros; lia.
Qed.

(** What [writeStateToURL] puts in the query string is read back by
    [new URLSearchParams] as the three parameters, lone surrogates
    replaced. *)
Lemma URLSearchParams_round_trip (a b c : jsstring) :
  Forall is_unit a -> Forall is_unit b -> Forall is_unit c ->
  URLSearchParams_new
    ([0x3F] ++ URLSearchParams_toString
                 [(str "q", a); (str "status", b); (str "sort", c)]) =
  [(str "q", toWellFormed a); (str "status", toWellFormed b);
   (str "sort", toWellFormed c)].
Proof.
  intros Ha Hb Hc.
  destruct url_name_chars as (Nq & Ns & No).
  destruct (parse_pair (str "q") a Nq Ha) as (Bq & Aq & Cq).
  destruct (parse_pair (str "status") b Ns Hb) as (Bs & As & Cs).
  destruct (parse_pair (str "sort") c No Hc) as (Bo & Ao & Co).
  unfold URLSearchParams_new, URLSearchParams_toString. cbn [app map join].
  change (urlencode (str "q")) with (str "q").
  change (urlencode (str "status")) with (str "status").
  change (urlencode (str "sort")) with (str "sort").
  set (p1 := str "q" ++ 0x3D :: urlencode a) in *.
  set (p2 := str "status" ++ 0x3D :: urlencode b) in *.
  set (p3 := str "sort" ++ 0x3D :: urlencode c) in *.
  unfold urlencoded_parse.
  rewrite utf8_encode_ascii
    by (apply Forall_app; split; [exact Cq|]; constructor; [lia|];
        apply Forall_app; split; [exact Cs|]; constructor; [lia | exact Co]).
  rewrite (split_on_app 0x26 p1) by exact Aq.
  rewrite (split_on_app 0x26 p2) by exact As.
  rewrite (split_on_none 0x26 p3) by exact Ao.
  assert (Hne : List.filter nonempty [p1; p2; p3] = [p1; p2; p3]) by reflexivity.
  rewrite Hne. cbn [map]. rewrite Bq, Bs, Bo.
  rewrite !urldecode_urlencode by assumption.
  reflexivity.
Qed.

Section UrlProperties.

Context (History_url : Browser -> jsstring -> option (jsstring * jsstring * jsstring)).

Lemma params_of_state (state : State) :
  params_set (params_set (params_set [] (str "q") (s_query state))
                (str "status") (s_status state)) (str "sort") (s_sort state) =
  [(str "q", s_query state); (str "status", s_status state);
   (str "sort", s_sort state)].
Proof. reflexivity. Qed.

(** On a page whose history takes the URL, [writeStateToURL] returns, and
    the location then has the page's path and fragment and the query string
    made of the state. *)
Lemma writeStateToURL_taken (state : State) (w : Browser) (replace : bool) :
  takes_url History_url w state ->
  writeStateToURL History_url replace state w =
  Return (mkBrowser (pathname w) ([0x3F] ++ query_string state) (hash w)
            ((pathname w ++ [0x3F] ++ query_string state ++ hash w)
             :: (if replace then tail (history w) else history w))).
Proof.
  unfold takes_url, writeStateToURL, query_string. rewrite params_of_state.
  intros ->. destruct replace; reflexivity.
Qed.

(** What is read back after a write: the state written, lone surrogates
    replaced. *)
Lemma read_after_write (state other : State) (w : Browser) (replace : bool) :
  Forall is_unit (s_query state) -> Forall is_unit (s_status state) ->
  Forall is_unit (s_sort state) ->
  takes_url History_url w state ->
  exists w',
    writeStateToURL History_url replace state w = Return w' /\
    URLSearchParams_new (search w') =
      [(str "q", toWellFormed (s_query state));
       (str "status", toWellFormed (s_status state));
       (str "sort", toWellFormed (s_sort state))] /\
    readStateFromURL w' other =
      mkState (s_mods other) (toWellFormed (s_query state))
        (toWellFormed (s_status state)) (toWellFormed (s_sort state))
        (s_stats other).
Proof.
  intros Hq Hs Ho Htakes.
  eexists. split; [apply writeStateToURL_taken, Htakes|].
  assert (Hps : URLSearchParams_new ([0x3F] ++ query_string state) =
      [(str "q", toWellFormed (s_query state));
       (str "status", toWellFormed (s_status state));
       (str "sort", toWellFormed (s_sort state))])
    by (apply URLSearchParams_round_trip; assumption).
  split; [exact Hps|].
  unfold readStateFromURL. cbn [search]. rewrite Hps. reflexivity.
Qed.

(** For a state of well-formed strings what is read back is the state
    written. *)
Lemma url_round_trip_of_state (state other : State) (w : Browser) (replace : bool) :
  isWellFormed (s_query state) = true ->
  isWellFormed (s_status state) = true ->
  isWellFormed (s_sort state) = true ->
  takes_url History_url w state ->
  exists w',
    writeStateToURL History_url replace state w = Return w' /\
    readStateFromURL w' other =
    mkState (s_mods other) (s_query state) (s_status state) (s_sort state)
      (s_stats other).
Proof.
  intros Hq Hs Ho Htakes.
  apply isWellFormed_units in Hq, Hs, Ho.
  destruct Hq as [Uq Eq], Hs as [Us Es], Ho as [Uo Eo].
  destruct (read_after_write state other w replace Uq Us Uo Htakes)
    as (w' & Hw & _ & Hread).
  rewrite Eq, Es, Eo in Hread. exists w'. split; assumption.
Qed.

(** C5, as the code has it.  For a state of well-formed strings, empty ones
    included, on a page whose history takes the URL, writing the state to
    the URL puts the three parameters [q], [status] and [sort] in the query
    string, and reading the URL back gives the same query, status and sort.
    Reading takes a field's default exactly when its parameter is absent: a
    parameter that is there with an empty value gives the empty string. *)
Theorem url_state_round_trip (state other : State) (w : Browser) (replace : bool) :
  isWellFormed (s_query state) = true ->
  isWellFormed (s_status state) = true ->
  isWellFormed (s_sort state) = true ->
  takes_url History_url w state ->
  exists w',
    writeStateToURL History_url replace state w = Return w' /\
    URLSearchParams_new (search w') =
      [(str "q", s_query state); (str "status", s_status state);
       (str "sort", s_sort state)]
    /\ readStateFromURL w' other =
       mkState (s_mods other) (s_query state) (s_status state) (s_sort state)
         (s_stats other)
    /\ forall (w0 : Browser) (st0 : State),
         let ps := URLSearchParams_new (search w0) in
         s_query (readStateFromURL w0 st0) =
           default DEFAULTS_query (params_get ps (str "q")) /\
         s_status (readStateFromURL w0 st0) =
           default DEFAULTS_status (params_get ps (str "status")) /\
         s_sort (readStateFromURL w0 st0) =
           default DEFAULTS_sort (params_get ps (str "sort")).
Proof.
  intros Hq Hs Ho Htakes.
  apply isWellFormed_units in Hq, Hs, Ho.
  destruct Hq as [Uq Eq], Hs as [Us Es], Ho as [Uo Eo].
  destruct (read_after_write state other w replace Uq Us Uo Htakes)
    as (w' & Hw & Hps & Hread).
  rewrite Eq, Es, Eo in Hps, Hread.
  exists w'. split; [exact Hw|]. split; [exact Hps|]. split; [exact Hread|].
  intros w0 st0 ps. subst ps. unfold readStateFromURL. cbn [s_query s_status s_sort].
  repeat split; destruct (params_get _ _); reflexivity.
Qed.

End UrlProperties.


(** ** Worked examples *)

(** C1.  Validation should return the normalised records of every parsed
    tree, a tag that is no string being dropped; on a record whose tag list
    holds a number it raises instead, whatever the host functions are:
    [map] hands [safeToString] the index as fallback, and a number has no
    [trim]. *)
Theorem validate_raises_on_numeric_tag
    (toLowerCase : jsstring -> jsstring) (Date_getTime : jsstring -> option Z)
    (Number_of_string : jsstring -> number)
    (encodeURIComponent : jsstring -> outcome jsstring) :
  validateAndNormalizeData toLowerCase Date_getTime Number_of_string
    encodeURIComponent numeric_tag_tree = Throw TypeError.
Proof. reflexivity. Qed.

Lemma sample_validate_returns : sample_validate sample_tree = Return sample_catalog.
Proof. vm_compute. reflexivity. Qed.

Lemma sample_catalog_items :
  Forall (catalog_item Sample.toLowerCase Sample.Date_getTime
            Sample.Number_of_string Sample.encodeURIComponent) sample_catalog.
Proof. exact (validate_items _ _ _ _ _ _ sample_validate_returns). Qed.

(** The sample file validates to the first record of each [id], the string,
    the null and the blank-named record left out. *)
Example sample_validate_refined :
  map m_id sample_catalog = [str "a"; str "b"] /\
  map m_name sample_catalog = [str "Mod A"; str "beta"] /\
  sample_stats = mkStats 2 1 1.
Proof. vm_compute. repeat split. Qed.

Lemma compare_units_refl (a : jsstring) : Sample.compare_units a a = 0.
Proof.
  induction a as [|x a IH]; [reflexivity|]. simpl.
  rewrite Z.ltb_irrefl. exact IH.
Qed.

Lemma sample_localeCompare_refl (a : jsstring) : Sample.localeCompare a a = 0.
Proof. apply compare_units_refl. Qed.

Lemma normalizeMod_rejects_iff_witness :
  In (str "name") mandatory_fields /\
  get blank_name_raw (str "name") = VStr (str "   ") /\
  forallb is_trim_space (str "   ") = true /\
  normalizeMod Sample.toLowerCase Sample.Date_getTime Sample.Number_of_string
    Sample.encodeURIComponent blank_name_raw = Return None.
Proof.
  assert (Hin : In (str "name") mandatory_fields) by (simpl; tauto).
  split; [exact Hin|]. split; [reflexivity|]. split; [reflexivity|].
  exact (proj2 (normalizeMod_rejects_iff Sample.toLowerCase Sample.Date_getTime
                  Sample.Number_of_string Sample.encodeURIComponent
                  (match blank_name_raw with VObj props => props | _ => [] end))
           (str "name") (str "   ") Hin eq_refl eq_refl).
Defined.

Lemma sample_Number_reads :
  (forall s, StringNumericLiteral s = None -> Sample.Number_of_string s = NaN) /\
  (forall s, StringNumericLiteral s = Some Blank ->
             Sample.Number_of_string s = of_Z 0) /\
  (forall s negative,
     StringNumericLiteral s = Some (Infinite negative) ->
     Sample.Number_of_string s = if negative then NegInf else PosInf).
Proof.
  repeat split; intros s; intros; unfold Sample.Number_of_string;
    match goal with H : StringNumericLiteral _ = _ |- _ => rewrite H end;
    reflexivity.
Qed.

(** Numerals and what is none: a fraction, a hexadecimal integer between
    white space, an exponent, a signed infinity, white space, a number with
    a unit, a lone prefix, a signed hexadecimal. *)
Example numeric_literals :
  map StringNumericLiteral
    [str "12.5"; str " 0x1F "; str "1e3"; str "-Infinity"; str "  "; str "12 MB";
     str "0x"; str "-0x10"] =
  [Some (Real (25 # 2)); Some (Real 31); Some (Real 1000); Some (Infinite true);
   Some Blank; None; None; None].
Proof. reflexivity. Qed.

(** The sizes of the records of the second data file: 12.5 for the string
    " 12.5 ", zero for the empty string, none for "12 MB" and for the
    records without the field. *)
Example dated_sizes :
  map m_size_mb dated_catalog =
  [None; Some (Fin (25 # 2)); Some (of_Z 0); None; None].
Proof. reflexivity. Qed.

Lemma size_mb_coercion_witness :
  normalizeMod Sample.toLowerCase Sample.Date_getTime Sample.Number_of_string
    Sample.encodeURIComponent sunrise1_raw = Return (Some sunrise1) /\
  get sunrise1_raw (str "size_mb") = VStr (str " 12.5 ") /\
  m_size_mb sunrise1 = Some (Fin (25 # 2)).
Proof.
  assert (H : normalizeMod Sample.toLowerCase Sample.Date_getTime
                Sample.Number_of_string Sample.encodeURIComponent sunrise1_raw
              = Return (Some sunrise1)) by (vm_compute; reflexivity).
  split; [exact H|]. split; [reflexivity|].
  rewrite (proj1 (size_mb_coercion _ _ _ _ sunrise1_raw sunrise1
                    (proj1 sample_Number_reads)
                    (proj1 (proj2 sample_Number_reads))
                    (proj2 (proj2 sample_Number_reads)) H)).
  vm_compute. reflexivity.
Defined.

(** C7 as stated fails.  The empty string holds no numeral, so that the
    specification's wording gives null for it; the record whose [size_mb] is
    the empty string is normalised with the size zero. *)
Lemma size_mb_of_empty_string :
  numeric_string [] = false /\
  get sunrise2_raw (str "size_mb") = VStr [] /\
  normalizeMod Sample.toLowerCase Sample.Date_getTime Sample.Number_of_string
    Sample.encodeURIComponent sunrise2_raw = Return (Some sunrise2) /\
  m_size_mb sunrise2 = Some (of_Z 0) /\
  size_mb_as_specified Sample.Number_of_string (get sunrise2_raw (str "size_mb"))
    = None /\
  m_size_mb sunrise2
    <> size_mb_as_specified Sample.Number_of_string
         (get sunrise2_raw (str "size_mb")).
Proof.
  split; [reflexivity|]. split; [reflexivity|]. split; [vm_compute; reflexivity|].
  split; [reflexivity|]. split; [reflexivity|]. vm_compute. discriminate.
Qed.

Lemma calculateStats_counts_witness :
  sample_validate sample_tree = Return sample_catalog /\
  total sample_stats = 2%nat /\ completed sample_stats = 1%nat /\
  inProgress sample_stats = 1%nat.
Proof.
  split; [exact sample_validate_returns|].
  destruct (calculateStats_counts Sample.toLowerCase Sample.Date_getTime
              Sample.Number_of_string Sample.encodeURIComponent
              sample_tree sample_catalog sample_validate_returns)
    as (T & C & P & _).
  split; [exact T|]. split; [exact C | exact P].
Defined.

Lemma dated_validate_returns : sample_validate dated_tree = Return dated_catalog.
Proof. vm_compute. reflexivity. Qed.

Lemma dated_catalog_items :
  Forall (catalog_item Sample.toLowerCase Sample.Date_getTime
            Sample.Number_of_string Sample.encodeURIComponent) dated_catalog.
Proof. exact (validate_items _ _ _ _ _ _ dated_validate_returns). Qed.

(** A key can be looked for among the names of [Object.prototype]. *)
Lemma key_not_inherited (key : jsstring) :
  existsb (streq key) object_prototype_keys = false ->
  ~ In key object_prototype_keys.
Proof. intros H Hin. apply In_existsb_streq in Hin. congruence. Qed.

(** The search for "Sun" among the completed records, by name downwards:
    the two called Sunrise, in catalog order; Dawn fails the query and
    Sunset the status filter. *)
Example sun_view :
  applyFiltersAndSort Sample.toLowerCase Sample.localeCompare sun_state =
  Return [sunrise1; sunrise2].
Proof. vm_compute. reflexivity. Qed.

Lemma view_membership_witness :
  exists out,
    applyFiltersAndSort Sample.toLowerCase Sample.localeCompare sun_state = Return out /\
    out = [sunrise1; sunrise2] /\
    (In sunrise2 out <->
     In sunrise2 (s_mods sun_state) /\
     view_selects Sample.toLowerCase sun_state sunrise2) /\
    (In sunset out <->
     In sunset (s_mods sun_state) /\
     view_selects Sample.toLowerCase sun_state sunset) /\
    (In dawn out <->
     In dawn (s_mods sun_state) /\ view_selects Sample.toLowerCase sun_state dawn).
Proof.
  destruct (view_membership Sample.toLowerCase Sample.Date_getTime
              Sample.Number_of_string Sample.encodeURIComponent
              Sample.localeCompare sun_state dated_catalog_items
              (key_not_inherited (str "name_desc") eq_refl))
    as (out & Hout & Hmem & _).
  exists out. split; [exact Hout|].
  split; [vm_compute in Hout; injection Hout as <-; reflexivity|].
  split; [apply Hmem|]. split; apply Hmem.
Defined.

(** C3 as stated fails: at the URL [?q=+mod] the query is " mod"; trimmed and
    lower-cased it occurs in the haystack of the first sample record, which
    the specification's wording therefore selects, and the view, which is
    empty, leaves the record out. *)
Lemma view_query_not_trimmed :
  s_query spaced_query_state = str " mod" /\
  applyFiltersAndSort Sample.toLowerCase Sample.localeCompare spaced_query_state
    = Return [] /\
  ~ (In sample_mod [] <->
     In sample_mod (s_mods spaced_query_state) /\
     view_selects_trimmed Sample.toLowerCase spaced_query_state sample_mod).
Proof.
  split; [reflexivity|]. split; [vm_compute; reflexivity|]. intros [_ Hback].
  apply Hback.
  split; [left; reflexivity|]. split; [right | left]; vm_compute; reflexivity.
Qed.

Lemma compare_units_trans (a : jsstring) :
  forall b c,
    Sample.compare_units a b <= 0 -> Sample.compare_units b c <= 0 ->
    Sample.compare_units a c <= 0.
Proof.
  induction a as [|x a IH]; intros [|y b] [|z c]; simpl; try lia.
  destruct (Z.ltb_spec x y), (Z.ltb_spec y x), (Z.ltb_spec y z), (Z.ltb_spec z y),
    (Z.ltb_spec x z), (Z.ltb_spec z x); try lia.
  apply IH.
Qed.

Lemma sample_localeCompare_trans (a b c : jsstring) :
  Sample.localeCompare a b <= 0 -> Sample.localeCompare b c <= 0 ->
  Sample.localeCompare a c <= 0.
Proof. apply compare_units_trans. Qed.

(** Under [date_asc] the two records of 2024-01-01 keep their catalog order
    behind the older one, and the two undated records come last, in catalog
    order. *)
Lemma view_sort_stable_nulls_last_witness :
  exists out,
    applyFiltersAndSort Sample.toLowerCase Sample.localeCompare
      (dated_state (str "date_asc")) = Return out /\
    out = [dawn; sunrise1; sunrise2; nightfall; sunset] /\
    List.filter (same_sort_key (str "date_asc") sunrise1) out = [sunrise1; sunrise2] /\
    List.filter (same_sort_key (str "date_asc") nightfall) out = [nightfall; sunset] /\
    (out !! 3%nat = Some nightfall -> out !! 2%nat = Some sunrise2 ->
     m_releaseDateMs nightfall = None -> m_releaseDateMs sunrise2 <> None ->
     (2 < 3)%nat).
Proof.
  destruct (view_sort_stable_nulls_last Sample.toLowerCase Sample.localeCompare
              (dated_state (str "date_asc"))
              sample_localeCompare_refl sample_localeCompare_trans
              (key_not_inherited (str "date_asc") eq_refl))
    as (out & Hout & _ & Hkey & _ & Hlast).
  exists out. split; [exact Hout|].
  assert (E : out = [dawn; sunrise1; sunrise2; nightfall; sunset]).
  { vm_compute in Hout. injection Hout as <-. reflexivity. }
  split; [exact E|].
  split; [etransitivity; [exact (Hkey sunrise1) | vm_compute; reflexivity]|].
  split; [etransitivity; [exact (Hkey nightfall) | vm_compute; reflexivity]|].
  exact (Hlast eq_refl 3%nat 2%nat nightfall sunrise2).
Defined.

(** C4.  The specification's sort is stable and puts the records without a
    timestamp last, the default comparator being applied when the sort key
    is not recognised; and so the code does under every key that is no name
    of [Object.prototype] ([view_sort_stable_nulls_last]).  But the lookup
    [sorters[state.sort]] finds the members the object inherits, too.  At
    [?sort=toString] the whole catalog comes out in catalog order, the
    undated [nightfall] before the dated records, where the default gives
    them newest first and the undated last; so at [?sort=constructor]; at
    [?sort=__proto__] and at [?sort=valueOf] the view raises. *)
Theorem view_unsorted_under_inherited_key :
  let view key :=
    applyFiltersAndSort Sample.toLowerCase Sample.localeCompare (dated_state key) in
  view (str "date_desc") = Return [sunrise1; sunrise2; dawn; nightfall; sunset] /\
  view (str "by_size") = Return [sunrise1; sunrise2; dawn; nightfall; sunset] /\
  view (str "toString") = Return [nightfall; sunrise1; sunrise2; dawn; sunset] /\
  view (str "constructor") = Return [nightfall; sunrise1; sunrise2; dawn; sunset] /\
  view (str "__proto__") = Throw TypeError /\
  view (str "valueOf") = Throw TypeError /\
  m_releaseDateMs nightfall = None /\
  m_releaseDateMs sunrise1 = Some 1704067200000.
Proof. vm_compute. repeat split. Qed.

(** A query cut off in the middle of a three-byte sequence: the two bytes
    that were in range read as one U+FFFD, and the letter after them as
    itself. *)
Example truncated_sequence_read :
  s_query (readStateFromURL (mkBrowser (str "/") (str "?q=%E2%82A") [] []) by_name_state)
  = [0xFFFD; 0x41].
Proof. reflexivity. Qed.

Lemma sample_takes_url :
  takes_url Sample.History_url sample_browser cyrillic_state.
Proof. vm_compute. reflexivity. Qed.

Lemma url_state_round_trip_witness :
  exists w',
    writeStateToURL Sample.History_url true cyrillic_state sample_browser = Return w' /\
    search w' =
      str "?q=%D0%9F%D1%80%D0%B8%D0%B2%D0%B5%D1%82&status=&sort=" /\
    readStateFromURL w' by_name_state = cyrillic_state.
Proof.
  destruct (url_state_round_trip Sample.History_url cyrillic_state by_name_state
              sample_browser true eq_refl eq_refl eq_refl sample_takes_url)
    as (w' & Hw & _ & Hread & _).
  exists w'. split; [exact Hw|]. split; [|exact Hread].
  vm_compute in Hw. injection Hw as <-. vm_compute. reflexivity.
Defined.

(** C5 as stated fails.  A query that is one lone surrogate is written as
    [%EF%BF%BD], the UTF-8 form of U+FFFD, and U+FFFD is what is read back:
    the state read is another than the state written.  And on a page whose
    path begins with two slashes the history refuses the URL: nothing is
    written, and reading gives the defaults of the old URL. *)
Lemma lone_surrogate_not_read_back :
  (exists w',
     writeStateToURL Sample.History_url true lone_surrogate_state sample_browser
       = Return w' /\
     search w' = str "?q=%EF%BF%BD&status=all&sort=date_desc" /\
     s_query (readStateFromURL w' lone_surrogate_state) = [0xFFFD] /\
     readStateFromURL w' lone_surrogate_state <> lone_surrogate_state) /\
  writeStateToURL Sample.History_url true by_name_state double_slash_browser
    = Throw SecurityError /\
  readStateFromURL double_slash_browser by_name_state <> by_name_state.
Proof.
  split; [|split].
  - eexists. split; [vm_compute; reflexivity|].
    split; [vm_compute; reflexivity|]. split; [vm_compute; reflexivity|].
    intros E. apply (f_equal s_query) in E. vm_compute in E. discriminate E.
  - vm_compute. reflexivity.
  - intros E. apply (f_equal s_sort) in E. vm_compute in E. discriminate E.
Qed.

Lemma cache_round_trip_and_eviction_witness :
  (getCachedData (Sample.JSON_parse sample_catalog) (1700000000000 + 1000)
     (setCachedData Sample.JSON_stringify Sample.storage_accepts 1700000000000
        sample_catalog ∅)).1 = Some sample_catalog /\
  (getCachedData (Sample.JSON_parse sample_catalog) 6 stale_storage).1 = None /\
  (getCachedData (Sample.JSON_parse sample_catalog) 6 stale_storage).2 !! CACHE_KEY
    = None.
Proof.
  destruct (cache_round_trip_and_eviction Sample.JSON_stringify
              (Sample.JSON_parse sample_catalog) Sample.storage_accepts)
    as [Hround Hevict].
  split.
  - apply Hround.
    + reflexivity.
    + reflexivity.
    + vm_compute. discriminate.
    + vm_compute. reflexivity.
    + vm_compute. discriminate.
  - assert (H : stale_storage !! CACHE_KEY = Some (str "[]")) by reflexivity.
    assert (H' : stale_storage !! CACHE_EXPIRY_KEY = Some (String_of_Z 5))
      by reflexivity.
    assert (Hne : str "[]" <> []) by (vm_compute; discriminate).
    destruct (Hevict 6 5 (str "[]") stale_storage H Hne H' eq_refl)
      as (E1 & E2 & _).
    split; [exact E1 | exact E2].
Defined.

Lemma truncateUnicode_cut_witness :
  (5 < length (spread (safeToStr (VStr (str "abc de fgh")) [])))%nat /\
  text (truncateUnicode (VStr (str "abc de fgh")) 5 true ellipsis) =
  str "abc d" ++ ellipsis.
Proof.
  assert (Hlen : (5 < length (spread (safeToStr (VStr (str "abc de fgh")) [])))%nat)
    by (vm_compute; lia).
  split; [exact Hlen|].
  destruct (truncateUnicode_cut (VStr (str "abc de fgh")) 5 true Hlen)
    as (_ & _ & H3).
  assert (Hbmp : Forall (fun c : jsstring => length c = 1%nat)
            (take 5 (spread (safeToStr (VStr (str "abc de fgh")) []))))
    by (vm_compute; repeat constructor).
  destruct (H3 eq_refl Hbmp) as [Hi _].
  refine (Hi 3%nat _ eq_refl _); [lia|].
  intros j Hj. assert (j = 4%nat) as -> by lia. vm_compute. discriminate.
Defined.

(** C8 as stated fails.  In "abc de fgh" cut to 5 the last space stands at
    position 3 of 5, which is 60%: the specification's wording backs off to
    "abc", the code keeps "abc d".  In "😀😀 abcdef" cut to 5 the space is
    the third code point, before 60%, and the code backs off all the same,
    for it counts the position in code units. *)
Lemma truncate_sixty_percent_counterexample :
  (text (truncateUnicode (VStr (str "abc de fgh")) 5 true ellipsis)
     = str "abc d" ++ ellipsis /\
   text (truncate_as_specified (VStr (str "abc de fgh")) 5 true)
     = str "abc" ++ ellipsis) /\
  (text (truncateUnicode (VStr astral_text) 5 true ellipsis)
     = [0xD83D; 0xDE00; 0xD83D; 0xDE00] ++ ellipsis /\
   text (truncate_as_specified (VStr astral_text) 5 true)
     = [0xD83D; 0xDE00; 0xD83D; 0xDE00] ++ str " ab" ++ ellipsis) /\
  truncateUnicode (VStr (str "abc de fgh")) 5 true ellipsis
    <> truncate_as_specified (VStr (str "abc de fgh")) 5 true.
Proof.
  repeat split; try (vm_compute; reflexivity).
  vm_compute. discriminate.
Qed.

(** 'Привет мир' cut to 5 is 'Приве' and the ellipsis. *)
Example truncate_privet_mir :
  truncateUnicode (VStr privet_mir) 5 true ellipsis =
  mkTruncation ([0x41F; 0x440; 0x438; 0x432; 0x435] ++ ellipsis) true.
Proof. reflexivity. Qed.

Lemma truncateUnicode_result_witness :
  truncateUnicode (VStr (str " abc ")) 5 true ellipsis = mkTruncation (str "abc") false
  /\ length (spread (text (truncateUnicode (VStr (str "abc de fgh")) 5 false
                              ellipsis))) = 6%nat.
Proof.
  split.
  - refine (proj1 (truncateUnicode_result (VStr (str " abc ")) 5 true) _).
    vm_compute. lia.
  - assert (Hlen : (5 < length (spread (safeToStr (VStr (str "abc de fgh")) [])))%nat)
      by (vm_compute; lia).
    destruct (proj2 (truncateUnicode_result (VStr (str "abc de fgh")) 5 false) Hlen)
      as (_ & kept & rest & _ & _ & _ & _ & _ & Hexact).
    exact (Hexact eq_refl).
Defined.

(** * Further properties

    What the code does beyond the specification's sentences: the shape of a
    normalised record, the errors of normalisation, the order of the view,
    the edges of the cache, and the functions around the catalog engine. *)

(** ** Normalised records *)

Section NormalizeMore.

Context (toLowerCase : jsstring -> jsstring) (Date_getTime : jsstring -> option Z)
  (Number_of_string : jsstring -> number)
  (encodeURIComponent : jsstring -> outcome jsstring).

Local Abbreviation normalize :=
  (normalizeMod toLowerCase Date_getTime Number_of_string encodeURIComponent).

Lemma array_map_from_inv (l : list value) :
  forall i ys,
    array_map_from safeToString i l = Return ys ->
    forallb is_string l = true /\
    ys = map (fun v => safeToStr v []) l.
Proof.
  induction l as [|v l IH]; intros i ys; simpl.
  - intros H. injection H as <-. split; reflexivity.
  - destruct v; simpl; try discriminate.
    destruct (array_map_from safeToString (i + 1) l) as [ys'|e] eqn:E; simpl;
      [|discriminate].
    intros H. injection H as <-.
    destruct (IH _ _ E) as [Hs ->]. split; [exact Hs | reflexivity].
Qed.

Lemma array_map_from_raises (l : list value) :
  forall i, forallb is_string l = false ->
    array_map_from safeToString i l = Throw TypeError.
Proof.
  induction l as [|v l IH]; intros i; simpl; [discriminate|].
  destruct v; simpl; try reflexivity.
  intros H. rewrite (IH _ H). reflexivity.
Qed.

Lemma array_map_from_returns (l : list value) :
  forall i, forallb is_string l = true ->
    array_map_from safeToString i l = Return (map (fun v => safeToStr v []) l).
Proof.
  induction l as [|v l IH]; intros i; simpl; [reflexivity|].
  destruct v; simpl; try discriminate.
  intros H. rewrite (IH _ H). reflexivity.
Qed.

Lemma string_list_cases (x : value) :
  string_list x =
  if forallb is_string (toArray x)
  then Return (List.filter nonempty (map (fun v => safeToStr v []) (toArray x)))
  else Throw TypeError.
Proof.
  unfold string_list, array_map.
  destruct (forallb is_string (toArray x)) eqn:E.
  - rewrite (array_map_from_returns _ _ E). reflexivity.
  - rewrite (array_map_from_raises _ _ E). reflexivity.
Qed.

Lemma string_list_trimmed (x : value) (l : list jsstring) :
  string_list x = Return l -> Forall trimmed_text l.
Proof.
  rewrite string_list_cases. destruct (forallb _ _); [|discriminate].
  intros H. injection H as <-.
  apply Forall_forall. intros s Hs.
  apply list_elem_of_In, filter_In in Hs. destruct Hs as [Hin Hne].
  apply in_map_iff in Hin. destruct Hin as (v & <- & _).
  split; [|apply trim_idemp].
  intros E. rewrite E in Hne. discriminate.
Qed.


Lemma normalizeMod_inv (raw : value) (r : Mod) :
  normalize raw = Return (Some r) ->
  exists mirrors imageUrl downloadUrl tags warnings,
    string_list (get raw (str "mirrors")) = Return mirrors /\
    url_or_drive (safeToStr (get raw (str "image")) [])
      (safeToStr (get raw (str "image_id")) [])
      (getDriveViewUrl encodeURIComponent) = Return imageUrl /\
    url_or_drive (safeToStr (get raw (str "drive_url")) [])
      (safeToStr (get raw (str "file_id")) [])
      (getDriveDownloadUrl encodeURIComponent) = Return downloadUrl /\
    string_list (get raw (str "tags")) = Return tags /\
    string_list (get raw (str "warnings")) = Return warnings /\
    Forall (fun k => safeToStr (get raw k) [] <> []) mandatory_fields /\
    m_imageUrl r = imageUrl /\ m_downloadUrl r = downloadUrl /\
    m_source_url r = safeToStr (get raw (str "source_url")) [] /\
    m_mirrors r = mirrors /\ m_tags r = tags /\ m_warnings r = warnings.
Proof.
  unfold normalizeMod. destruct (is_nullish raw); [discriminate|].
  destruct (negb _ || _ || _ || _ || _ || _) eqn:E; [discriminate|].
  rewrite !orb_false_iff, !negb_false_iff in E.
  destruct E as (((((E1 & E2) & E3) & E4) & E5) & E6).
  intros H.
  apply bind_Return_inv in H. destruct H as (mirrors & Hm & H).
  apply bind_Return_inv in H. destruct H as (imageUrl & Hi & H).
  apply bind_Return_inv in H. destruct H as (downloadUrl & Hd & H).
  apply bind_Return_inv in H. destruct H as (tags & Ht & H).
  apply bind_Return_inv in H. destruct H as (warnings & Hw & H).
  apply bind_Return_inv in H. destruct H as (h & Hh & H).
  injection H as <-.
  exists mirrors, imageUrl, downloadUrl, tags, warnings.
  repeat split; try assumption.
  unfold mandatory_fields.
  repeat (constructor; [intros Hx; rewrite Hx in *; discriminate|]).
  constructor.
Qed.


Lemma safeToStr_trimmed (v : value) :
  safeToStr v [] <> [] -> trimmed_text (safeToStr v []).
Proof. intros H. split; [exact H | apply trim_idemp]. Qed.

Lemma record_fields_trimmed (raw : value) (r : Mod) :
  normalize raw = Return (Some r) ->
  Forall trimmed_text
    [m_id r; m_name r; m_description r; m_status r; m_release_date r;
     m_original_author r].
Proof.
  intros H.
  pose proof (normalizeMod_record _ _ _ _ raw r H)
    as (Hid & Hname & Hdesc & Hstatus & Hdate & Hauthor & _).
  destruct (normalizeMod_inv raw r H)
    as (_ & _ & _ & _ & _ & _ & _ & _ & _ & _ & Hmand & _).
  rewrite Hid, Hname, Hdesc, Hstatus, Hdate, Hauthor.
  unfold mandatory_fields in Hmand.
  repeat match goal with
         | Hf : Forall _ (_ :: _) |- _ =>
             apply Forall_cons in Hf; destruct Hf as [? Hf]
         end.
  repeat (constructor; [apply safeToStr_trimmed; assumption|]). constructor.
Qed.

Lemma record_lists_trimmed (raw : value) (r : Mod) :
  normalize raw = Return (Some r) ->
  Forall trimmed_text (m_mirrors r) /\ Forall trimmed_text (m_tags r) /\
  Forall trimmed_text (m_warnings r).
Proof.
  intros H.
  destruct (normalizeMod_inv raw r H)
    as (mirrors & imageUrl & downloadUrl & tags & warnings
        & Hm & _ & _ & Ht & Hw & _ & _ & _ & _ & Em & Et & Ew).
  rewrite Em, Et, Ew. repeat split; eapply string_list_trimmed; eassumption.
Qed.

(** X1.  Every record [normalizeMod] returns has its six mandatory fields
    non-empty and free of white space at either end; its [source_url] is
    trimmed; every entry of [mirrors], [tags] and [warnings] is a non-empty
    trimmed string; and its timestamp is the one [parseDateISO] gives for the
    trimmed release date. *)
Theorem normalizeMod_fields_trimmed (raw : value) (r : Mod) :
  normalize raw = Return (Some r) ->
  Forall trimmed_text
    [m_id r; m_name r; m_description r; m_status r; m_release_date r;
     m_original_author r] /\
  trim (m_source_url r) = m_source_url r /\
  Forall trimmed_text (m_mirrors r ++ m_tags r ++ m_warnings r) /\
  m_releaseDateMs r = parseDateISO Date_getTime (m_release_date r).
Proof.
  intros H.
  pose proof (normalizeMod_record _ _ _ _ raw r H) as (_ & _ & _ & _ & _ & _ & Hms & _).
  destruct (normalizeMod_inv raw r H)
    as (_ & _ & _ & _ & _ & _ & _ & _ & _ & _ & _ & _ & _ & Hsrc & _).
  destruct (record_lists_trimmed raw r H) as (Hm & Ht & Hw).
  split; [exact (record_fields_trimmed raw r H)|].
  split; [rewrite Hsrc; apply trim_idemp|].
  split; [|exact Hms].
  rewrite !Forall_app. tauto.
Qed.


Lemma url_or_drive_cases (direct id prefix u : jsstring) :
  url_or_drive direct id
    (fun i => e ← encodeURIComponent i; Return (prefix ++ e)) = Return u ->
  (direct <> [] -> u = direct) /\
  (direct = [] -> id <> [] ->
   exists e, encodeURIComponent id = Return e /\ u = prefix ++ e) /\
  (direct = [] -> id = [] -> u = []).
Proof.
  unfold url_or_drive. destruct direct as [|c d]; simpl.
  - destruct id as [|c i]; simpl.
    + intros H. injection H as <-. repeat split; congruence.
    + destruct (encodeURIComponent (c :: i)) as [e|] eqn:E; simpl; [|discriminate].
      intros H. injection H as <-.
      repeat split; try congruence. intros _ _. exists e. split; reflexivity.
  - intros H. injection H as <-. repeat split; congruence.
Qed.

(** X2.  In a record [normalizeMod] returns, a direct [image] wins over
    [image_id] and a direct [drive_url] over [file_id]; without the direct
    field the URL is the Google Drive prefix followed by the identifier as
    [encodeURIComponent] writes it; with neither it is empty.  So the
    download URL is empty exactly when neither [drive_url] nor [file_id] is
    given. *)
Theorem normalizeMod_urls (raw : value) (r : Mod) :
  normalize raw = Return (Some r) ->
  let image := safeToStr (get raw (str "image")) [] in
  let image_id := safeToStr (get raw (str "image_id")) [] in
  let drive_url := safeToStr (get raw (str "drive_url")) [] in
  let file_id := safeToStr (get raw (str "file_id")) [] in
  ((image <> [] -> m_imageUrl r = image) /\
   (image = [] -> image_id <> [] ->
    exists e, encodeURIComponent image_id = Return e /\
              m_imageUrl r = DRIVE_VIEW ++ e) /\
   (image = [] -> image_id = [] -> m_imageUrl r = [])) /\
  ((drive_url <> [] -> m_downloadUrl r = drive_url) /\
   (drive_url = [] -> file_id <> [] ->
    exists e, encodeURIComponent file_id = Return e /\
              m_downloadUrl r = DRIVE_DOWNLOAD ++ e) /\
   (drive_url = [] -> file_id = [] -> m_downloadUrl r = [])) /\
  (m_downloadUrl r = [] <-> drive_url = [] /\ file_id = []).
Proof.
  intros H image image_id drive_url file_id.
  destruct (normalizeMod_inv raw r H)
    as (mirrors & imageUrl & downloadUrl & tags & warnings
        & _ & Hi & Hd & _ & _ & _ & Ei & Ed & _).
  apply url_or_drive_cases in Hi. apply url_or_drive_cases in Hd.
  rewrite Ei, Ed. fold image image_id in Hi. fold drive_url file_id in Hd.
  split; [exact Hi|]. split; [exact Hd|].
  destruct Hd as (Hd1 & Hd2 & Hd3).
  destruct drive_url as [|c d] eqn:Edr.
  - destruct file_id as [|c f] eqn:Ef.
    + split; [intros _; split; reflexivity | intros _; apply Hd3; reflexivity].
    + destruct (Hd2 eq_refl) as (e & _ & ->); [discriminate|].
      split; [discriminate | intros [_ Hx]; discriminate].
  - rewrite Hd1 by discriminate. split; [discriminate | intros [Hx _]; discriminate].
Qed.


Lemma mandatory_present (raw : value) :
  Forall (fun k => safeToStr (get raw k) [] <> []) mandatory_fields ->
  negb (nonempty (safeToStr (get raw (str "id")) []))
  || negb (nonempty (safeToStr (get raw (str "name")) []))
  || negb (nonempty (safeToStr (get raw (str "description")) []))
  || negb (nonempty (safeToStr (get raw (str "status")) []))
  || negb (nonempty (safeToStr (get raw (str "release_date")) []))
  || negb (nonempty (safeToStr (get raw (str "original_author")) [])) = false.
Proof.
  unfold mandatory_fields. intros Hf.
  repeat match goal with
         | Hf : Forall _ (_ :: _) |- _ =>
             apply Forall_cons in Hf; destruct Hf as [? Hf]
         end.
  rewrite !orb_false_iff, !negb_false_iff.
  repeat split;
    match goal with
    | |- nonempty ?s = true => destruct s; [congruence | reflexivity]
    end.
Qed.

(** X3.  On a raw record that has its six mandatory fields, [normalizeMod]
    returns a record exactly when every entry of [mirrors], [tags] and
    [warnings] (a lone value counting as a list of one) is a string and the
    two URLs can be computed.  Otherwise it raises the error of the first
    step that fails, in the order of the code: [TypeError] for an entry of
    [mirrors] that is no string; then what [encodeURIComponent] raises on
    the image identifier; then what it raises on the file identifier; then
    [TypeError] for an entry of [tags] or [warnings] that is no string.  So
    a tag that is no string gives [TypeError] only when the URLs before it
    are computed. *)
Theorem normalizeMod_returns_iff (props : list (jsstring * value)) :
  let raw := VObj props in
  let mirrors := toArray (get raw (str "mirrors")) in
  let labels :=
    toArray (get raw (str "tags")) ++ toArray (get raw (str "warnings")) in
  let image_url :=
    url_or_drive (safeToStr (get raw (str "image")) [])
      (safeToStr (get raw (str "image_id")) [])
      (getDriveViewUrl encodeURIComponent) in
  let download_url :=
    url_or_drive (safeToStr (get raw (str "drive_url")) [])
      (safeToStr (get raw (str "file_id")) [])
      (getDriveDownloadUrl encodeURIComponent) in
  Forall (fun k => safeToStr (get raw k) [] <> []) mandatory_fields ->
  ((exists r, normalize raw = Return (Some r)) <->
   forallb is_string (mirrors ++ labels) = true /\
   (exists u, image_url = Return u) /\ (exists u, download_url = Return u))
  /\ (forallb is_string mirrors = false -> normalize raw = Throw TypeError)
  /\ (forallb is_string mirrors = true ->
      forall e, image_url = Throw e -> normalize raw = Throw e)
  /\ (forallb is_string mirrors = true -> (exists u, image_url = Return u) ->
      forall e, download_url = Throw e -> normalize raw = Throw e)
  /\ (forallb is_string mirrors = true -> (exists u, image_url = Return u) ->
      (exists u, download_url = Return u) ->
      forallb is_string labels = false -> normalize raw = Throw TypeError).
Proof.
  intros raw mirrors labels image_url download_url Hmand.
  subst mirrors labels. rewrite !forallb_app.
  unfold normalizeMod. cbn [is_nullish raw].
  rewrite (mandatory_present raw Hmand).
  rewrite !string_list_cases.
  change (if nonempty (safeToStr (get raw (str "image")) []) then _ else _)
    with image_url.
  change (if nonempty (safeToStr (get raw (str "drive_url")) []) then _ else _)
    with download_url.
  generalize image_url download_url. clear image_url download_url.
  intros image_url download_url.
  destruct (forallb is_string (toArray (get raw (str "mirrors")))).
  2:{ cbn. split; [|repeat split; solve [reflexivity | discriminate]].
      split; [intros [r Hr]; discriminate Hr | intros [Hx _]; discriminate Hx]. }
  destruct image_url as [u1|e1].
  2:{ cbn. split; [|split; [discriminate|split; [|split]]].
      - split; [intros [r Hr]; discriminate Hr
               | intros (_ & [u Hu] & _); discriminate Hu].
      - intros _ e He. congruence.
      - intros _ [u Hu]. discriminate Hu.
      - intros _ [u Hu]. discriminate Hu. }
  destruct download_url as [u2|e2].
  2:{ cbn. split; [|split; [discriminate|split; [|split]]].
      - split; [intros [r Hr]; discriminate Hr
               | intros (_ & _ & [u Hu]); discriminate Hu].
      - intros _ e He. discriminate He.
      - intros _ _ e He. congruence.
      - intros _ _ [u Hu]. discriminate Hu. }
  destruct (forallb is_string (toArray (get raw (str "tags")))).
  2:{ cbn. split; [|split; [discriminate|split; [|split]]].
      - split; [intros [r Hr]; discriminate Hr | intros [Hx _]; discriminate Hx].
      - intros _ e He. discriminate He.
      - intros _ _ e He. discriminate He.
      - reflexivity. }
  destruct (forallb is_string (toArray (get raw (str "warnings")))).
  2:{ cbn. split; [|split; [discriminate|split; [|split]]].
      - split; [intros [r Hr]; discriminate Hr | intros [Hx _]; discriminate Hx].
      - intros _ e He. discriminate He.
      - intros _ _ e He. discriminate He.
      - reflexivity. }
  cbn [mbind outcome_bind mret outcome_ret andb].
  rewrite buildSearchHaystack_returns. cbn [mbind outcome_bind mret outcome_ret].
  split; [|split; [discriminate|split; [|split]]].
  - split; [intros _; repeat split; eauto | intros _; eauto].
  - intros _ e He. discriminate He.
  - intros _ _ e He. discriminate He.
  - intros _ _ _ Hx. discriminate Hx.
Qed.


Lemma map_trim_trimmed (l : list jsstring) :
  Forall trimmed_text l -> map trim l = l.
Proof.
  induction 1 as [|s l [_ Hs] _ IH]; simpl; [reflexivity|].
  rewrite Hs, IH. reflexivity.
Qed.

Lemma join_nonempty (sep : jsstring) (l : list jsstring) :
  Forall trimmed_text l -> l <> [] -> join sep l <> [].
Proof.
  intros Hl Hne. destruct Hl as [|s l [Hs _] _]; [congruence|].
  simpl. destruct l; [exact Hs|].
  destruct s; [congruence | discriminate].
Qed.

(** X4.  The haystack of a record [normalizeMod] returns is the lower-cased
    text "name | description | author", followed by " | " and the tags
    joined by spaces when there are tags. *)
Theorem haystack_of_record (raw : value) (r : Mod) :
  normalize raw = Return (Some r) ->
  m_haystack r =
  toLowerCase
    (m_name r ++ str " | " ++ m_description r ++ str " | " ++ m_original_author r
     ++ match m_tags r with
        | [] => []
        | tags => str " | " ++ join (str " ") tags
        end).
Proof.
  intros H.
  pose proof (record_fields_trimmed raw r H) as Hf.
  pose proof (record_lists_trimmed raw r H) as (_ & Ht & _).
  pose proof (normalizeMod_record _ _ _ _ raw r H) as (_ & _ & _ & _ & _ & _ & _ & _ & Hh).
  rewrite buildSearchHaystack_returns in Hh. injection Hh as <-.
  repeat match goal with
         | Hf : Forall _ (_ :: _) |- _ =>
             apply Forall_cons in Hf; destruct Hf as [[? ?] Hf]
         end.
  rewrite (map_trim_trimmed _ Ht).
  repeat match goal with E : trim ?s = ?s |- _ => rewrite E; clear E end.
  f_equal.
  destruct (m_name r) eqn:En; [congruence|].
  destruct (m_description r) eqn:Ed; [congruence|].
  destruct (m_original_author r) eqn:Ea; [congruence|].
  destruct (m_tags r) as [|t ts] eqn:Et.
  - cbn [join List.filter nonempty]. rewrite app_nil_r. reflexivity.
  - pose proof (join_nonempty (str " ") (t :: ts) Ht ltac:(discriminate)) as Hj.
    cbn [List.filter nonempty].
    destruct (join (str " ") (t :: ts)) eqn:Ej; [congruence|].
    cbn [nonempty join]. reflexivity.
Qed.


Local Abbreviation validate :=
  (validateAndNormalizeData toLowerCase Date_getTime Number_of_string
     encodeURIComponent).
Local Abbreviation loop :=
  (validate_loop toLowerCase Date_getTime Number_of_string encodeURIComponent).

Lemma validate_loop_returns (items : list value) :
  forall out seen,
    Forall (passes normalize) items -> exists c, loop items out seen = Return c.
Proof.
  induction items as [|item rest IH]; intros out seen Hall; simpl; [eauto|].
  apply Forall_cons in Hall. destruct Hall as [Hitem Hrest].
  destruct (truthy item) eqn:Et; simpl; [|apply IH, Hrest].
  destruct (bool_decide (typeof item = TObject)) eqn:Eo; simpl; [|apply IH, Hrest].
  apply bool_decide_eq_true in Eo.
  destruct (Hitem Et Eo) as [o Ho]. rewrite Ho. simpl.
  destruct o as [nm|]; [|apply IH, Hrest].
  destruct (bool_decide _); apply IH, Hrest.
Qed.

Lemma validate_loop_raises (items : list value) :
  forall out seen e,
    loop items out seen = Throw e ->
    exists before item after,
      items = before ++ item :: after /\ Forall (passes normalize) before /\
      truthy item = true /\ typeof item = TObject /\ normalize item = Throw e.
Proof.
  induction items as [|item rest IH]; intros out seen e; simpl; [discriminate|].
  assert (Hskip : forall out' seen',
             ~ (truthy item = true /\ typeof item = TObject) \/
             (exists o, normalize item = Return o) ->
             loop rest out' seen' = Throw e ->
             exists before item0 after,
               item :: rest = before ++ item0 :: after /\
               Forall (passes normalize) before /\
               truthy item0 = true /\ typeof item0 = TObject /\
               normalize item0 = Throw e).
  { intros out' seen' Hpass H.
    destruct (IH _ _ _ H) as (before & item0 & after & -> & Hb & Hrest).
    exists (item :: before), item0, after.
    split; [reflexivity|]. split; [|exact Hrest].
    constructor; [|exact Hb].
    intros Ht Ho. destruct Hpass as [Hn | Hr]; [tauto | exact Hr]. }
  destruct (truthy item) eqn:Et; simpl;
    [|apply Hskip; left; intros [Hx _]; discriminate Hx].
  destruct (bool_decide (typeof item = TObject)) eqn:Eo; simpl.
  2:{ apply bool_decide_eq_false in Eo. apply Hskip. left. tauto. }
  apply bool_decide_eq_true in Eo.
  destruct (normalize item) as [o|e'] eqn:En; simpl.
  - destruct o as [nm|]; [destruct (bool_decide _)|]; apply Hskip; right; eauto.
  - intros H. injection H as ->.
    exists [], item, rest. repeat split; [constructor | assumption..].
Qed.

Lemma validate_loop_passes (items : list value) :
  forall out seen c,
    loop items out seen = Return c -> Forall (passes normalize) items.
Proof.
  induction items as [|item rest IH]; intros out seen c; simpl; [constructor|].
  destruct (truthy item) eqn:Et; simpl.
  2:{ intros H. constructor; [|exact (IH _ _ _ H)].
      intros Hx. congruence. }
  destruct (bool_decide (typeof item = TObject)) eqn:Eo; simpl.
  2:{ apply bool_decide_eq_false in Eo. intros H.
      constructor; [|exact (IH _ _ _ H)]. intros _ Hx. tauto. }
  destruct (normalize item) as [o|e'] eqn:En; simpl; [|discriminate].
  intros H. constructor; [intros _ _; eauto|].
  destruct o as [nm|]; [destruct (bool_decide (m_id nm ∈ seen))|];
    exact (IH _ _ _ H).
Qed.

Lemma validate_as_loop (data : value) :
  validate data = loop (candidates data) [] ∅.
Proof.
  unfold validateAndNormalizeData, candidates.
  destruct data as [| |b|n|s|items|props]; try reflexivity;
    try (cbn [get isArray]; rewrite andb_false_r; reflexivity).
  cbn [get truthy andb]. destruct (lookup_prop props (str "mods")); reflexivity.
Qed.

(** X5.  [validateAndNormalizeData] returns exactly when [normalizeMod]
    raises on none of the candidates it is called on, the objects among
    them; and when it raises, the error is that of the first such candidate
    [normalizeMod] raises on. *)
Theorem validate_returns_iff (data : value) :
  ((exists c, validate data = Return c) <->
   Forall (passes normalize) (candidates data))
  /\ forall e, validate data = Throw e ->
       exists before item after,
         candidates data = before ++ item :: after /\
         Forall (passes normalize) before /\
         truthy item = true /\ typeof item = TObject /\ normalize item = Throw e.
Proof.
  rewrite validate_as_loop. split; [split|].
  - intros [c Hc]. exact (validate_loop_passes _ _ _ _ Hc).
  - apply validate_loop_returns.
  - apply validate_loop_raises.
Qed.

End NormalizeMore.

(** ** The order of the view *)

Section OrderProperties.

Context (toLowerCase : jsstring -> jsstring)
  (localeCompare : jsstring -> jsstring -> Z).

Local Abbreviation view := (applyFiltersAndSort toLowerCase localeCompare).

Lemma view_sorted (state : State) (cmp : Mod -> Mod -> number) :
  sorter_of localeCompare (s_sort state) = returning cmp ->
  (forall x y z, not_after cmp x y -> not_after cmp y z -> not_after cmp x z) ->
  (forall x y, positive_result (cmp x y) = true -> not_after cmp y x) ->
  exists out,
    view state = Return out /\
    forall i j a b,
      out !! i = Some a -> out !! j = Some b -> (i < j)%nat -> not_after cmp a b.
Proof.
  intros Hcmp Htrans Hasym.
  eexists. split.
  - rewrite (view_unfold toLowerCase localeCompare), Hcmp.
    apply Array_sort_returning.
  - intros i j a b Hi Hj Hlt.
    exact (StronglySorted_lookup _ _ (array_sort_sorted cmp Htrans Hasym _)
             i j a b Hi Hj Hlt).
Qed.

(** X6.  Sorted by [date_desc] the view lists the dated items newest first,
    sorted by [date_asc] oldest first; and a sort key that names no sorter
    (and no member inherited from [Object.prototype]) gives the view of
    [date_desc]. *)
Theorem view_date_order (state : State) :
  (s_sort state = str "date_desc" ->
   exists out,
     view state = Return out /\
     forall i j a b ta tb,
       out !! i = Some a -> out !! j = Some b -> (i < j)%nat ->
       m_releaseDateMs a = Some ta -> m_releaseDateMs b = Some tb -> tb <= ta) /\
  (s_sort state = str "date_asc" ->
   exists out,
     view state = Return out /\
     forall i j a b ta tb,
       out !! i = Some a -> out !! j = Some b -> (i < j)%nat ->
       m_releaseDateMs a = Some ta -> m_releaseDateMs b = Some tb -> ta <= tb) /\
  (sorters localeCompare (s_sort state) = None ->
   ~ In (s_sort state) object_prototype_keys ->
   view state = view (with_sort state (str "date_desc"))).
Proof.
  split; [|split].
  - intros Hs.
    assert (Hcmp : sorter_of localeCompare (s_sort state) = returning date_desc)
      by (rewrite Hs; reflexivity).
    destruct (view_sorted state _ Hcmp date_desc_trans date_desc_asym)
      as (out & Hout & Hsorted).
    exists out. split; [exact Hout|].
    intros i j a b ta tb Hi Hj Hlt Ha Hb.
    pose proof (Hsorted i j a b Hi Hj Hlt) as H.
    unfold not_after in H. rewrite date_desc_after, Ha, Hb in H. lia.
  - intros Hs.
    assert (Hcmp : sorter_of localeCompare (s_sort state) = returning date_asc)
      by (rewrite Hs; reflexivity).
    destruct (view_sorted state _ Hcmp date_asc_trans date_asc_asym)
      as (out & Hout & Hsorted).
    exists out. split; [exact Hout|].
    intros i j a b ta tb Hi Hj Hlt Ha Hb.
    pose proof (Hsorted i j a b Hi Hj Hlt) as H.
    unfold not_after in H. rewrite date_asc_after, Ha, Hb in H. lia.
  - intros Hnone _. unfold applyFiltersAndSort. rewrite Hnone. reflexivity.
Qed.

(** X7.  Sorted by [name_asc] no item of the view stands before one that
    [localeCompare] puts before it, and sorted by [name_desc] the other way
    round.  ([localeCompare] is taken to order transitively and never to put
    each of two names after the other.) *)
Theorem view_name_order (state : State) :
  (forall a b c, localeCompare a b <= 0 -> localeCompare b c <= 0 ->
                 localeCompare a c <= 0) ->
  (forall a b, 0 < localeCompare a b -> localeCompare b a <= 0) ->
  (s_sort state = str "name_asc" ->
   exists out,
     view state = Return out /\
     forall i j a b,
       out !! i = Some a -> out !! j = Some b -> (i < j)%nat ->
       localeCompare (m_name a) (m_name b) <= 0) /\
  (s_sort state = str "name_desc" ->
   exists out,
     view state = Return out /\
     forall i j a b,
       out !! i = Some a -> out !! j = Some b -> (i < j)%nat ->
       localeCompare (m_name b) (m_name a) <= 0).
Proof.
  intros Htrans Hasym. split.
  - intros Hs.
    assert (Hcmp : sorter_of localeCompare (s_sort state)
                   = returning (name_asc localeCompare))
      by (rewrite Hs; reflexivity).
    destruct (view_sorted state _ Hcmp) as (out & Hout & Hsorted).
    + unfold not_after, name_asc. intros x y z.
      rewrite !positive_of_Z, !Z.ltb_ge. apply Htrans.
    + unfold not_after, name_asc. intros x y.
      rewrite !positive_of_Z, Z.ltb_lt, Z.ltb_ge. apply Hasym.
    + exists out. split; [exact Hout|].
      intros i j a b Hi Hj Hlt.
      pose proof (Hsorted i j a b Hi Hj Hlt) as H.
      unfold not_after, name_asc in H. rewrite positive_of_Z, Z.ltb_ge in H. exact H.
  - intros Hs.
    assert (Hcmp : sorter_of localeCompare (s_sort state)
                   = returning (name_desc localeCompare))
      by (rewrite Hs; reflexivity).
    destruct (view_sorted state _ Hcmp) as (out & Hout & Hsorted).
    + unfold not_after, name_desc. intros x y z.
      rewrite !positive_of_Z, !Z.ltb_ge. intros H1 H2. exact (Htrans _ _ _ H2 H1).
    + unfold not_after, name_desc. intros x y.
      rewrite !positive_of_Z, Z.ltb_lt, Z.ltb_ge. apply Hasym.
    + exists out. split; [exact Hout|].
      intros i j a b Hi Hj Hlt.
      pose proof (Hsorted i j a b Hi Hj Hlt) as H.
      unfold not_after, name_desc in H. rewrite positive_of_Z, Z.ltb_ge in H. exact H.
Qed.

End OrderProperties.

(** ** Titles and descriptions *)

Lemma truncate_trimmed_bound (v : value) (maxChars : nat) :
  let input := safeToStr v [] in
  let r := truncateUnicode (VStr input) maxChars true ellipsis in
  (length (spread (text r)) <= S maxChars)%nat /\
  (truncated r = false <-> (length (spread input) <= maxChars)%nat) /\
  (truncated r = false -> text r = input) /\
  (truncated r = true ->
   exists kept rest, input = kept ++ rest /\ text r = kept ++ ellipsis /\
                     (length (spread kept) <= maxChars)%nat).
Proof.
  intros input r. subst r.
  assert (Hin : safeToStr (VStr input) [] = input) by apply trim_idemp.
  destruct (Nat.le_gt_cases (length (spread input)) maxChars) as [Hle|Hgt].
  - rewrite truncateUnicode_short by (rewrite Hin; exact Hle).
    rewrite Hin. cbn [text truncated].
    split; [lia|]. split; [tauto|]. split; [reflexivity | discriminate].
  - rewrite truncateUnicode_long by (rewrite Hin; exact Hgt).
    cbn [text truncated].
    destruct (kept_boundary (VStr input) maxChars true)
      as (k & Hk & Hspread & rest & Hrest).
    match type of Hrest with
    | _ = ?K ++ _ => set (kept := K) in *
    end.
    assert (Hs : spread kept = take k (spread (safeToStr (VStr input) [])))
      by exact Hspread.
    clear Hspread. clearbody kept. rewrite Hin in Hs, Hrest.
    assert (Hkept : (length (spread kept) <= maxChars)%nat)
      by (rewrite Hs, length_take; lia).
    split; [|split; [|split]].
    + rewrite spread_with_ellipsis, length_app. cbn [length]. lia.
    + split; [discriminate | lia].
    + discriminate.
    + intros _. exists kept, rest. split; [exact Hrest|]. split; [reflexivity|].
      exact Hkept.
Qed.

(** X8.  The title shown on a card has at most 65 code points and the
    description at most 221; each is flagged as truncated exactly when the
    trimmed text has more than 64, respectively 220, code points; unflagged
    it is the trimmed text itself, flagged it is a prefix of it followed by
    the ellipsis. *)
Theorem truncateTitle_bounds (name desc : value) :
  let t := truncateTitle name in
  let d := truncateDescription desc in
  ((length (spread (text t)) <= 65)%nat /\
   (truncated t = false <-> (length (spread (safeToStr name [])) <= 64)%nat) /\
   (truncated t = false -> text t = safeToStr name []) /\
   (truncated t = true ->
    exists kept rest, safeToStr name [] = kept ++ rest /\
                      text t = kept ++ ellipsis /\
                      (length (spread kept) <= 64)%nat)) /\
  ((length (spread (text d)) <= 221)%nat /\
   (truncated d = false <-> (length (spread (safeToStr desc [])) <= 220)%nat) /\
   (truncated d = false -> text d = safeToStr desc []) /\
   (truncated d = true ->
    exists kept rest, safeToStr desc [] = kept ++ rest /\
                      text d = kept ++ ellipsis /\
                      (length (spread kept) <= 220)%nat)).
Proof.
  split.
  - exact (truncate_trimmed_bound name titleChars).
  - exact (truncate_trimmed_bound desc descChars).
Qed.

(** ** Cache and loading *)

Section LoadProperties.

Context (toLowerCase : jsstring -> jsstring) (Date_getTime : jsstring -> option Z)
  (Number_of_string : jsstring -> number)
  (encodeURIComponent : jsstring -> outcome jsstring)
  (JSON_stringify : list Mod -> jsstring)
  (JSON_parse : jsstring -> outcome (list Mod))
  (storage_accepts : gmap jsstring jsstring -> jsstring -> jsstring -> bool).

Local Abbreviation get_cached := (getCachedData JSON_parse).
Local Abbreviation set_cached := (setCachedData JSON_stringify storage_accepts).
Local Abbreviation fetch :=
  (fetch_catalog toLowerCase Date_getTime Number_of_string encodeURIComponent).
Local Abbreviation load_data :=
  (loadData toLowerCase Date_getTime Number_of_string encodeURIComponent
     JSON_stringify JSON_parse storage_accepts).

Lemma getCachedData_frame (now : Z) (ls : gmap jsstring jsstring) (k : jsstring) :
  foreign_key k -> (get_cached now ls).2 !! k = ls !! k.
Proof.
  intros [Hk He]. unfold getCachedData.
  destruct (ls !! CACHE_KEY) as [cached|]; [|reflexivity].
  destruct (ls !! CACHE_EXPIRY_KEY) as [expiry|]; [|reflexivity].
  destruct (negb (nonempty cached) || negb (nonempty expiry)); [reflexivity|].
  destruct (match parseInt expiry with Some t => t <? now | None => false end).
  - cbn [snd]. rewrite !lookup_delete_ne by congruence. reflexivity.
  - destruct (JSON_parse cached); reflexivity.
Qed.

Lemma setCachedData_frame (now : Z) (data : list Mod) (ls : gmap jsstring jsstring)
    (k : jsstring) :
  foreign_key k -> set_cached now data ls !! k = ls !! k.
Proof.
  intros [Hk He]. unfold setCachedData, setItem.
  destruct (storage_accepts ls CACHE_KEY _); [|reflexivity].
  destruct (storage_accepts _ CACHE_EXPIRY_KEY _);
    rewrite ?lookup_insert_ne by congruence; reflexivity.
Qed.

(** What a read of the cache gives and leaves, case by case. *)
Lemma getCachedData_cases (now : Z) (ls : gmap jsstring jsstring) :
  match ls !! CACHE_KEY, ls !! CACHE_EXPIRY_KEY with
  | Some cached, Some expiry =>
      if nonempty cached && nonempty expiry then
        match parseInt expiry with
        | Some t =>
            if t <? now
            then get_cached now ls = (None, delete CACHE_EXPIRY_KEY (delete CACHE_KEY ls))
            else get_cached now ls =
                 (match JSON_parse cached with Return d => Some d | Throw _ => None end,
                  ls)
        | None =>
            get_cached now ls =
            (match JSON_parse cached with Return d => Some d | Throw _ => None end, ls)
        end
      else get_cached now ls = (None, ls)
  | _, _ => get_cached now ls = (None, ls)
  end.
Proof.
  unfold getCachedData.
  destruct (ls !! CACHE_KEY) as [cached|]; [|reflexivity].
  destruct (ls !! CACHE_EXPIRY_KEY) as [expiry|]; [|reflexivity].
  destruct (nonempty cached), (nonempty expiry); cbn [negb orb andb];
    try reflexivity.
  destruct (parseInt expiry) as [t|].
  - destruct (t <? now); [reflexivity|]. destruct (JSON_parse cached); reflexivity.
  - destruct (JSON_parse cached); reflexivity.
Qed.

(** X9.  A read of the cache returns a catalog exactly when both entries
    are there and not empty, the expiry, if it reads as a number, is not
    before the time of the read, and the payload parses to that catalog; an
    expiry that is no number never expires.  A read that returns a catalog
    leaves the storage as it is, and a read changes the storage only by
    removing both entries of an expired cache. *)
Theorem getCachedData_hit_iff (now : Z) (ls : gmap jsstring jsstring)
    (data : list Mod) :
  ((get_cached now ls).1 = Some data <->
   exists cached expiry,
     ls !! CACHE_KEY = Some cached /\ ls !! CACHE_EXPIRY_KEY = Some expiry /\
     cached <> [] /\ expiry <> [] /\
     (forall t, parseInt expiry = Some t -> now <= t) /\
     JSON_parse cached = Return data)
  /\ ((get_cached now ls).1 = Some data -> (get_cached now ls).2 = ls)
  /\ ((get_cached now ls).2 <> ls ->
      (get_cached now ls).2 !! CACHE_KEY = None /\
      (get_cached now ls).2 !! CACHE_EXPIRY_KEY = None /\
      exists expiry t, ls !! CACHE_EXPIRY_KEY = Some expiry /\
                       parseInt expiry = Some t /\ t < now).
Proof.
  pose proof (getCachedData_cases now ls) as H.
  destruct (ls !! CACHE_KEY) as [cached|] eqn:Ec.
  2:{ rewrite H. cbn [fst snd]. split; [|split]; [|discriminate|congruence].
      split; [discriminate | intros (c & e & Hx & _); discriminate]. }
  destruct (ls !! CACHE_EXPIRY_KEY) as [expiry|] eqn:Ee.
  2:{ rewrite H. cbn [fst snd]. split; [|split]; [|discriminate|congruence].
      split; [discriminate | intros (c & e & _ & Hx & _); discriminate]. }
  destruct (nonempty cached) eqn:Hc; cbn [andb] in H.
  2:{ rewrite H. cbn [fst snd]. split; [|split]; [|discriminate|congruence].
      split; [discriminate|]. intros (c & e & Hx & _ & Hne & _).
      injection Hx as <-. apply nonempty_false in Hc. congruence. }
  destruct (nonempty expiry) eqn:He.
  2:{ rewrite H. cbn [fst snd]. split; [|split]; [|discriminate|congruence].
      split; [discriminate|]. intros (c & e & _ & Hx & _ & Hne & _).
      injection Hx as <-. apply nonempty_false in He. congruence. }
  assert (Hcn : cached <> []) by (intros ->; discriminate).
  assert (Hen : expiry <> []) by (intros ->; discriminate).
  assert (Hhit : forall live : Prop,
             (live <-> forall t, parseInt expiry = Some t -> now <= t) -> live ->
             (match JSON_parse cached with Return d => Some d | Throw _ => None end
              = Some data <->
              exists cached0 expiry0,
                Some cached = Some cached0 /\ Some expiry = Some expiry0 /\
                cached0 <> [] /\ expiry0 <> [] /\
                (forall t, parseInt expiry0 = Some t -> now <= t) /\
                JSON_parse cached0 = Return data)).
  { intros live Hl Hlive. split.
    - destruct (JSON_parse cached) as [d|] eqn:Ej; [|discriminate].
      intros Hd. injection Hd as ->. exists cached, expiry.
      repeat split; try assumption. apply Hl, Hlive.
    - intros (c & e & Hx & Hy & _ & _ & _ & Hj).
      injection Hx as <-. rewrite Hj. reflexivity. }
  destruct (parseInt expiry) as [t|] eqn:Ep.
  - destruct (Z.ltb_spec t now) as [Hlt|Hge]; rewrite H; cbn [fst snd].
    + split; [|split]; [|discriminate|].
      * split; [discriminate|]. intros (c & e & _ & Hx & _ & _ & Hl & _).
        injection Hx as <-. specialize (Hl t Ep). lia.
      * intros _. split; [|split].
        -- rewrite lookup_delete_ne by (apply not_eq_sym, cache_keys_differ).
           apply lookup_delete_eq.
        -- apply lookup_delete_eq.
        -- exists expiry, t. repeat split; assumption.
    + split; [|split]; [|reflexivity|congruence].
      apply (Hhit (t >= now)); [|lia].
      split; [intros _ t' Ht'; injection Ht' as <-; lia | intros Hl; specialize (Hl t eq_refl); lia].
  - rewrite H; cbn [fst snd]. split; [|split]; [|reflexivity|congruence].
    apply (Hhit True); [|exact I]. split; [intros _ t' Ht'; discriminate | trivial].
Qed.


(** X10.  Caching touches no key but its two.  When the storage refuses the
    payload nothing changes; when it takes the payload and refuses the
    expiry, the new payload stays with whatever expiry entry was there
    before. *)
Theorem setCachedData_writes (now : Z) (data : list Mod)
    (ls : gmap jsstring jsstring) :
  let payload := JSON_stringify data in
  let expiry := String_of_Z (now + CACHE_DURATION) in
  let ls' := set_cached now data ls in
  (forall k, foreign_key k -> ls' !! k = ls !! k) /\
  (storage_accepts ls CACHE_KEY payload = false -> ls' = ls) /\
  (storage_accepts ls CACHE_KEY payload = true ->
   ls' !! CACHE_KEY = Some payload /\
   ls' !! CACHE_EXPIRY_KEY =
   if storage_accepts (<[CACHE_KEY := payload]> ls) CACHE_EXPIRY_KEY expiry
   then Some expiry else ls !! CACHE_EXPIRY_KEY).
Proof.
  intros payload expiry ls'. subst ls'.
  split; [intros k; apply setCachedData_frame|].
  unfold setCachedData, setItem. fold payload expiry.
  destruct (storage_accepts ls CACHE_KEY payload); split; try discriminate;
    try reflexivity.
  intros _.
  destruct (storage_accepts (<[CACHE_KEY := payload]> ls) CACHE_EXPIRY_KEY expiry).
  - rewrite lookup_insert_ne by (apply not_eq_sym, cache_keys_differ).
    rewrite !lookup_insert_eq. split; reflexivity.
  - rewrite lookup_insert_eq.
    rewrite lookup_insert_ne by apply cache_keys_differ. split; reflexivity.
Qed.

(** A read of what was just cached, within the hour. *)
Lemma getCachedData_after_set (data : list Mod) (now later : Z)
    (ls : gmap jsstring jsstring) :
  storage_accepts ls CACHE_KEY (JSON_stringify data) = true ->
  storage_accepts (<[CACHE_KEY := JSON_stringify data]> ls) CACHE_EXPIRY_KEY
    (String_of_Z (now + CACHE_DURATION)) = true ->
  JSON_stringify data <> [] ->
  JSON_parse (JSON_stringify data) = Return data ->
  get_cached later (set_cached now data ls) =
  if now + CACHE_DURATION <? later
  then (None, delete CACHE_EXPIRY_KEY (delete CACHE_KEY (set_cached now data ls)))
  else (Some data, set_cached now data ls).
Proof.
  intros Hw1 Hw2 Hne Hjson.
  pose proof (getCachedData_cases later (set_cached now data ls)) as H.
  revert H. unfold setCachedData, setItem. rewrite Hw1, Hw2.
  rewrite lookup_insert_ne by (apply not_eq_sym, cache_keys_differ).
  rewrite !lookup_insert_eq.
  destruct (JSON_stringify data) as [|u r] eqn:E; [congruence|].
  cbn [nonempty andb]. rewrite String_of_Z_nonempty, parseInt_String_of_Z, Hjson.
  destruct (now + CACHE_DURATION <? later); intros ->; reflexivity.
Qed.

(** X11.  [loadData] raises exactly when js-yaml is missing, or when
    fetching, parsing or validating fails and the cache gives nothing: the
    error is then that of the failed step.  A catalog that validates is
    returned and cached whatever the cache held.  Without js-yaml the storage
    is not touched, and no key but the cache's two ever is. *)
Theorem loadData_outcome (jsyaml : option (jsstring -> outcome value))
    (res : fetched) (now : Z) (ls : gmap jsstring jsstring) :
  let r := load_data jsyaml res now ls in
  (forall e, r.1 = inl e <->
     (jsyaml = None /\ e = JsYamlMissing) \/
     (exists load, jsyaml = Some load /\ fetch load res = inl e /\
                   (get_cached now ls).1 = None)) /\
  (forall load mods, jsyaml = Some load -> fetch load res = inr mods ->
     r = (inr mods, set_cached now mods ls)) /\
  (jsyaml = None -> r.2 = ls) /\
  (forall k, foreign_key k -> r.2 !! k = ls !! k).
Proof.
  intros r. subst r. unfold loadData.
  destruct jsyaml as [load|].
  2:{ cbn [fst snd]. repeat split; try congruence; try discriminate.
      - intros H. injection H as <-. left. split; reflexivity.
      - intros [[_ ->] | (load & Hx & _)]; [reflexivity | discriminate]. }
  destruct (fetch load res) as [e0|mods] eqn:Ef.
  - destruct (get_cached now ls) as [cached ls'] eqn:Eg.
    assert (Hfr : forall k, foreign_key k -> ls' !! k = ls !! k).
    { intros k Hk. pose proof (getCachedData_frame now ls k Hk) as Hx.
      rewrite Eg in Hx. exact Hx. }
    destruct cached as [data|]; cbn [fst snd];
      (split; [|split; [|split; [discriminate | exact Hfr]]]).
    + intros e. split; [discriminate|].
      intros [[Hx _] | (l & _ & _ & Hx)]; discriminate.
    + intros l m Hl. injection Hl as <-. rewrite Ef. discriminate.
    + intros e. split.
      * intros H. injection H as <-. right. exists load. repeat split. exact Ef.
      * intros [[Hx _] | (l & Hl & Hx & _)]; [discriminate|].
        injection Hl as <-. rewrite Ef in Hx. injection Hx as <-. reflexivity.
    + intros l m Hl. injection Hl as <-. rewrite Ef. discriminate.
  - cbn [fst snd]. split; [|split; [|split]].
    + intros e. split; [discriminate|].
      intros [[Hx _] | (l & Hl & Hx & _)]; [discriminate|].
      injection Hl as <-. rewrite Ef in Hx. discriminate.
    + intros l m Hl. injection Hl as <-. rewrite Ef. intros Hm.
      injection Hm as <-. reflexivity.
    + discriminate.
    + intros k. apply setCachedData_frame.
Qed.

(** X12.  After a load that validated and cached a catalog, a load that
    fails to fetch, parse or validate returns that catalog again as long as
    the hour has not passed, leaving the storage as it is; after the hour it
    raises the error of the failed step and both cache entries are gone. *)
Theorem loadData_offline (load load' : jsstring -> outcome value)
    (res res' : fetched) (now later : Z) (ls : gmap jsstring jsstring)
    (mods : list Mod) (e : load_error) :
  fetch load res = inr mods ->
  storage_accepts ls CACHE_KEY (JSON_stringify mods) = true ->
  storage_accepts (<[CACHE_KEY := JSON_stringify mods]> ls) CACHE_EXPIRY_KEY
    (String_of_Z (now + CACHE_DURATION)) = true ->
  JSON_stringify mods <> [] ->
  JSON_parse (JSON_stringify mods) = Return mods ->
  fetch load' res' = inl e ->
  let stored := (load_data (Some load) res now ls).2 in
  let again := load_data (Some load') res' later stored in
  (later <= now + CACHE_DURATION -> again = (inr mods, stored)) /\
  (now + CACHE_DURATION < later ->
   again.1 = inl e /\ again.2 !! CACHE_KEY = None /\
   again.2 !! CACHE_EXPIRY_KEY = None).
Proof.
  intros Hf Hw1 Hw2 Hne Hjson Hf' stored again. subst again stored.
  unfold loadData. rewrite Hf, Hf'. cbn [snd].
  rewrite (getCachedData_after_set mods now later ls Hw1 Hw2 Hne Hjson).
  destruct (Z.ltb_spec (now + CACHE_DURATION) later) as [Hlt|Hge].
  - split; [lia|]. intros _. cbn [fst snd]. split; [reflexivity|]. split.
    + rewrite lookup_delete_ne by (apply not_eq_sym, cache_keys_differ).
      apply lookup_delete_eq.
    + apply lookup_delete_eq.
  - split; [reflexivity | lia].
Qed.

End LoadProperties.

(** ** Pacing *)

Section PacingProperties.

Context {A : Type}.
Implicit Types (calls runs : list (Z * A)).

Lemma throttle_from_sublist (delay : Z) calls :
  forall lastCall, sublist (throttle_from delay lastCall calls) calls.
Proof.
  induction calls as [|[now args] rest IH]; intros lastCall; simpl; [constructor|].
  unfold throttled. destruct (delay <=? now - lastCall); simpl.
  - apply sublist_skip, IH.
  - apply sublist_cons, IH.
Qed.

Lemma last_run_cons (lastCall t : Z) (a : A) runs :
  last_run lastCall ((t, a) :: runs) = last_run t runs.
Proof.
  unfold last_run. destruct runs as [|r runs]; [reflexivity|].
  rewrite last_cons_cons. destruct (last (r :: runs)) eqn:E; [reflexivity|].
  apply last_None in E. discriminate.
Qed.

Lemma throttle_from_snoc (delay : Z) calls (now : Z) (args : A) :
  forall lastCall,
    throttle_from delay lastCall (calls ++ [(now, args)]) =
    throttle_from delay lastCall calls
    ++ (if delay <=? now - last_run lastCall (throttle_from delay lastCall calls)
        then [(now, args)] else []).
Proof.
  induction calls as [|[t a] rest IH]; intros lastCall; simpl.
  - unfold throttled, last_run. simpl.
    destruct (delay <=? now - lastCall); reflexivity.
  - unfold throttled. destruct (delay <=? t - lastCall); simpl.
    + rewrite IH, last_run_cons. reflexivity.
    + apply IH.
Qed.

Lemma throttle_from_spaced (delay : Z) calls :
  forall lastCall,
    (forall r, head (throttle_from delay lastCall calls) = Some r ->
               delay <= fst r - lastCall) /\
    (forall i r1 r2,
       throttle_from delay lastCall calls !! i = Some r1 ->
       throttle_from delay lastCall calls !! S i = Some r2 ->
       delay <= fst r2 - fst r1).
Proof.
  induction calls as [|[t a] rest IH]; intros lastCall; simpl.
  - split; [discriminate | intros i r1 r2 H; rewrite lookup_nil in H; discriminate].
  - unfold throttled. destruct (Z.leb_spec delay (t - lastCall)) as [Hle|Hgt]; simpl.
    + destruct (IH t) as [Hhead Hrest]. split.
      * intros r Hr. injection Hr as <-. exact Hle.
      * intros [|i] r1 r2 H1 H2; simpl in H1, H2.
        -- injection H1 as <-. apply Hhead.
           destruct (throttle_from delay t rest); [discriminate | exact H2].
        -- exact (Hrest i r1 r2 H1 H2).
    + apply IH.
Qed.

(** X13.  A throttled function runs only on calls made, in their order and
    with their arguments; its first run comes when the clock reads at least
    [delay], and each later run at least [delay] after the run before it; a
    call runs exactly when the clock has advanced by [delay] since the last
    run. *)
Theorem throttle_spacing (delay : Z) calls :
  let runs := throttle delay calls in
  sublist runs calls /\
  (forall r, head runs = Some r -> delay <= fst r) /\
  (forall i r1 r2, runs !! i = Some r1 -> runs !! S i = Some r2 ->
     delay <= fst r2 - fst r1) /\
  (forall now args,
     throttle delay (calls ++ [(now, args)]) =
     runs ++ (if delay <=? now - last_run 0 runs then [(now, args)] else [])).
Proof.
  intros runs. subst runs. unfold throttle.
  destruct (throttle_from_spaced delay calls 0) as [Hhead Hrest].
  split; [apply throttle_from_sublist|]. split; [|split].
  - intros r Hr. specialize (Hhead r Hr). lia.
  - exact Hrest.
  - intros now args. apply throttle_from_snoc.
Qed.


Lemma debounce_from_latest (delay : Z) (events : list (event A)) :
  forall timeoutId ts armed,
    holds_latest delay timeoutId ts armed ->
    debounce_from delay timeoutId ts events = latest_call_only delay armed events.
Proof.
  induction events as [|[now args | now] rest IH]; intros timeoutId ts armed Hst;
    [reflexivity | |].
  - cbn [debounce_from latest_call_only debounced setTimeout].
    apply IH. cbn [holds_latest]. eexists. split; [reflexivity|].
    cbn [pending]. f_equal.
    destruct armed as [[t a]|]; cbn [holds_latest] in Hst.
    + destruct Hst as (id & -> & Hp). cbn [clearTimeout pending next_timer].
      rewrite Hp. cbn [List.filter fst]. rewrite Z.eqb_refl. reflexivity.
    + destruct timeoutId as [i|]; cbn [clearTimeout pending next_timer];
        rewrite Hst; reflexivity.
  - cbn [debounce_from latest_call_only].
    destruct armed as [[t a]|]; cbn [holds_latest] in Hst.
    + destruct Hst as (id & -> & Hp). rewrite Hp. cbn [List.filter fst snd].
      destruct (t + Z.max delay 0 <=? now); cbn [negb map app snd].
      * f_equal. apply IH. reflexivity.
      * apply IH. cbn [holds_latest pending]. eauto.
    + rewrite Hst. cbn [List.filter map app]. apply IH. reflexivity.
Qed.

Lemma latest_call_only_calls (delay : Z) calls (armed : option (Z * A)) (rest : list (event A)) :
  latest_call_only delay armed (map (fun c => Call (fst c) (snd c)) calls ++ rest) =
  latest_call_only delay (match last calls with Some c => Some c | None => armed end)
    rest.
Proof.
  revert armed. induction calls as [|[t a] calls IH]; intros armed; [reflexivity|].
  cbn [map app latest_call_only fst snd]. rewrite IH.
  destruct calls as [|c calls]; [reflexivity|].
  rewrite last_cons_cons. destruct (last (c :: calls)) eqn:E; [reflexivity|].
  apply last_None in E. discriminate.
Qed.

Lemma latest_call_only_length (delay : Z) (events : list (event A)) :
  forall armed,
    (length (latest_call_only delay armed events)
     <= (match armed with Some _ => 1 | None => 0 end)
        + length (List.filter (fun e => match e with Call _ _ => true | _ => false end)
                    events))%nat.
Proof.
  induction events as [|[now args | now] rest IH]; intros armed;
    cbn [latest_call_only List.filter length].
  - lia.
  - specialize (IH (Some (now, args))). cbv beta iota in IH.
    generalize dependent (length (List.filter
      (fun e : event A => match e with Call _ _ => true | _ => false end) rest)).
    intros n IH. destruct armed; lia.
  - destruct armed as [[t a]|].
    + destruct (t + Z.max delay 0 <=? now); cbn [length].
      * specialize (IH None). cbv beta iota in IH.
        generalize dependent (length (List.filter
          (fun e : event A => match e with Call _ _ => true | _ => false end) rest)).
        intros n IH. lia.
      * apply (IH (Some (t, a))).
    + apply IH.
Qed.

(** X14.  A debounced function behaves as a single slot that holds the
    latest call: whatever the calls and timer runs, it runs at most once per
    call, and after a burst of calls the next timer run, if the delay since
    the last call has passed, runs it once with the arguments of the last
    call. *)
Theorem debounce_latest_call (delay first_id : Z) (events : list (event A)) :
  debounce delay first_id events = latest_call_only delay None events
  /\ (length (debounce delay first_id events)
      <= length (List.filter (fun e => match e with Call _ _ => true | _ => false end)
                   events))%nat
  /\ forall calls t args now,
       last calls = Some (t, args) ->
       debounce delay first_id (map (fun c => Call (fst c) (snd c)) calls ++ [Tick now])
       = if t + Z.max delay 0 <=? now then [(now, args)] else [].
Proof.
  assert (H : forall es : list (event A),
            debounce delay first_id es = latest_call_only delay None es).
  { intros es. apply debounce_from_latest. reflexivity. }
  split; [apply H|]. split.
  - rewrite H. apply (latest_call_only_length delay events None).
  - intros calls t args now Hlast. rewrite H, latest_call_only_calls, Hlast.
    cbn [latest_call_only]. destruct (t + Z.max delay 0 <=? now); reflexivity.
Qed.

End PacingProperties.

(** ** Filters, controls and dates *)

Section PageProperties.

Context (toLowerCase : jsstring -> jsstring) (Date_getTime : jsstring -> option Z)
  (Number_of_string : jsstring -> number)
  (encodeURIComponent : jsstring -> outcome jsstring)
  (localeCompare : jsstring -> jsstring -> Z)
  (Intl_format : Z -> outcome jsstring)
  (JSON_stringify_value : value -> jsstring)
  (JSON_parse_value : jsstring -> outcome value)
  (storage_accepts : gmap jsstring jsstring -> jsstring -> jsstring -> bool).

Local Abbreviation normalize :=
  (normalizeMod toLowerCase Date_getTime Number_of_string encodeURIComponent).
Local Abbreviation item :=
  (catalog_item toLowerCase Date_getTime Number_of_string encodeURIComponent).
Local Abbreviation view := (applyFiltersAndSort toLowerCase localeCompare).
Local Abbreviation save_filters :=
  (saveFiltersToStorage storage_accepts JSON_stringify_value).
Local Abbreviation load_filters := (loadFiltersFromStorage JSON_parse_value).

(** X15.  For a record of the catalog the date on the card is the host's
    formatting of the release timestamp, and the release date as the record
    holds it when there is no timestamp or the formatter raises; the dash
    never stands in for it. *)
Theorem formatDateRu_of_record (raw : value) (r : Mod) :
  normalize raw = Return (Some r) ->
  formatDateRu Date_getTime Intl_format (m_release_date r) =
  match m_releaseDateMs r with
  | Some ms =>
      match Intl_format ms with
      | Return shown => shown
      | Throw _ => m_release_date r
      end
  | None => m_release_date r
  end.
Proof.
  intros H.
  pose proof (normalizeMod_record _ _ _ _ raw r H)
    as (_ & _ & _ & _ & Hdate & _ & Hms & _).
  assert (Htrim : safeToStr (VStr (m_release_date r)) dash = m_release_date r).
  { unfold safeToStr. rewrite Hdate. apply trim_idemp. }
  unfold formatDateRu. rewrite <- Hms, Htrim.
  destruct (m_releaseDateMs r); reflexivity.
Qed.

Lemma filters_key_fresh :
  FILTERS_STORAGE_KEY <> CACHE_KEY /\ FILTERS_STORAGE_KEY <> CACHE_EXPIRY_KEY.
Proof. split; intros H; vm_compute in H; discriminate. Qed.

Lemma loadFilters_after_save (state : State) (ls : gmap jsstring jsstring) :
  storage_accepts ls FILTERS_STORAGE_KEY (JSON_stringify_value (filters_of state))
    = true ->
  JSON_stringify_value (filters_of state) <> [] ->
  JSON_parse_value (JSON_stringify_value (filters_of state))
    = Return (filters_of state) ->
  load_filters (save_filters state ls) =
  Some (mkFilters (or_default (VStr (s_query state)) DEFAULTS_query)
          (or_default (VStr (s_status state)) DEFAULTS_status)
          (Data (or_default (VStr (s_sort state)) DEFAULTS_sort))).
Proof.
  intros Hw Hne Hjson.
  unfold saveFiltersToStorage, setItem. rewrite Hw.
  unfold loadFiltersFromStorage. rewrite lookup_insert_eq.
  destruct (JSON_stringify_value (filters_of state)) as [|u t] eqn:E; [congruence|].
  cbn [nonempty]. rewrite Hjson. reflexivity.
Qed.

(** X16.  Filters saved to a storage that takes the write, and whose JSON
    text reads back, are loaded as they were saved, but for an empty status
    or sort, which loads as its default. *)
Theorem filters_round_trip (state : State) (ls : gmap jsstring jsstring) :
  storage_accepts ls FILTERS_STORAGE_KEY (JSON_stringify_value (filters_of state))
    = true ->
  JSON_stringify_value (filters_of state) <> [] ->
  JSON_parse_value (JSON_stringify_value (filters_of state))
    = Return (filters_of state) ->
  load_filters (save_filters state ls) =
  Some (mkFilters (VStr (s_query state))
          (VStr (if nonempty (s_status state) then s_status state
                 else DEFAULTS_status))
          (Data (VStr (if nonempty (s_sort state) then s_sort state
                       else DEFAULTS_sort)))).
Proof.
  intros Hw Hne Hjson. rewrite (loadFilters_after_save state ls Hw Hne Hjson).
  unfold or_default. cbn [truthy].
  f_equal. f_equal.
  - destruct (s_query state); reflexivity.
  - destruct (s_status state); reflexivity.
  - destruct (s_sort state); reflexivity.
Qed.

(** X17.  [loadFiltersFromStorage] gives null exactly when nothing is
    stored, the stored text is empty or no JSON, or it parses to null (or to
    undefined, which no JSON text does).
    Whatever else is stored, the status and the sort it gives are truthy,
    strings or not, and the query is truthy or the empty string. *)
Theorem loadFilters_result (ls : gmap jsstring jsstring) :
  (load_filters ls = None <->
   match ls !! FILTERS_STORAGE_KEY with
   | None => True
   | Some stored =>
       stored = [] \/ (exists e, JSON_parse_value stored = Throw e)
       \/ JSON_parse_value stored = Return VNull
       \/ JSON_parse_value stored = Return VUndefined
   end)
  /\ forall f, load_filters ls = Some f ->
       (f_query f = VStr [] \/ truthy (f_query f) = true) /\
       truthy (f_status f) = true /\
       match f_sort f with
       | Data v => truthy v = true
       | ArraySort => True
       end.
Proof.
  unfold loadFiltersFromStorage.
  destruct (ls !! FILTERS_STORAGE_KEY) as [stored|]; [|split; [tauto | discriminate]].
  destruct stored as [|u t]; cbn [nonempty].
  { split; [tauto | discriminate]. }
  destruct (JSON_parse_value (u :: t)) as [filters|e].
  2:{ split; [|discriminate]. split; [eauto | reflexivity]. }
  assert (Hor : forall v d, d <> [] -> truthy (or_default v d) = true).
  { intros v d Hd. unfold or_default. destruct (truthy v) eqn:E; [exact E|].
    destruct d; [congruence | reflexivity]. }
  destruct (is_nullish filters) eqn:En.
  - split; [|discriminate]. split; [intros _|reflexivity].
    right. right. destruct filters; try discriminate; [right | left]; reflexivity.
  - split.
    + split; [discriminate|].
      intros [H | [[e H] | [H | H]]]; try discriminate;
        injection H as ->; discriminate.
    + intros f Hf. injection Hf as <-. cbn [f_query f_status f_sort].
      split; [|split].
      * unfold or_default. destruct (truthy (get filters (str "query"))) eqn:E;
          [right; exact E | left; reflexivity].
      * apply Hor. discriminate.
      * destruct filters; try exact I; apply Hor; discriminate.
Qed.


Lemma defaults_trimmed :
  trimmed_text DEFAULTS_status /\ trimmed_text DEFAULTS_sort.
Proof. split; (split; [discriminate | reflexivity]). Qed.

Lemma or_default_trimmed (v : value) (d : jsstring) :
  trimmed_text d ->
  trimmed_text (if nonempty (safeToStr v []) then safeToStr v [] else d).
Proof.
  intros Hd. destruct (nonempty (safeToStr v [])) eqn:E; [|exact Hd].
  split; [|apply trim_idemp]. intros Hx. rewrite Hx in E. discriminate.
Qed.

Lemma syncStateFromControls_trimmed (els : Controls) (state : State) :
  trim (s_query (syncStateFromControls els state))
  = s_query (syncStateFromControls els state).
Proof.
  unfold syncStateFromControls. cbn [s_query].
  destruct (c_search els); [apply trim_idemp | reflexivity].
Qed.

Lemma syncStateFromControls_nonempty (els : Controls) (state : State) :
  trimmed_text (s_status (syncStateFromControls els state)) /\
  trimmed_text (s_sort (syncStateFromControls els state)).
Proof.
  unfold syncStateFromControls. cbn [s_status s_sort].
  destruct defaults_trimmed as [Hst Hso]. split.
  - destruct (c_statusFilter els); [apply or_default_trimmed|]; exact Hst.
  - destruct (c_sortBy els); [apply or_default_trimmed|]; exact Hso.
Qed.

(** X18.  Reading the controls leaves the catalog and the statistics as
    they are and gives a trimmed query and a status and a sort that are
    trimmed and not empty: the trimmed value of the control, or the default
    when the control is missing or blank. *)
Theorem syncStateFromControls_state (els : Controls) (state : State) :
  let synced := syncStateFromControls els state in
  s_mods synced = s_mods state /\ s_stats synced = s_stats state /\
  trim (s_query synced) = s_query synced /\
  trimmed_text (s_status synced) /\ trimmed_text (s_sort synced) /\
  (c_search els = None -> s_query synced = DEFAULTS_query) /\
  (forall v, c_search els = Some v -> s_query synced = safeToStr v []) /\
  (forall v, c_statusFilter els = Some v -> safeToStr v [] <> [] ->
             s_status synced = safeToStr v []) /\
  (forall v, c_sortBy els = Some v -> safeToStr v [] <> [] ->
             s_sort synced = safeToStr v []).
Proof.
  intros synced. subst synced.
  split; [reflexivity|]. split; [reflexivity|].
  split; [apply syncStateFromControls_trimmed|].
  unfold syncStateFromControls. cbn [s_query s_status s_sort].
  destruct defaults_trimmed as [Hst Hso].
  split; [|split; [|split; [|split; [|split]]]].
  - destruct (c_statusFilter els); [apply or_default_trimmed|]; exact Hst.
  - destruct (c_sortBy els); [apply or_default_trimmed|]; exact Hso.
  - intros ->. reflexivity.
  - intros v ->. reflexivity.
  - intros v -> Hne. destruct (safeToStr v []); [congruence | reflexivity].
  - intros v -> Hne. destruct (safeToStr v []); [congruence | reflexivity].
Qed.

(** X19.  After the state is read from the controls, whenever the view
    returns, an item is in it exactly when the trimmed, lower-cased query is
    empty or occurs in its haystack and the status filter lets it through;
    and the view returns unless the sort control holds the name of a member
    of [Object.prototype].  ([toLowerCase] is taken to leave a trimmed
    string trimmed.) *)
Theorem view_after_sync (els : Controls) (state : State) :
  (forall s, trim s = s -> trim (toLowerCase s) = toLowerCase s) ->
  Forall item (s_mods state) ->
  let synced := syncStateFromControls els state in
  (forall out,
     view synced = Return out ->
     forall m,
       In m out <->
       In m (s_mods state) /\ view_selects_trimmed toLowerCase synced m) /\
  (~ In (s_sort synced) object_prototype_keys ->
   exists out, view synced = Return out).
Proof.
  intros Hlower Hitems synced. split.
  - intros out Hout m.
    assert (Hq : trim (toLowerCase (s_query synced)) = toLowerCase (s_query synced)).
    { apply Hlower, syncStateFromControls_trimmed. }
    unfold view_selects_trimmed. rewrite Hq.
    rewrite (view_In toLowerCase localeCompare synced out m Hout).
    apply (filtered_mods_In toLowerCase Date_getTime Number_of_string
             encodeURIComponent synced m Hitems).
  - intros Hkey. eexists. apply view_returns, Hkey.
Qed.

End PageProperties.

(** ** The URL written *)

Lemma urlencode_ascii (s : jsstring) :
  Forall is_unit s -> Forall (fun c => 0 <= c < 128) (urlencode s).
Proof.
  intros Hwf. eapply Forall_impl; [apply urlencode_chars, Hwf|].
  unfold url_char. intros c Hc. lia.
Qed.

Lemma query_string_text (state : State) :
  query_string state =
  str "q=" ++ urlencode (s_query state) ++ str "&status="
  ++ urlencode (s_status state) ++ str "&sort=" ++ urlencode (s_sort state).
Proof.
  unfold query_string, URLSearchParams_toString. cbn [map join].
  change (urlencode (str "q")) with (str "q").
  change (urlencode (str "status")) with (str "status").
  change (urlencode (str "sort")) with (str "sort").
  change (str "q=") with (str "q" ++ [0x3D]).
  change (str "&status=") with ([0x26] ++ str "status" ++ [0x3D]).
  change (str "&sort=") with ([0x26] ++ str "sort" ++ [0x3D]).
  rewrite <- !app_assoc. reflexivity.
Qed.

Section WriteProperties.

Context (History_url : Browser -> jsstring -> option (jsstring * jsstring * jsstring)).

(** X20.  The query string [writeStateToURL] makes is
    [q=...&status=...&sort=...], of the state alone and plain ASCII.  When
    the history refuses the URL, [writeStateToURL] raises [SecurityError]
    and nothing is written.  When the history takes it, path and fragment
    stay, the URL replaces the current history entry or is pushed over it,
    and reading the URL back gives the state with every lone surrogate
    replaced by U+FFFD: the state itself exactly when its query, status and
    sort are well-formed. *)
Theorem writeStateToURL_written (state : State) (w : Browser) (replace : bool) :
  Forall is_unit (s_query state) -> Forall is_unit (s_status state) ->
  Forall is_unit (s_sort state) ->
  let url := pathname w ++ [0x3F] ++ query_string state ++ hash w in
  query_string state =
    str "q=" ++ urlencode (s_query state) ++ str "&status="
    ++ urlencode (s_status state) ++ str "&sort=" ++ urlencode (s_sort state) /\
  Forall (fun c => 0 <= c < 128) (query_string state) /\
  (History_url w url = None ->
   writeStateToURL History_url replace state w = Throw SecurityError) /\
  (takes_url History_url w state ->
   exists w',
     writeStateToURL History_url replace state w = Return w' /\
     pathname w' = pathname w /\ hash w' = hash w /\
     head (history w') = Some url /\
     length (history w') =
       (if replace then Nat.max 1 (length (history w)) else S (length (history w))) /\
     readStateFromURL w' state = well_formed_state state /\
     (readStateFromURL w' state = state <->
      isWellFormed (s_query state) = true /\ isWellFormed (s_status state) = true /\
      isWellFormed (s_sort state) = true)).
Proof.
  intros Hq Hs Ho url.
  split; [apply query_string_text|]. split; [|split].
  - rewrite query_string_text.
    assert (Hlit : forall t : string,
              forallb (fun c => (0 <=? c) && (c <? 128)) (str t) = true ->
              Forall (fun c => 0 <= c < 128) (str t)).
    { intros t Ht. apply Forall_forall. intros c Hc.
      rewrite forallb_forall in Ht. apply list_elem_of_In, Ht in Hc. lia. }
    repeat (apply Forall_app; split);
      try (apply urlencode_ascii; assumption); apply Hlit; reflexivity.
  - subst url. unfold writeStateToURL, query_string. rewrite params_of_state.
    intros ->. reflexivity.
  - intros Htakes.
    destruct (read_after_write History_url state state w replace Hq Hs Ho Htakes)
      as (w' & Hw & _ & Hread).
    exists w'. split; [exact Hw|].
    rewrite (writeStateToURL_taken History_url state w replace Htakes) in Hw.
    injection Hw as <-. cbn [pathname hash history head length].
    split; [reflexivity|]. split; [reflexivity|]. split; [reflexivity|].
    split; [destruct replace; [destruct (history w); cbn [tail length]; lia
                                | reflexivity]|].
    split; [exact Hread|].
    rewrite Hread.
    rewrite <- (toWellFormed_fixed _ Hq), <- (toWellFormed_fixed _ Hs),
      <- (toWellFormed_fixed _ Ho).
    destruct state as [mods q st so stats]. cbn [s_mods s_query s_status s_sort s_stats].
    split.
    + intros E. injection E as E1 E2 E3. repeat split; assumption.
    + intros (E1 & E2 & E3). rewrite E1, E2, E3. reflexivity.
Qed.

End WriteProperties.

(** ** Cards and results *)

Lemma clearContainer_empty (children : list node) : clearContainer children = [].
Proof. induction children; [reflexivity | assumption]. Qed.

Lemma text_of_nonempty (s : jsstring) : s <> [] -> text_of s = [Text s].
Proof. destruct s; [congruence | reflexivity]. Qed.

Lemma or_text_nonempty (s d : jsstring) : s <> [] -> or_text s d = s.
Proof. destruct s; [congruence | reflexivity]. Qed.

Section RenderProperties.

Context (toLowerCase : jsstring -> jsstring) (Date_getTime : jsstring -> option Z)
  (Number_of_string : jsstring -> number)
  (encodeURIComponent : jsstring -> outcome jsstring)
  (localeCompare : jsstring -> jsstring -> Z)
  (History_url : Browser -> jsstring -> option (jsstring * jsstring * jsstring))
  (Intl_format : Z -> outcome jsstring)
  (JSON_stringify_value : value -> jsstring)
  (JSON_parse_value : jsstring -> outcome value)
  (storage_accepts : gmap jsstring jsstring -> jsstring -> jsstring -> bool)
  (Number_toString : number -> jsstring) (innerWidth : Z).

Local Abbreviation normalize :=
  (normalizeMod toLowerCase Date_getTime Number_of_string encodeURIComponent).
Local Abbreviation view := (applyFiltersAndSort toLowerCase localeCompare).
Local Abbreviation card :=
  (createModCard toLowerCase Date_getTime Intl_format Number_toString innerWidth).
Local Abbreviation render :=
  (renderMods toLowerCase Date_getTime Intl_format Number_toString innerWidth).
Local Abbreviation update_results :=
  (updateResults toLowerCase Date_getTime localeCompare Intl_format
     JSON_stringify_value storage_accepts Number_toString innerWidth).
Local Abbreviation save_filters :=
  (saveFiltersToStorage storage_accepts JSON_stringify_value).

Lemma renderMods_result (mods : list Mod) (page : Dom) :
  match modsContainer page with
  | None => render mods page = Throw TypeError
  | Some _ =>
      render mods page =
      Return (mkDom (Some (map card mods))
                (setHidden (emptyState page)
                   (match mods with [] => false | _ => true end))
                (statusRegion page))
  end.
Proof.
  unfold renderMods. destruct (modsContainer page) as [old|]; [|reflexivity].
  rewrite clearContainer_empty. destruct mods; reflexivity.
Qed.

(** X21.  Whatever the container held, after [renderMods] it holds one card
    for each record, in order, and nothing else, so that rendering again
    changes nothing; the empty-state element, if there is one, is shown
    exactly when there is no record; the status region is left alone.  A
    missing container makes it raise, a missing empty-state element does
    not. *)
Theorem renderMods_shown (mods : list Mod) (page : Dom) :
  match modsContainer page with
  | None => render mods page = Throw TypeError
  | Some _ =>
      exists page',
        render mods page = Return page' /\
        modsContainer page' = Some (map card mods) /\
        emptyState page' =
          match emptyState page, mods with
          | None, _ => None
          | Some _, [] => Some false
          | Some _, _ => Some true
          end /\
        statusRegion page' = statusRegion page /\
        render mods page' = Return page'
  end.
Proof.
  pose proof (renderMods_result mods page) as H.
  destruct (modsContainer page) as [old|]; [|exact H].
  eexists. split; [exact H|].
  split; [reflexivity|]. split; [|split; [reflexivity|]].
  - cbn [emptyState]. destruct (emptyState page), mods; reflexivity.
  - pose proof (renderMods_result mods
                  (mkDom (Some (map card mods))
                     (setHidden (emptyState page)
                        (match mods with [] => false | _ => true end))
                     (statusRegion page))) as H2.
    cbn [modsContainer emptyState statusRegion] in H2. rewrite H2.
    destruct (emptyState page); reflexivity.
Qed.

Lemma view_Permutation (state : State) (shown : list Mod) :
  view state = Return shown -> Permutation (filtered_mods toLowerCase state) shown.
Proof.
  rewrite (view_unfold toLowerCase localeCompare). apply Array_sort_Permutation.
Qed.

(** X22.  [updateResults] computes the view first: when that raises, as it
    does under a sort key that names a member of [Object.prototype] such as
    [__proto__], [updateResults] raises the same error and nothing is shown,
    announced or saved.  When the view returns and the container is on the
    page, it shows one card for each item of the view, in the order of the
    view, announces in the status region (if there is one) the number of
    cards shown, with the query and the status filter when they are set, and
    saves the filters; the items shown are those the filters keep, each as
    often as the catalog has it.  Without the container it raises before
    anything is shown, announced or saved.  The view returns under every
    sort key that names no member of [Object.prototype]. *)
Theorem updateResults_announces (state : State) (page : Dom)
    (ls : gmap jsstring jsstring) :
  match view state with
  | Throw e => update_results state page ls = Throw e
  | Return shown =>
      match modsContainer page with
      | None => update_results state page ls = Throw TypeError
      | Some _ =>
          exists page',
            update_results state page ls = Return (page', save_filters state ls) /\
            modsContainer page' = Some (map card shown) /\
            emptyState page' =
              setHidden (emptyState page)
                (match shown with [] => false | _ => true end) /\
            statusRegion page' =
              match statusRegion page with
              | Some _ => Some (found_message state (length (map card shown)))
              | None => None
              end /\
            Permutation (filtered_mods toLowerCase state) shown
      end
  end
  /\ (~ In (s_sort state) object_prototype_keys ->
      exists shown, view state = Return shown).
Proof.
  split; [|intros Hkey; eexists; apply view_returns, Hkey].
  unfold updateResults.
  destruct (view state) as [shown|e] eqn:Ev; [|reflexivity].
  cbn [mbind outcome_bind].
  pose proof (renderMods_result shown page) as Hr.
  destruct (modsContainer page) as [old|]; rewrite Hr; [|reflexivity].
  cbn [mbind outcome_bind mret outcome_ret].
  eexists. split; [reflexivity|].
  unfold setStatusMessage. cbn [statusRegion].
  rewrite length_map.
  destruct (statusRegion page) as [t|]; cbn [modsContainer emptyState statusRegion].
  - split; [reflexivity|]. split; [reflexivity|].
    split; [reflexivity | apply view_Permutation, Ev].
  - split; [reflexivity|]. split; [reflexivity|].
    split; [reflexivity | apply view_Permutation, Ev].
Qed.


Lemma truncate_text_nonempty (v : value) (maxChars : nat) :
  safeToStr v [] <> [] ->
  text (truncateUnicode (VStr (safeToStr v [])) maxChars true ellipsis) <> [].
Proof.
  intros Hne.
  destruct (truncate_trimmed_bound v maxChars) as (_ & _ & Hsame & Hcut).
  destruct (truncated (truncateUnicode (VStr (safeToStr v [])) maxChars true ellipsis))
    eqn:E.
  - destruct (Hcut eq_refl) as (kept & rest & _ & -> & _).
    intros Hx. apply app_eq_nil in Hx. destruct Hx as [_ Hx]. discriminate Hx.
  - rewrite (Hsame eq_refl). exact Hne.
Qed.

Lemma texts_spans (tags : list jsstring) :
  Forall trimmed_text tags ->
  concat (map texts
            (map (fun tag =>
                    Element (str "span")
                      [(str "class", str "tag"); (str "role", str "listitem")]
                      (text_of tag)) tags)) = tags.
Proof.
  induction 1 as [|t tags [Ht _] _ IH]; [reflexivity|].
  cbn [map concat texts]. rewrite (text_of_nonempty t Ht), IH. reflexivity.
Qed.

Lemma texts_createTags (tags : list jsstring) :
  Forall trimmed_text tags ->
  texts (createTags innerWidth tags) =
  tags ++ (if (innerWidth <=? 768) && (3 <? Z.of_nat (length tags))
           then [str "+" ++ String_of_Z (Z.of_nat (length tags) - 3)]
           else []).
Proof.
  intros Ht. unfold createTags.
  destruct (innerWidth <=? 768); cbn [andb].
  - destruct (3 <? Z.of_nat (length tags)); cbn [texts].
    + rewrite map_app, concat_app, (texts_spans tags Ht). reflexivity.
    + rewrite (texts_spans tags Ht), app_nil_r. reflexivity.
  - cbn [texts]. rewrite (texts_spans tags Ht), app_nil_r. reflexivity.
Qed.

Lemma record_size_finite (raw : value) (r : Mod) (n : number) :
  normalize raw = Return (Some r) -> m_size_mb r = Some n -> isFinite n = true.
Proof.
  intros H Hn.
  pose proof (normalizeMod_record _ _ _ _ raw r H)
    as (_ & _ & _ & _ & _ & _ & _ & Hsize & _).
  rewrite Hsize, coerce_size_mb_cases in Hn.
  destruct (get raw (str "size_mb")) as [| | |m|s| |]; try discriminate.
  - destruct (isFinite m) eqn:E; [|discriminate]. injection Hn as <-. exact E.
  - destruct (isFinite (Number_of_string s)) eqn:E; [|discriminate].
    injection Hn as <-. exact E.
Qed.

(** X23.  The card of a catalog record shows, in this order: the title, cut
    to 64 code points; the status; the author; the date; the description,
    cut to 220 code points; every tag, and on a narrow window with more than
    three tags the button "+N" for the N tags beyond three; the size when
    the record has one; the word for the source link when it has one; and
    the download link, which is the last child of the card, a link to the
    download URL or, without one, a disabled link to "#".  None of the
    placeholder texts for a missing name, status or author is shown. *)
Theorem createModCard_texts (raw : value) (r : Mod) :
  normalize raw = Return (Some r) ->
  texts (card r) =
    [text (truncateTitle (VStr (m_name r))); m_status r;
     LABEL_AUTHOR ++ str ": " ++ m_original_author r;
     LABEL_DATE ++ str ": "
     ++ formatDateRu Date_getTime Intl_format (m_release_date r);
     text (truncateDescription (VStr (m_description r)))]
    ++ m_tags r
    ++ (if (innerWidth <=? 768) && (3 <? Z.of_nat (length (m_tags r)))
        then [str "+" ++ String_of_Z (Z.of_nat (length (m_tags r)) - 3)]
        else [])
    ++ match m_size_mb r with
       | Some n => [LABEL_SIZE ++ str ": " ++ Number_toString n ++ UNIT_MB]
       | None => []
       end
    ++ (if nonempty (m_source_url r) then [LABEL_SOURCE] else [])
    ++ [LABEL_DOWNLOAD]
  /\ last (children_of (card r)) =
     Some (Element (str "a")
             ([(str "class", str "download-btn"); (str "target", str "_blank");
               (str "rel", str "noopener noreferrer")]
              ++ (if nonempty (m_downloadUrl r) then [(str "href", m_downloadUrl r)]
                  else [(str "href", str "#"); (str "aria-disabled", str "true");
                        (str "title", NO_DOWNLOAD)]))
             [Text LABEL_DOWNLOAD]).
Proof.
  intros H.
  pose proof (record_fields_trimmed _ _ _ _ raw r H) as Hf.
  pose proof (record_lists_trimmed _ _ _ _ raw r H) as (_ & Htags & _).
  pose proof (normalizeMod_record _ _ _ _ raw r H)
    as (_ & Hname & Hdesc & _).
  repeat match goal with
         | Hx : Forall _ (_ :: _) |- _ =>
             apply Forall_cons in Hx; destruct Hx as [[? ?] Hx]
         end.
  assert (Htitle : text (truncateTitle (VStr (m_name r))) <> []).
  { unfold truncateTitle.
    replace (safeToStr (VStr (m_name r)) []) with (safeToStr (get raw (str "name")) [])
      by (rewrite <- Hname; symmetry; assumption).
    apply truncate_text_nonempty. rewrite <- Hname. assumption. }
  assert (Hdtext : text (truncateDescription (VStr (m_description r))) <> []).
  { unfold truncateDescription.
    replace (safeToStr (VStr (m_description r)) [])
      with (safeToStr (get raw (str "description")) [])
      by (rewrite <- Hdesc; symmetry; assumption).
    apply truncate_text_nonempty. rewrite <- Hdesc. assumption. }
  unfold createModCard.
  rewrite (or_text_nonempty (m_name r) ALT_DEFAULT),
    (or_text_nonempty (m_name r) TITLE_DEFAULT),
    (or_text_nonempty (m_status r) STATUS_UNKNOWN),
    (or_text_nonempty (m_original_author r) dash) by assumption.
  assert (Hd0 : or_text (m_description r) [] = m_description r)
    by (unfold or_text; destruct (m_description r); reflexivity).
  rewrite Hd0.
  split.
  - cbn [texts map concat app children_of].
    rewrite (text_of_nonempty _ Htitle), (text_of_nonempty _ Hdtext).
    rewrite (text_of_nonempty (m_status r)) by assumption.
    unfold createMetaRow. cbn [texts map concat app].
    rewrite !map_app, !concat_app. cbn [map concat texts app].
    rewrite !app_nil_r.
    f_equal. f_equal. f_equal. f_equal. f_equal.
    assert (Etags : concat (map texts
                (match m_tags r with
                 | [] => []
                 | _ :: _ => [createTags innerWidth (m_tags r)]
                 end)) =
              m_tags r ++
              (if (innerWidth <=? 768) && (3 <? Z.of_nat (length (m_tags r)))
               then [str "+" ++ String_of_Z (Z.of_nat (length (m_tags r)) - 3)]
               else [])).
    { destruct (m_tags r) as [|t ts] eqn:Et.
      - cbn [map concat length app]. rewrite andb_false_r. reflexivity.
      - cbn [map concat]. rewrite app_nil_r.
        rewrite (texts_createTags _ Htags). reflexivity. }
    rewrite Etags, <- !app_assoc. f_equal. f_equal.
    destruct (m_size_mb r) as [n|] eqn:En.
    + rewrite (record_size_finite raw r n H En).
      destruct (nonempty (m_source_url r)); reflexivity.
    + destruct (nonempty (m_source_url r)); reflexivity.
  - cbn [children_of]. rewrite !app_assoc, last_snoc. reflexivity.
Qed.


(** X24.  When a select box changes (and when the debounced search input
    runs), the state becomes what the controls hold.  If the history
    refuses the URL the handler raises [SecurityError] there: the location
    stays, and nothing is shown or saved.  If the history takes it, the
    sort control holds no name of a member of [Object.prototype] and the
    container is on the page, the URL is rewritten so that reading it back
    gives that state, the cards shown are those of the view of that state,
    and the filters saved load back as that state.  (The control values are
    taken to be well-formed strings, the storage to take the write and the
    JSON text to read back.) *)
Theorem onStatusChange_agrees (els : Controls) (state : State) (w : Browser)
    (page : Dom) (ls : gmap jsstring jsstring) (old : list node) :
  let synced := syncStateFromControls els state in
  let on_change :=
    onStatusChange toLowerCase Date_getTime localeCompare History_url Intl_format
      JSON_stringify_value storage_accepts Number_toString innerWidth
      els state w page ls in
  (History_url w (pathname w ++ [0x3F] ++ query_string synced ++ hash w) = None ->
   on_change = (synced, w, Throw SecurityError)) /\
  (modsContainer page = Some old ->
   isWellFormed (s_query synced) = true ->
   isWellFormed (s_status synced) = true ->
   isWellFormed (s_sort synced) = true ->
   storage_accepts ls FILTERS_STORAGE_KEY (JSON_stringify_value (filters_of synced))
     = true ->
   JSON_stringify_value (filters_of synced) <> [] ->
   JSON_parse_value (JSON_stringify_value (filters_of synced))
     = Return (filters_of synced) ->
   takes_url History_url w synced ->
   ~ In (s_sort synced) object_prototype_keys ->
   exists w' page' ls' shown,
     on_change = (synced, w', Return (page', ls')) /\
     readStateFromURL w' state = synced /\
     view synced = Return shown /\
     modsContainer page' = Some (map card shown) /\
     loadFiltersFromStorage JSON_parse_value ls' =
     Some (mkFilters (VStr (s_query synced)) (VStr (s_status synced))
             (Data (VStr (s_sort synced))))).
Proof.
  intros synced on_change. subst on_change. split.
  - intros Hnone. unfold onStatusChange. fold synced.
    unfold writeStateToURL. rewrite params_of_state.
    unfold query_string in Hnone. rewrite Hnone. reflexivity.
  - intros Hc Hq Hs Ho Hw Hne Hjson Htakes Hkey.
    destruct (url_round_trip_of_state History_url synced state w true Hq Hs Ho Htakes)
      as (w' & Hwrite & Hread).
    unfold onStatusChange. fold synced. rewrite Hwrite.
    unfold updateResults.
    rewrite (view_returns toLowerCase localeCompare synced Hkey).
    cbn [mbind outcome_bind].
    set (shown := array_sort _ _).
    pose proof (renderMods_result shown page) as Hr.
    rewrite Hc in Hr. rewrite Hr. cbn [mbind outcome_bind mret outcome_ret].
    eexists _, _, _, shown. split; [reflexivity|].
    split; [exact Hread|]. split; [reflexivity|]. split.
    + unfold setStatusMessage. cbn [statusRegion].
      destruct (statusRegion page); reflexivity.
    + rewrite (loadFilters_after_save JSON_stringify_value JSON_parse_value
                 storage_accepts synced ls Hw Hne Hjson).
      destruct (syncStateFromControls_nonempty els state) as (Hst & Hso).
      fold synced in Hst, Hso.
      unfold or_default. cbn [truthy].
      destruct Hst as [Hst _], Hso as [Hso _].
      destruct (s_query synced), (s_status synced), (s_sort synced);
        try congruence; reflexivity.
Qed.

End RenderProperties.

(** ** Worked examples of the further properties *)

Lemma drive_mod_normalized :
  normalizeMod Sample.toLowerCase Sample.Date_getTime Sample.Number_of_string
    Sample.encodeURIComponent drive_raw = Return (Some drive_mod).
Proof. vm_compute. reflexivity. Qed.

(** The Drive record: trimmed name, tags and mirror, the URLs made from the
    two identifiers, the haystack. *)
Example drive_mod_fields :
  m_name drive_mod = str "Drive Mod" /\
  m_tags drive_mod = [str "vn"; str "short"] /\
  m_mirrors drive_mod = [str "https://m.example/x"] /\
  m_imageUrl drive_mod = DRIVE_VIEW ++ str "img%201" /\
  m_downloadUrl drive_mod = DRIVE_DOWNLOAD ++ str "f%2F1" /\
  m_haystack drive_mod = str "drive mod | on drive | w | vn short".
Proof. vm_compute. repeat split. Qed.

Lemma normalizeMod_fields_trimmed_witness :
  Forall trimmed_text (m_mirrors drive_mod ++ m_tags drive_mod ++ m_warnings drive_mod)
  /\ trimmed_text (m_name drive_mod).
Proof.
  destruct (normalizeMod_fields_trimmed Sample.toLowerCase Sample.Date_getTime
              Sample.Number_of_string Sample.encodeURIComponent drive_raw drive_mod
              drive_mod_normalized) as (Hf & _ & Hl & _).
  split; [exact Hl|].
  apply Forall_cons in Hf. destruct Hf as [_ Hf].
  apply Forall_cons in Hf. exact (proj1 Hf).
Defined.

Lemma normalizeMod_urls_witness :
  m_downloadUrl drive_mod = [] <->
  safeToStr (get drive_raw (str "drive_url")) [] = [] /\
  safeToStr (get drive_raw (str "file_id")) [] = [].
Proof.
  exact (proj2 (proj2 (normalizeMod_urls Sample.toLowerCase Sample.Date_getTime
                         Sample.Number_of_string Sample.encodeURIComponent
                         drive_raw drive_mod drive_mod_normalized))).
Defined.

(** The Drive record is returned; the record whose image identifier is a
    lone surrogate raises [URIError], numeric tag or not. *)
Lemma normalizeMod_returns_iff_witness :
  (exists r,
     normalizeMod Sample.toLowerCase Sample.Date_getTime Sample.Number_of_string
       Sample.encodeURIComponent drive_raw = Return (Some r)) /\
  forallb is_string (toArray (get surrogate_image_raw (str "tags"))) = false /\
  normalizeMod Sample.toLowerCase Sample.Date_getTime Sample.Number_of_string
    Sample.encodeURIComponent surrogate_image_raw = Throw URIError.
Proof.
  assert (Hmand : forall raw,
            forallb (fun k => nonempty (safeToStr (get raw k) [])) mandatory_fields
            = true ->
            Forall (fun k => safeToStr (get raw k) [] <> []) mandatory_fields).
  { intros raw H. rewrite forallb_forall in H. apply Forall_forall. intros k Hk.
    apply list_elem_of_In, H in Hk. intros E. rewrite E in Hk. discriminate Hk. }
  split; [|split; [reflexivity|]].
  - apply (proj1 (normalizeMod_returns_iff Sample.toLowerCase Sample.Date_getTime
                    Sample.Number_of_string Sample.encodeURIComponent
                    (match drive_raw with VObj props => props | _ => [] end)
                    (Hmand drive_raw eq_refl))).
    split; [reflexivity|]. split; eexists; vm_compute; reflexivity.
  - apply (proj1 (proj2 (proj2 (normalizeMod_returns_iff Sample.toLowerCase
                                  Sample.Date_getTime Sample.Number_of_string
                                  Sample.encodeURIComponent
                                  (match surrogate_image_raw with
                                   | VObj props => props
                                   | _ => []
                                   end)
                                  (Hmand surrogate_image_raw eq_refl))))).
    + reflexivity.
    + vm_compute. reflexivity.
Defined.

Lemma haystack_of_record_witness :
  m_haystack drive_mod =
  Sample.toLowerCase
    (m_name drive_mod ++ str " | " ++ m_description drive_mod ++ str " | "
     ++ m_original_author drive_mod
     ++ match m_tags drive_mod with
        | [] => []
        | tags => str " | " ++ join (str " ") tags
        end).
Proof.
  exact (haystack_of_record Sample.toLowerCase Sample.Date_getTime
           Sample.Number_of_string Sample.encodeURIComponent drive_raw drive_mod
           drive_mod_normalized).
Defined.

Lemma compare_units_asym (a : jsstring) :
  forall b, 0 < Sample.compare_units a b -> Sample.compare_units b a <= 0.
Proof.
  induction a as [|x a IH]; intros [|y b]; simpl; try lia.
  destruct (Z.ltb_spec x y), (Z.ltb_spec y x); try lia. apply IH.
Qed.

Lemma view_name_order_witness :
  exists out,
    applyFiltersAndSort Sample.toLowerCase Sample.localeCompare
      (dated_state (str "name_asc")) = Return out /\
    out = [dawn; nightfall; sunrise1; sunrise2; sunset] /\
    Sample.localeCompare (m_name (nth 1 out blank_mod)) (m_name (nth 2 out blank_mod))
      <= 0.
Proof.
  destruct (proj1 (view_name_order Sample.toLowerCase Sample.localeCompare
                     (dated_state (str "name_asc")) sample_localeCompare_trans
                     (fun a b => compare_units_asym _ _)) eq_refl)
    as (out & Hout & Hord).
  exists out. split; [exact Hout|].
  assert (E : out = [dawn; nightfall; sunrise1; sunrise2; sunset]).
  { vm_compute in Hout. injection Hout as <-. reflexivity. }
  split; [exact E|].
  apply (Hord 1%nat 2%nat); [rewrite E; reflexivity | rewrite E; reflexivity | lia].
Defined.

Lemma sample_fetch_catalog :
  fetch_catalog Sample.toLowerCase Sample.Date_getTime Sample.Number_of_string
    Sample.encodeURIComponent SamplePage.jsyaml_load
    (Response true (Return (str "mods: sample"))) = inr sample_catalog.
Proof. vm_compute. reflexivity. Qed.

(** The sample file is loaded at one time; half an hour later the
    network is down and the catalog comes from the cache. *)
Lemma loadData_offline_witness :
  let load_data :=
    loadData Sample.toLowerCase Sample.Date_getTime Sample.Number_of_string
      Sample.encodeURIComponent Sample.JSON_stringify
      (Sample.JSON_parse sample_catalog) Sample.storage_accepts
      (Some SamplePage.jsyaml_load) in
  let stored :=
    (load_data (Response true (Return (str "mods: sample"))) 1700000000000 ∅).2 in
  load_data Rejected (1700000000000 + 1800000) stored = (inr sample_catalog, stored).
Proof.
  refine (proj1 (loadData_offline Sample.toLowerCase Sample.Date_getTime
                   Sample.Number_of_string Sample.encodeURIComponent
                   Sample.JSON_stringify (Sample.JSON_parse sample_catalog)
                   Sample.storage_accepts SamplePage.jsyaml_load
                   SamplePage.jsyaml_load
                   (Response true (Return (str "mods: sample"))) Rejected
                   1700000000000 (1700000000000 + 1800000) ∅ sample_catalog
                   FetchRejected sample_fetch_catalog _ _ _ _ _) _).
  - reflexivity.
  - reflexivity.
  - vm_compute. discriminate.
  - vm_compute. reflexivity.
  - reflexivity.
  - vm_compute. discriminate.
Defined.

Lemma formatDateRu_of_record_witness :
  formatDateRu Sample.Date_getTime SamplePage.Intl_format (m_release_date drive_mod) =
  str "day 19483".
Proof.
  rewrite (formatDateRu_of_record Sample.toLowerCase Sample.Date_getTime
             Sample.Number_of_string Sample.encodeURIComponent
             SamplePage.Intl_format drive_raw drive_mod drive_mod_normalized).
  vm_compute. reflexivity.
Defined.

Lemma filters_round_trip_witness :
  loadFiltersFromStorage
    (SamplePage.JSON_parse_value (filters_of cyrillic_state))
    (saveFiltersToStorage Sample.storage_accepts SamplePage.JSON_stringify_value
       cyrillic_state ∅) =
  Some (mkFilters (VStr (s_query cyrillic_state)) (VStr (str "all"))
          (Data (VStr (str "date_desc")))).
Proof.
  refine (filters_round_trip SamplePage.JSON_stringify_value
            (SamplePage.JSON_parse_value (filters_of cyrillic_state))
            Sample.storage_accepts cyrillic_state ∅ _ _ _).
  - reflexivity.
  - vm_compute. discriminate.
  - vm_compute. reflexivity.
Defined.

Lemma lower_unit_space (u : Z) :
  is_trim_space (Sample.lower_unit u) = is_trim_space u.
Proof.
  unfold Sample.lower_unit, is_trim_space.
  destruct ((0x41 <=? u) && (u <=? 0x5A)) eqn:E1; [lia|].
  destruct ((0x410 <=? u) && (u <=? 0x42F)) eqn:E2; [lia|].
  destruct ((0x400 <=? u) && (u <=? 0x40F)) eqn:E3; [lia|].
  reflexivity.
Qed.

Lemma trimStart_lower (s : jsstring) :
  trimStart (Sample.toLowerCase s) = Sample.toLowerCase (trimStart s).
Proof.
  unfold Sample.toLowerCase. induction s as [|u r IH]; [reflexivity|].
  cbn [map trimStart]. rewrite lower_unit_space.
  destruct (is_trim_space u); [exact IH | reflexivity].
Qed.

Lemma rev_lower (s : jsstring) :
  rev (Sample.toLowerCase s) = Sample.toLowerCase (rev s).
Proof. unfold Sample.toLowerCase. symmetry. apply map_rev. Qed.

(** The sample lower-casing leaves a trimmed string trimmed. *)
Lemma sample_lower_trimmed (s : jsstring) :
  trim s = s -> trim (Sample.toLowerCase s) = Sample.toLowerCase s.
Proof.
  intros H. rewrite <- H at 2. unfold trim, trimEnd.
  rewrite trimStart_lower, rev_lower, trimStart_lower, rev_lower. reflexivity.
Qed.

Lemma view_after_sync_witness :
  let synced := syncStateFromControls sample_controls by_name_state in
  s_query synced = str "Mod" /\ s_status synced = str "all" /\
  s_sort synced = str "date_desc" /\
  exists out,
    applyFiltersAndSort Sample.toLowerCase Sample.localeCompare synced = Return out /\
    (In sample_mod out <->
     In sample_mod (s_mods by_name_state) /\
     view_selects_trimmed Sample.toLowerCase synced sample_mod).
Proof.
  split; [reflexivity|]. split; [reflexivity|]. split; [reflexivity|].
  destruct (view_after_sync Sample.toLowerCase Sample.Date_getTime
              Sample.Number_of_string Sample.encodeURIComponent Sample.localeCompare
              sample_controls by_name_state sample_lower_trimmed
              sample_catalog_items) as [Hmem Hreturns].
  destruct (Hreturns (key_not_inherited (str "date_desc") eq_refl)) as (out & Hout).
  exists out. split; [exact Hout|]. apply (Hmem out Hout).
Defined.

Lemma units_checked (s : jsstring) :
  forallb (fun u => (0 <=? u) && (u <=? 0xFFFF)) s = true -> Forall is_unit s.
Proof.
  rewrite forallb_forall, Forall_forall. intros H u Hu.
  apply list_elem_of_In, H in Hu. unfold is_unit. lia.
Qed.

(** The lone surrogate written from the page at "/": read back, it is
    U+FFFD. *)
Lemma writeStateToURL_written_witness :
  exists w',
    writeStateToURL Sample.History_url true lone_surrogate_state sample_browser
      = Return w' /\
    readStateFromURL w' lone_surrogate_state = well_formed_state lone_surrogate_state /\
    s_query (well_formed_state lone_surrogate_state) = [0xFFFD].
Proof.
  assert (Hq : Forall is_unit (s_query lone_surrogate_state))
    by (apply units_checked; reflexivity).
  assert (Hs : Forall is_unit (s_status lone_surrogate_state))
    by (apply units_checked; reflexivity).
  assert (Ho : Forall is_unit (s_sort lone_surrogate_state))
    by (apply units_checked; reflexivity).
  assert (Htakes : takes_url Sample.History_url sample_browser lone_surrogate_state)
    by (vm_compute; reflexivity).
  destruct (proj2 (proj2 (proj2 (writeStateToURL_written Sample.History_url
                                   lone_surrogate_state sample_browser true
                                   Hq Hs Ho))) Htakes)
    as (w' & Hw & _ & _ & _ & _ & Hread & _).
  exists w'. split; [exact Hw|]. split; [exact Hread | reflexivity].
Defined.

(** On a narrow window the card of the Drive record shows its title, its
    status, author and date, its description, its two tags and the download
    link. *)
Lemma createModCard_texts_witness :
  texts (createModCard Sample.toLowerCase Sample.Date_getTime SamplePage.Intl_format
           SamplePage.Number_toString 400 drive_mod) =
  [str "Drive Mod"; STATUS_IN_PROGRESS; LABEL_AUTHOR ++ str ": W";
   LABEL_DATE ++ str ": day 19483"; str "On Drive"; str "vn"; str "short";
   LABEL_DOWNLOAD].
Proof.
  rewrite (proj1 (createModCard_texts Sample.toLowerCase Sample.Date_getTime
                    Sample.Number_of_string Sample.encodeURIComponent
                    SamplePage.Intl_format SamplePage.Number_toString 400
                    drive_raw drive_mod drive_mod_normalized)).
  vm_compute. reflexivity.
Defined.

(** The status box changes while the search box holds "  Mod ": the state
    takes the query "Mod", the URL reads back as that state, and the one
    record that matches is shown. *)
Lemma onStatusChange_agrees_witness :
  let synced := syncStateFromControls sample_controls by_name_state in
  exists w' page' ls' shown,
    onStatusChange Sample.toLowerCase Sample.Date_getTime Sample.localeCompare
      Sample.History_url SamplePage.Intl_format SamplePage.JSON_stringify_value
      Sample.storage_accepts SamplePage.Number_toString 400 sample_controls
      by_name_state sample_browser sample_page ∅ = (synced, w', Return (page', ls')) /\
    readStateFromURL w' by_name_state = synced /\
    applyFiltersAndSort Sample.toLowerCase Sample.localeCompare synced = Return shown /\
    modsContainer page' =
      Some (map (createModCard Sample.toLowerCase Sample.Date_getTime
                   SamplePage.Intl_format SamplePage.Number_toString 400) shown) /\
    loadFiltersFromStorage
      (SamplePage.JSON_parse_value (filters_of synced)) ls' =
    Some (mkFilters (VStr (s_query synced)) (VStr (s_status synced))
            (Data (VStr (s_sort synced)))).
Proof.
  refine (proj2 (onStatusChange_agrees Sample.toLowerCase Sample.Date_getTime
                   Sample.localeCompare Sample.History_url SamplePage.Intl_format
                   SamplePage.JSON_stringify_value
                   (SamplePage.JSON_parse_value
                      (filters_of (syncStateFromControls sample_controls by_name_state)))
                   Sample.storage_accepts SamplePage.Number_toString 400
                   sample_controls by_name_state sample_browser sample_page ∅ [])
            eq_refl eq_refl eq_refl eq_refl eq_refl _ _ _ _).
  - vm_compute. discriminate.
  - vm_compute. reflexivity.
  - vm_compute. reflexivity.
  - apply key_not_inherited. reflexivity.
Defined.

(** The same change on a page whose path begins with two slashes: the
    state takes the query, and the handler ends in [SecurityError] with
    nothing shown. *)
Example onStatusChange_refused :
  onStatusChange Sample.toLowerCase Sample.Date_getTime Sample.localeCompare
    Sample.History_url SamplePage.Intl_format SamplePage.JSON_stringify_value
    Sample.storage_accepts SamplePage.Number_toString 400 sample_controls
    by_name_state double_slash_browser sample_page ∅ =
  (syncStateFromControls sample_controls by_name_state, double_slash_browser,
   Throw SecurityError).
Proof. vm_compute. reflexivity. Qed.

(** Four calls of a function throttled to 250 ms: the second comes too
    soon. *)
Example throttle_four_calls :
  throttle 250 [(1000, str "a"); (1100, str "b"); (1250, str "c"); (1600, str "d")]
  = [(1000, str "a"); (1250, str "c"); (1600, str "d")].
Proof. reflexivity. Qed.

(** Three keystrokes within the delay, then quiet: one run, with the last
    text; the timer run before the delay has passed does nothing. *)
Example debounce_three_keystrokes :
  debounce 250 1
    [Call 1000 (str "m"); Call 1100 (str "mo"); Tick 1300; Call 1320 (str "mod");
     Tick 1500; Tick 1570; Tick 2000]
  = [(1570, str "mod")].
Proof. reflexivity. Qed.

(** A cache entry whose expiry is the text "soon" is served at any time. *)
Example undated_cache_never_expires :
  (getCachedData (Sample.JSON_parse sample_catalog) 99999999999999 undated_storage).1
  = Some sample_catalog.
Proof. vm_compute. reflexivity. Qed.

(** Stored filters that are the JSON array [[]]: query and status take their
    defaults and the sort is the array's method. *)
Example loadFilters_of_array :
  loadFiltersFromStorage (fun _ => Return (VArr []))
    (<[FILTERS_STORAGE_KEY := str "[]"]> ∅)
  = Some (mkFilters (VStr []) (VStr (str "all")) ArraySort).
Proof. reflexivity. Qed.

(** Five tags on a window 400 wide: five spans and the button "+2". *)
Example createTags_narrow :
  texts (createTags 400 [str "a"; str "b"; str "c"; str "d"; str "e"])
  = [str "a"; str "b"; str "c"; str "d"; str "e"; str "+2"] /\
  length (children_of (createTags 1024 [str "a"; str "b"; str "c"; str "d"; str "e"]))
  = 5%nat.
Proof. split; reflexivity. Qed.

(** Validation of the file with the numeric tag stops at its one record. *)
Example numeric_tag_does_not_pass :
  ~ Forall (passes (normalizeMod Sample.toLowerCase Sample.Date_getTime
                      Sample.Number_of_string Sample.encodeURIComponent))
      (candidates numeric_tag_tree).
Proof.
  intros H. apply Forall_cons in H. destruct H as [H _].
  destruct (H eq_refl eq_refl) as [o Ho]. vm_compute in Ho. discriminate Ho.
Qed.
